(** * Oligonucleotide composition features of the virus host classifier

    A shallow embedding of [libs/viruses_classifier/libs/sequence_processing.py],
    [libs/viruses_classifier/classifier.py] ([probas_to_dict],
    [seq_to_features], [classify]),
    [libs/viruses_classifier/libs/get_feature_indices.py] and
    [src/layer2/layer2_virus_host.py] ([detect_virus_host_type],
    [get_virus_host_features]).

    Modelling conventions.
    - Python [str] is [string]; a character is a one-character string where
      the source treats it as one (dictionary keys, tuple members).
    - Python [int] is [nat] where the source only counts and [Z] where it
      subtracts; Python [float] is idealised as an exact rational [Q], and
      numeric equality is [Qeq] ([==]).  Rounding is therefore not modelled.
    - A Python [dict] is an association list in insertion order: iteration
      order decides which key a comprehension visits first, hence which
      exception it raises first.
    - A raised exception is the [Raise] case of [result]. *)

From Stdlib Require Import String Ascii List Bool Arith ZArith QArith Qminmax Lia.
From Stdlib Require Import DecimalString.
Import ListNotations.

Close Scope Q_scope.
Close Scope Z_scope.
Local Open Scope nat_scope.
Local Open Scope list_scope.
Local Open Scope string_scope.

(** ** Exceptions and the error monad *)

Inductive exn : Type :=
| ZeroDivisionError
| AssertionError
| KeyError
| IndexError
| ImportError
| OtherError.

Inductive result (A : Type) : Type :=
| Ok (a : A)
| Raise (e : exn).

Arguments Ok {A} a.
Arguments Raise {A} e.

Definition bind {A B : Type} (m : result A) (k : A -> result B) : result B :=
  match m with
  | Ok a => k a
  | Raise e => Raise e
  end.

Notation "x <- m ;; k" := (bind m (fun x => k))
  (at level 61, m at next level, right associativity).

(** [for a in l: s = body(a, s)], stopping at the first exception. *)
Fixpoint for_each {A S : Type} (l : list A) (body : A -> S -> result S) (s : S)
  : result S :=
  match l with
  | [] => Ok s
  | a :: l' => s' <- body a s ;; for_each l' body s'
  end.

(** ** Python strings *)

(** The characters of a string, each as a one-character string
    ([for c in s]). *)
Fixpoint chars (s : string) : list string :=
  match s with
  | EmptyString => []
  | String c rest => String c EmptyString :: chars rest
  end.

(** [s[n:]] *)
Fixpoint str_drop (n : nat) (s : string) : string :=
  match n, s with
  | O, _ => s
  | S _, EmptyString => EmptyString
  | S n', String _ rest => str_drop n' rest
  end.

(** [s[:n]] *)
Fixpoint str_take (n : nat) (s : string) : string :=
  match n, s with
  | O, _ => EmptyString
  | S _, EmptyString => EmptyString
  | S n', String c rest => String c (str_take n' rest)
  end.

(** [sequence.find(word, start)]: the lowest index at or after [start]
    where [word] occurs; [None] stands for Python's [-1]. *)
Fixpoint str_find (sequence word : string) (start : nat) : option nat :=
  match start, sequence with
  | O, EmptyString => if prefix word sequence then Some 0 else None
  | O, String _ rest =>
      if prefix word sequence then Some 0
      else option_map S (str_find rest word 0)
  | S _, EmptyString => None
  | S n, String _ rest => option_map S (str_find rest word n)
  end.

(** [sequence.count(word)]: non-overlapping occurrences, scanning from the
    left; [skip] characters of the last match are still to be passed. *)
Fixpoint str_count_from (skip : nat) (sequence word : string) : nat :=
  match sequence with
  | EmptyString =>
      match skip with
      | O => if prefix word sequence then 1 else 0
      | S _ => 0
      end
  | String _ rest =>
      match skip with
      | S k => str_count_from k rest word
      | O =>
          if prefix word sequence
          then 1 + str_count_from (String.length word - 1) rest word
          else str_count_from 0 rest word
      end
  end.

Definition str_count (sequence word : string) : nat :=
  str_count_from 0 sequence word.

(** Membership of a string in a tuple or list ([x in t]). *)
Definition str_in (x : string) (l : list string) : bool :=
  existsb (String.eqb x) l.

(** ** Module constants *)

Definition NA_IUPAC : list (string * list string) :=
  [ ("A", ["A"]); ("C", ["C"]); ("G", ["G"]); ("T", ["T"]);
    ("R", ["A"; "G"]); ("Y", ["C"; "T"]); ("M", ["A"; "C"]); ("K", ["G"; "T"]);
    ("S", ["C"; "G"]); ("W", ["A"; "T"]); ("B", ["C"; "G"; "T"]);
    ("D", ["A"; "G"; "T"]); ("H", ["A"; "C"; "T"]); ("V", ["A"; "C"; "G"]);
    ("N", ["A"; "C"; "G"; "T"]) ].

Definition transcription_dict : list (string * string) :=
  [ ("A", "T"); ("C", "G"); ("G", "C"); ("T", "A"); ("U", "A"); ("R", "Y");
    ("Y", "R"); ("N", "N"); ("M", "K"); ("K", "M"); ("S", "W"); ("W", "S");
    ("B", "V"); ("V", "B"); ("D", "H"); ("H", "D") ].

Definition default_mono : list string := ["A"; "C"; "G"; "T"].

(** ** [betterCount] *)

(** The [while pos:] loop.  [pos] grows at every turn and [find] answers
    [-1] beyond the end of the sequence, so the loop leaves through [break];
    [fuel] only makes the recursion structural (see
    [betterCount_loop_spec]: the result does not depend on it once it is at
    least [length sequence + 2 - pos]). *)
Fixpoint betterCount_loop (fuel : nat) (sequence word : string)
         (pos ret_val : nat) : nat :=
  match fuel with
  | O => ret_val
  | S fuel' =>
      if Nat.eqb pos 0 then ret_val
      else
        match str_find sequence word pos with
        | None => ret_val
        | Some p => betterCount_loop fuel' sequence word (p + 1) (ret_val + 1)
        end
  end.

Definition betterCount (sequence word : string) : nat :=
  let ret_val := 0 in
  match str_find sequence word 0 with
  | None => 0
  | Some pos =>
      betterCount_loop (String.length sequence + 2) sequence word (pos + 1) ret_val
  end.

(** The number of starting positions at which [word] occurs in [sequence],
    overlaps included: what the docstring of [betterCount] promises. *)
Fixpoint overlapping_count (sequence word : string) : nat :=
  match sequence with
  | EmptyString => if prefix word sequence then 1 else 0
  | String _ rest =>
      (if prefix word sequence then 1 else 0) + overlapping_count rest word
  end.

(** Occurrences starting at index [pos] or later. *)
Fixpoint occurrences_from (sequence word : string) (pos : nat) {struct pos}
  : nat :=
  match pos, sequence with
  | O, _ => overlapping_count sequence word
  | S _, EmptyString => 0
  | S n, String _ rest => occurrences_from rest word n
  end.

(** ** Python dictionaries *)

Definition dict (V : Type) : Type := list (string * V).

Fixpoint dict_get {V : Type} (k : string) (d : dict V) : option V :=
  match d with
  | [] => None
  | (k', v) :: d' => if String.eqb k k' then Some v else dict_get k d'
  end.

(** [d[k] = v]: an existing key keeps its place, a new one goes last. *)
Fixpoint dict_set {V : Type} (k : string) (v : V) (d : dict V) : dict V :=
  match d with
  | [] => [(k, v)]
  | (k', v') :: d' =>
      if String.eqb k k' then (k', v) :: d' else (k', v') :: dict_set k v d'
  end.

Definition dict_mem {V : Type} (k : string) (d : dict V) : bool :=
  match dict_get k d with Some _ => true | None => false end.

(** [d[k]] *)
Definition dict_item {V : Type} (k : string) (d : dict V) : result V :=
  match dict_get k d with Some v => Ok v | None => Raise KeyError end.

(** [d.get(k, default)] *)
Definition dict_get_default {V : Type} (k : string) (default : V) (d : dict V)
  : V :=
  match dict_get k d with Some v => v | None => default end.

Definition dict_keys {V : Type} (d : dict V) : list string := map fst d.

Definition dict_values {V : Type} (d : dict V) : list V := map snd d.

(** [{k: v for k, v in d.items() if p(k)}] *)
Definition dict_filter {V : Type} (p : string -> bool) (d : dict V) : dict V :=
  filter (fun kv => p (fst kv)) d.

(** [dict(items)] *)
Definition dict_of_items {V : Type} (items : list (string * V)) : dict V :=
  fold_left (fun d kv => dict_set (fst kv) (snd kv) d) items [].

(** [d.update(other)] *)
Definition dict_update {V : Type} (d other : dict V) : dict V :=
  fold_left (fun d kv => dict_set (fst kv) (snd kv) d) other d.

(** [{x: f(x) for x in keys}], stopping at the first exception. *)
Definition dict_comp {V : Type} (keys : list string) (f : string -> result V)
  : result (dict V) :=
  for_each keys (fun x d => v <- f x ;; Ok (dict_set x v d)) [].

(** [[f(x) for x in l]], stopping at the first exception. *)
Fixpoint mapM {A B : Type} (f : A -> result B) (l : list A) : result (list B) :=
  match l with
  | [] => Ok []
  | a :: l' => b <- f a ;; bs <- mapM f l' ;; Ok (b :: bs)
  end.

(** [set(l)], iterated in order of first occurrence.  CPython leaves the
    iteration order of a set of strings unspecified; every loop over a set
    below writes one dictionary entry per element, so only the insertion
    order of new keys depends on this choice. *)
Fixpoint py_set (l : list string) : list string :=
  match l with
  | [] => []
  | x :: l' => x :: filter (fun y => negb (String.eqb x y)) (py_set l')
  end.

(** ** Numbers *)

Definition Qnat (n : nat) : Q := inject_Z (Z.of_nat n).

(** [a / b] on floats *)
Definition py_div (a b : Q) : result Q :=
  if Qeq_bool b 0 then Raise ZeroDivisionError else Ok (a / b)%Q.

(** [sum(l)] *)
Definition py_sum (l : list Q) : Q := fold_left Qplus l 0%Q.

Definition nat_sum (l : list nat) : nat := fold_left Nat.add l 0.

(** [try: body except ZeroDivisionError: handler] *)
Definition try_ZeroDivisionError {A : Type} (body handler : result A)
  : result A :=
  match body with
  | Raise ZeroDivisionError => handler
  | r => r
  end.

(** [s[i]] *)
Definition str_index (s : string) (i : nat) : result string :=
  match String.get i s with
  | Some c => Ok (String c EmptyString)
  | None => Raise IndexError
  end.

(** [needle in haystack] on strings *)
Definition str_contains (haystack needle : string) : bool :=
  match str_find haystack needle 0 with Some _ => true | None => false end.

(** ** [sequence_processing.py] *)

Fixpoint combinations (n : nat) (inlist : list string)
         (outlist : option (list string)) : list string :=
  let outlist := match outlist with None => [] | Some l => l end in
  match n with
  | O => outlist
  | S n' =>
      match outlist with
      | _ :: _ =>
          let new_outlist :=
            flat_map (fun element => map (fun x => element ++ x) inlist) outlist
          in
          combinations n' inlist (Some new_outlist)
      | [] => combinations n' inlist (Some inlist)
      end
  end.

Definition frequence (sequence nuc : string) (count : option nat) : result Q :=
  if (String.length sequence =? 0)%nat then Ok 0%Q
  else if (String.length nuc =? 1)%nat then
    let count :=
      match count with Some c => c | None => str_count sequence nuc end in
    py_div (Qnat count) (Qnat (String.length sequence))
  else
    let count :=
      match count with Some c => c | None => betterCount sequence nuc end in
    py_div (Qnat count)
           (inject_Z (Z.of_nat (String.length sequence)
                      - Z.of_nat (String.length nuc) + 1)).

(** [range(len(sequence) - length + 1)] is empty when the bound is not
    positive, which is what the truncated subtraction gives. *)
Definition nucList (sequence : string) (length : nat) : list string :=
  map (fun x => str_take length (str_drop x sequence))
      (seq 0 (String.length sequence + 1 - length)).

(** The inner [for key in iupac.keys(): if nuc in key: ... break]. *)
Fixpoint iupac_lookup (nuc : string) (iupac : dict (list string))
  : option (list string) :=
  match iupac with
  | [] => None
  | (key, nucs) :: rest =>
      if str_contains key nuc then Some nucs else iupac_lookup nuc rest
  end.

Definition makeCombinations (oligo_nuc : string)
           (iupac : option (dict (list string))) : list string :=
  let iupac := match iupac with None => NA_IUPAC | Some d => d end in
  let oligo_nuc_list :=
    fold_left
      (fun oligo_nuc_list nuc =>
         let nucs :=
           match iupac_lookup nuc iupac with
           | Some nucs => nucs
           | None => [nuc]
           end in
         match oligo_nuc_list with
         | _ :: _ =>
             flat_map (fun element => map (fun x => element ++ x) nucs)
                      oligo_nuc_list
         | [] => nucs
         end)
      (chars oligo_nuc) [] in
  py_set oligo_nuc_list.

Definition reverseComplement (a_string : string)
           (transcript_dict : option (dict string)) : string :=
  let transcript_dict :=
    match transcript_dict with None => transcription_dict | Some d => d end in
  let a_list := map (fun s => dict_get_default s s transcript_dict)
                    (chars a_string) in
  String.concat "" (rev a_list).

(** The degenerate-base correction of the mononucleotide entries
    (source lines 199-202). *)
Definition redistribute_mono (sequence : string) (mono : list string)
           (ret_dict : dict Q) : result (dict Q) :=
  let seq_len := String.length sequence in
  for_each (chars sequence)
    (fun nuc ret_dict =>
       if negb (str_in nuc mono) && dict_mem nuc NA_IUPAC then
         subs <- dict_item nuc NA_IUPAC ;;
         for_each subs
           (fun sub_nuc ret_dict =>
              a <- py_div 1 (Qnat seq_len) ;;
              b <- py_div a (Qnat (List.length subs)) ;;
              Ok (dict_set sub_nuc
                           (dict_get_default sub_nuc 0%Q ret_dict + b)%Q
                           ret_dict))
           ret_dict
       else Ok ret_dict)
    ret_dict.

(** The degenerate-base correction of the oligonucleotide entries
    (source lines 204-208). *)
Definition redistribute_oligo (sequence : string) (length : nat)
           (desired_nucs : list string) (ret_dict : dict Q)
  : result (dict Q) :=
  let seq_len := String.length sequence in
  for_each (nucList sequence length)
    (fun nuc ret_dict =>
       if negb (str_in nuc desired_nucs) then
         let real_nucs := makeCombinations nuc None in
         for_each real_nucs
           (fun real_nuc ret_dict =>
              a <- py_div 1 (inject_Z (Z.of_nat seq_len - Z.of_nat length + 1)) ;;
              b <- py_div a (Qnat (List.length real_nucs)) ;;
              Ok (dict_set real_nuc
                           (dict_get_default real_nuc 0%Q ret_dict + b)%Q
                           ret_dict))
           ret_dict
       else Ok ret_dict)
    ret_dict.

(** [length] is a Python [int]; [if length - 1:] is the test [length != 1]
    (at [length = 0] the difference is [-1], which is true). *)
Definition nucFrequencies (sequence : string) (length : nat)
           (mono : list string) : result (dict Q) :=
  let ret_dict : dict Q := [] in
  let seq_len := String.length sequence in
  let mono_count : dict nat := dict_of_items (map (fun nuc => (nuc, 0)) mono) in
  let desired_nucs := combinations length mono None in
  st <- for_each mono
          (fun nuc (st : dict Q * dict nat) =>
             let count := betterCount sequence nuc in
             f <- frequence sequence nuc (Some count) ;;
             Ok (dict_set nuc f (fst st), dict_set nuc count (snd st)))
          (ret_dict, mono_count) ;;
  let ret_dict := fst st in
  let mono_count := snd st in
  ret_dict <- for_each desired_nucs
                (fun nuc ret_dict =>
                   f <- frequence sequence nuc None ;;
                   Ok (dict_set nuc f ret_dict))
                ret_dict ;;
  if negb (seq_len =? nat_sum (dict_values mono_count))%nat then
    ret_dict <- redistribute_mono sequence mono ret_dict ;;
    if negb (length =? 1)%nat then
      redistribute_oligo sequence length desired_nucs ret_dict
    else Ok ret_dict
  else Ok ret_dict.

(** [reduce(lambda x, y: x * y, a_list)], and [1] for the empty list. *)
Definition product (a_list : list Q) : Q :=
  match a_list with
  | [] => 1%Q
  | a :: rest => fold_left Qmult rest a
  end.

Definition zeroDivision (a b : Q) : result Q :=
  try_ZeroDivisionError (py_div a b) (Ok 0%Q).

(** [1e-10] *)
Definition epsilon : Q := (1 # 10000000000)%Q.

(** [sum(tri_freqs.get('%s%s%s' % (a, n, c), 0) for n in mono)] *)
Definition context_sum (tri_freqs : dict Q) (a c : string)
           (mono : list string) : Q :=
  py_sum (map (fun n => dict_get_default (a ++ n ++ c) 0%Q tri_freqs) mono).

(** The body of [for key in tri_freqs] in [thirdOrderBias]: the value
    stored at [ret_dict[key]]. *)
Definition bias_value (strand : Z) (mono : list string)
           (transcript_dict : dict string)
           (mono_freqs di_freqs tri_freqs : dict Q) (key : string)
  : result Q :=
  fxyz <- dict_item key tri_freqs ;;
  let rev_key := reverseComplement key (Some transcript_dict) in
  let fixyz := dict_get_default rev_key 0%Q tri_freqs in
  if Qeq_bool fxyz 0
     && ((strand =? 1)%Z || ((strand =? 2)%Z && Qeq_bool fixyz 0))
  then Ok 0%Q
  else
    let fxy := dict_get_default (str_take 2 key) 0%Q di_freqs in
    let fyz := dict_get_default (str_drop 1 key) 0%Q di_freqs in
    k0 <- str_index key 0 ;;
    k2 <- str_index key 2 ;;
    let fxnz := context_sum tri_freqs k0 k2 mono in
    if (strand =? 1)%Z then
      k1 <- str_index key 1 ;;
      py_div (fxyz * dict_get_default k0 0 mono_freqs
                   * dict_get_default k1 0 mono_freqs
                   * dict_get_default k2 0 mono_freqs)%Q
             (Qmax (fxy * fyz * fxnz)%Q epsilon)
    else
      let tr := fun k => dict_get_default k k transcript_dict in
      k1 <- str_index key 1 ;;
      let fix_ := dict_get_default (tr k0) 0%Q mono_freqs in
      let fiy := dict_get_default (tr k1) 0%Q mono_freqs in
      let fiz := dict_get_default (tr k2) 0%Q mono_freqs in
      let fixy :=
        dict_get_default
          (reverseComplement (str_take 2 key) (Some transcript_dict))
          0%Q di_freqs in
      let fiyz :=
        dict_get_default
          (reverseComplement (str_drop 1 key) (Some transcript_dict))
          0%Q di_freqs in
      let fixnz := context_sum tri_freqs (tr k2) (tr k0) mono in
      py_div ((fxyz + fixyz)
                * (dict_get_default k0 0 mono_freqs + fix_)
                * (dict_get_default k1 0 mono_freqs + fiy)
                * (dict_get_default k2 0 mono_freqs + fiz))%Q
             (Qmax (2 * (fxy + fixy) * (fyz + fiyz) * (fxnz + fixnz))%Q
                   epsilon).

(** The three frequency tables [thirdOrderBias] works from.  Both calls of
    [nucFrequencies] take that function's own default [mono]. *)
Definition bias_tables (seq : string)
  : result (dict Q * dict Q * dict Q) :=
  nuc_freqs <- nucFrequencies seq 2 default_mono ;;
  let mono_freqs :=
    dict_filter (fun k => (String.length k =? 1)%nat) nuc_freqs in
  let di_freqs :=
    dict_filter (fun k => (String.length k =? 2)%nat) nuc_freqs in
  nuc_freqs3 <- nucFrequencies seq 3 default_mono ;;
  let tri_freqs :=
    dict_filter (fun k => (String.length k =? 3)%nat) nuc_freqs3 in
  Ok (mono_freqs, di_freqs, tri_freqs).

Definition thirdOrderBias (seq : string) (strand : Z) (mono : list string)
           (transcript_dict : option (dict string)) : result (dict Q) :=
  let transcript_dict :=
    match transcript_dict with None => transcription_dict | Some d => d end in
  if negb (2 <? String.length seq)%nat then Raise AssertionError
  else if negb ((strand =? 1)%Z || (strand =? 2)%Z) then Raise AssertionError
  else
    tables <- bias_tables seq ;;
    let mono_freqs := fst (fst tables) in
    let di_freqs := snd (fst tables) in
    let tri_freqs := snd tables in
    dict_comp (dict_keys tri_freqs)
              (bias_value strand mono transcript_dict
                          mono_freqs di_freqs tri_freqs).

(** [itertools.product(keys, repeat=n)], each tuple joined into a string. *)
Fixpoint product_repeat (keys : list string) (n : nat) : list string :=
  match n with
  | O => [""]
  | S n' =>
      flat_map (fun k => map (fun p => k ++ p) (product_repeat keys n')) keys
  end.

(** The value of oligo [x] in strand mode 2; [safe] selects the
    [except ZeroDivisionError] variant. *)
Definition relative_two_strands (safe : bool) (nuc_len : nat)
           (transcript_dict : dict string) (mono_dict oligo_dict : dict Q)
           (x : string) : result Q :=
  ox <- dict_item x oligo_dict ;;
  orc <- dict_item (reverseComplement x None) oligo_dict ;;
  terms <- mapM (fun y =>
                   my <- dict_item y mono_dict ;;
                   ty <- dict_item y transcript_dict ;;
                   mty <- dict_item ty mono_dict ;;
                   Ok (my + mty)%Q)
                (chars x) ;;
  let scale := inject_Z (2 ^ Z.of_nat (nuc_len - 1)) in
  if safe then
    q <- zeroDivision (ox + orc)%Q (product terms) ;;
    Ok (scale * q)%Q
  else py_div (scale * (ox + orc))%Q (product terms).

(** The value of oligo [x] in strand mode 1. *)
Definition relative_one_strand (safe : bool) (mono_dict oligo_dict : dict Q)
           (x : string) : result Q :=
  ox <- dict_item x oligo_dict ;;
  terms <- mapM (fun y => dict_item y mono_dict) (chars x) ;;
  if safe then zeroDivision ox (product terms)
  else py_div ox (product terms).

(** [if len(mono_dict) != 4: for k in set('ACGT') - set(mono_dict): ...].
    The missing keys are added in the order A, C, G, T (the source iterates
    a set difference). *)
Definition complete_mono (mono_dict : dict Q) : dict Q :=
  if negb (List.length mono_dict =? 4)%nat then
    fold_left (fun d k => dict_set k 0%Q d)
              (filter (fun k => negb (dict_mem k mono_dict))
                      ["A"; "C"; "G"; "T"])
              mono_dict
  else mono_dict.

(** [if len(oligo_dict) != nuc_len**2: for k in product(...): ...] *)
Definition complete_oligo (nuc_len : nat) (mono_dict oligo_dict : dict Q)
  : dict Q :=
  if negb (List.length oligo_dict =? nuc_len ^ 2)%nat then
    fold_left (fun d k => if negb (dict_mem k d) then dict_set k 0%Q d else d)
              (product_repeat (dict_keys mono_dict) nuc_len)
              oligo_dict
  else oligo_dict.

(** [strands] is a Python [int]; [if strands - 1:] is [strands != 1]. *)
Definition relativeNucFrequencies (in_dict : dict Q) (strands : Z)
           (transcript_dict : option (dict string)) : result (dict Q) :=
  let transcript_dict :=
    match transcript_dict with None => transcription_dict | Some d => d end in
  let mono_dict :=
    dict_filter (fun x => (String.length x =? 1)%nat) in_dict in
  let oligo_dict :=
    dict_filter (fun x => (1 <? String.length x)%nat) in_dict in
  match dict_keys oligo_dict with
  | [] => Ok in_dict
  | first_key :: _ =>
      let nuc_len := String.length first_key in
      if negb (forallb (fun k => (nuc_len =? String.length k)%nat)
                       (dict_keys oligo_dict))
      then Raise AssertionError
      else
        let mono_dict := complete_mono mono_dict in
        let oligo_dict := complete_oligo nuc_len mono_dict oligo_dict in
        if negb (strands - 1 =? 0)%Z then
          try_ZeroDivisionError
            (dict_comp (dict_keys oligo_dict)
                       (relative_two_strands false nuc_len transcript_dict
                                             mono_dict oligo_dict))
            (dict_comp (dict_keys oligo_dict)
                       (relative_two_strands true nuc_len transcript_dict
                                             mono_dict oligo_dict))
        else
          try_ZeroDivisionError
            (dict_comp (dict_keys oligo_dict)
                       (relative_one_strand false mono_dict oligo_dict))
            (dict_comp (dict_keys oligo_dict)
                       (relative_one_strand true mono_dict oligo_dict))
  end.

(** ** [classifier.py] *)

Definition ACID_TO_NUMBER : dict Q := [("dna", 1%Q); ("rna", 0%Q)].

Definition NUM_TO_CLASS : list (Z * string) :=
  [(0%Z, "Eucaryota-infecting"); (1%Z, "phage")].

(** [NUM_TO_CLASS[i]] *)
Fixpoint int_item (i : Z) (d : list (Z * string)) : result string :=
  match d with
  | [] => Raise KeyError
  | (k, v) :: d' => if (i =? k)%Z then Ok v else int_item i d'
  end.

(** [sorted(l)] on strings: insertion sort by code point order. *)
Fixpoint insert_sorted (x : string) (l : list string) : list string :=
  match l with
  | [] => [x]
  | y :: l' => if String.leb x y then x :: l else y :: insert_sorted x l'
  end.

Definition sorted (l : list string) : list string :=
  fold_right insert_sorted [] l.

(** [{p + key: value for key, value in d.items()}] *)
Definition prefix_keys (p : string) (d : dict Q) : dict Q :=
  dict_of_items (map (fun kv => (p ++ fst kv, snd kv)) d).

Definition seq_to_features (seq nuc_acid : string) : result (list Q) :=
  acid_code <- dict_item nuc_acid ACID_TO_NUMBER ;;
  nuc_frequencies <- nucFrequencies seq 2 default_mono ;;
  let nuc_frequencies_ := prefix_keys "nuc_frequencies__" nuc_frequencies in
  rel <- relativeNucFrequencies nuc_frequencies 1 None ;;
  let relative_nuc_frequencies_one_strand_ :=
    prefix_keys "relative_nuc_frequencies_one_strand__" rel in
  tri <- thirdOrderBias seq 1 default_mono None ;;
  let relative_trinuc_freqs_one_strand_ :=
    prefix_keys "relative_trinuc_freqs_one_strand__" tri in
  let freqs := nuc_frequencies_ in
  let freqs := dict_update freqs relative_nuc_frequencies_one_strand_ in
  let freqs := dict_update freqs relative_trinuc_freqs_one_strand_ in
  vals <- mapM (fun k => dict_item k freqs) (sorted (dict_keys freqs)) ;;
  Ok (acid_code :: vals).

(** A loaded scaler or classifier object.  The objects are duck-typed: an
    operation the object does not have is one that raises. *)
Record Artifact : Type := {
  transform : list Q -> result (list Q);
  predict : list Q -> result Z;
  predict_proba : list Q -> result (list Q)
}.

Definition probas_to_dict (probas : list Q) (translation_dict : list (Z * string))
  : result (dict Q) :=
  for_each (seq 0 (List.length probas))
    (fun i d =>
       k <- int_item (Z.of_nat i) translation_dict ;;
       match nth_error probas i with
       | Some p => Ok (dict_set k p d)
       | None => Raise IndexError
       end)
    [].

(** The result is a class name, or the class probabilities when [probas]
    is set. *)
Definition classify (sequence_features : list Q) (scaler classifier : Artifact)
           (feature_indices : option (list nat)) (probas : bool)
  : result (if probas then dict Q else string) :=
  vals <- match feature_indices with
          | Some idx =>
              scaled <- transform scaler sequence_features ;;
              mapM (fun i => match nth_error scaled i with
                             | Some v => Ok v
                             | None => Raise IndexError
                             end) idx
          | None => transform scaler sequence_features
          end ;;
  match probas return result (if probas then dict Q else string) with
  | true =>
      clf_val <- predict_proba classifier vals ;;
      probas_to_dict clf_val NUM_TO_CLASS
  | false =>
      c <- predict classifier vals ;;
      int_item c NUM_TO_CLASS
  end.

(** ** [layer2_virus_host.py] *)

Record VirusHostResult : Type := {
  host_type : option string;
  probabilities : option (dict Q);
  features_extracted : bool;
  feature_count : nat;
  classifier_used : option string;
  warnings : list string;
  error : option string
}.

Definition ascii_lower (c : ascii) : ascii :=
  let n := nat_of_ascii c in
  if (65 <=? n)%nat && (n <=? 90)%nat then ascii_of_nat (n + 32) else c.

Definition ascii_upper (c : ascii) : ascii :=
  let n := nat_of_ascii c in
  if (97 <=? n)%nat && (n <=? 122)%nat then ascii_of_nat (n - 32) else c.

(** [s.lower()] and [s.upper()] on ASCII letters *)
Fixpoint str_lower (s : string) : string :=
  match s with
  | EmptyString => EmptyString
  | String c rest => String (ascii_lower c) (str_lower rest)
  end.

Fixpoint str_upper (s : string) : string :=
  match s with
  | EmptyString => EmptyString
  | String c rest => String (ascii_upper c) (str_upper rest)
  end.

(** [str(n)] *)
Definition str_of_nat (n : nat) : string :=
  NilEmpty.string_of_uint (Nat.to_uint n).

Section Layer2.

(** What the module takes from its environment: whether the import of
    the classifier package worked, the loader of serialised artifacts,
    the tables of [constants.py] (read from files at import time), and
    the text [str(e)] of an exception. *)
Variable VIRUSES_CLASSIFIER_AVAILABLE : bool.
Variable load_joblib_safe : string -> result Artifact.
Variable scaler_path : string.
Variable classifier_paths : dict string.
Variable feature_indices : dict (list nat).
Variable exn_str : exn -> string.

(** [VirusHostResult(error=..., warnings=...)] *)
Definition error_result (msg : string) (ws : list string) : VirusHostResult :=
  {| host_type := None; probabilities := None; features_extracted := false;
     feature_count := 0; classifier_used := None; warnings := ws;
     error := Some msg |}.

(** The body of the [try] at source lines 109-133, up to the assignments
    to [result]. *)
Definition load_and_classify (seq_features : list Q) (classifier_type : string)
  : result (string * dict Q) :=
  scaler <- load_joblib_safe scaler_path ;;
  path <- dict_item classifier_type classifier_paths ;;
  classifier <- load_joblib_safe path ;;
  indices <- dict_item classifier_type feature_indices ;;
  host <- classify seq_features scaler classifier (Some indices) false ;;
  probs <- classify seq_features scaler classifier (Some indices) true ;;
  Ok (host, probs).

Definition detect_virus_host_type (sequence nucleic_acid classifier_type : string)
           (use_models : bool) : VirusHostResult :=
  if negb VIRUSES_CLASSIFIER_AVAILABLE then
    error_result
      "viruses_classifier package not available"
      ["Install with: uv pip install --no-deps git+https://github.com/wojciech-galan/viruses_classifier.git"]
  else
    let warnings0 : list string := [] in
    let nucleic_acid := str_lower nucleic_acid in
    let classifier_type := str_lower classifier_type in
    if negb (str_in nucleic_acid ["dna"; "rna"]) then
      error_result
        ("Invalid nucleic_acid: " ++ nucleic_acid ++ ". Must be 'DNA' or 'RNA'")
        warnings0
    else if negb (str_in classifier_type ["svc"; "knn"; "qda"; "lr"]) then
      error_result ("Invalid classifier_type: " ++ classifier_type) warnings0
    else
      match seq_to_features sequence nucleic_acid with
      | Raise e =>
          error_result ("Feature extraction failed: " ++ exn_str e) warnings0
      | Ok seq_features =>
          let n := List.length seq_features in
          if use_models then
            match load_and_classify seq_features classifier_type with
            | Ok (host, probs) =>
                {| host_type := Some host; probabilities := Some probs;
                   features_extracted := true; feature_count := n;
                   classifier_used := Some (str_upper classifier_type);
                   warnings := warnings0; error := None |}
            | Raise e =>
                {| host_type := None; probabilities := None;
                   features_extracted := true; feature_count := n;
                   classifier_used := None;
                   warnings :=
                     warnings0 ++
                     [ "Model loading failed (Python 2 pickle format): "
                       ++ exn_str e
                       ++ ". Feature extraction succeeded ("
                       ++ str_of_nat n ++ " features)." ]%string;
                   error := None |}
            end
          else
            {| host_type := None; probabilities := None;
               features_extracted := true; feature_count := n;
               classifier_used := None;
               warnings := warnings0 ++ ["Models not used - only features extracted"];
               error := None |}
      end.

End Layer2.

(** ** Notions of the specification *)

(** The sum of the four mononucleotide entries of a table. *)
Definition mono_total (d : dict Q) : Q :=
  py_sum (map (fun nuc => dict_get_default nuc 0%Q d) default_mono).

(** A table with the four mononucleotides and [nuc_len ** 2 = 4] of the
    [4 ** 2 = 16] dinucleotides, and the same table with one entry less. *)
Definition four_dinucleotides : dict Q :=
  [ ("A", 1 # 4); ("C", 1 # 4); ("G", 1 # 4); ("T", 1 # 4);
    ("AA", 1 # 4); ("AC", 1 # 4); ("AG", 1 # 4); ("AT", 1 # 4) ]%Q.

Definition three_dinucleotides : dict Q :=
  [ ("A", 1 # 4); ("C", 1 # 4); ("G", 1 # 4); ("T", 1 # 4);
    ("AA", 1 # 4); ("AC", 1 # 4); ("AG", 1 # 4) ]%Q.

(** The oligo length [relativeNucFrequencies] reads off the first oligo key
    ([nuc_len] in the source); 0 when the table has no oligo entry. *)
Definition oligo_length (in_dict : dict Q) : nat :=
  match dict_keys (dict_filter (fun x => (1 <? String.length x)%nat) in_dict)
  with
  | [] => 0
  | first_key :: _ => String.length first_key
  end.

(** The mononucleotide and oligo tables [relativeNucFrequencies] works
    from, after completion. *)
Definition completed_mono (in_dict : dict Q) : dict Q :=
  complete_mono (dict_filter (fun x => (String.length x =? 1)%nat) in_dict).

Definition completed_oligo (in_dict : dict Q) : dict Q :=
  complete_oligo (oligo_length in_dict) (completed_mono in_dict)
                 (dict_filter (fun x => (1 <? String.length x)%nat) in_dict).

(** The complement of one base, as [reverseComplement] takes it. *)
Definition complement (y : string) : string :=
  dict_get_default y y transcription_dict.




(** ** Further functions of the source *)

(** [l.index(x)]: the first position of [x]; [None] stands for the
    [ValueError] of a missing element. *)
Fixpoint list_index (x : string) (l : list string) : option nat :=
  match l with
  | [] => None
  | y :: l' =>
      if String.eqb x y then Some 0 else option_map S (list_index x l')
  end.

(** [_get_feature_indices] of [libs/get_feature_indices.py]:
    [[all_features.index(feat) for feat in specific_features]]. *)
Fixpoint get_feature_indices (all_features specific_features : list string)
  : option (list nat) :=
  match specific_features with
  | [] => Some []
  | feat :: rest =>
      match list_index feat all_features with
      | None => None
      | Some i =>
          option_map (cons i) (get_feature_indices all_features rest)
      end
  end.

(** The dictionary returned by [get_virus_host_features]: without the
    package [{"error", "features": None}]; on success [{"features",
    "feature_count", "nucleic_acid", "success": True}]; on an exception
    [{"error": str(e), "features": None, "success": False}]. *)
Inductive FeaturesReport : Type :=
| ReportUnavailable (error : string)
| ReportFeatures (features : list Q) (feature_count : nat)
                 (nucleic_acid : string)
| ReportFailure (error : string).

Definition get_virus_host_features (VIRUSES_CLASSIFIER_AVAILABLE : bool)
           (exn_str : exn -> string) (sequence nucleic_acid : string)
  : FeaturesReport :=
  if negb VIRUSES_CLASSIFIER_AVAILABLE then
    ReportUnavailable "viruses_classifier not available"
  else
    match seq_to_features sequence (str_lower nucleic_acid) with
    | Ok features =>
        ReportFeatures features (List.length features) nucleic_acid
    | Raise e => ReportFailure (exn_str e)
    end.

(** The strand-1 relative frequency in mathematical terms: the observed
    frequency over the product of the mononucleotide frequencies of the
    letters, and 0 when that product is 0. *)
Definition strand1_relative_formula (mono_dict oligo_dict : dict Q)
           (x : string) : Q :=
  let expected :=
    fold_right Qmult 1%Q
               (map (fun y => dict_get_default y 0%Q mono_dict) (chars x)) in
  if Qeq_bool expected 0 then 0%Q
  else (dict_get_default x 0%Q oligo_dict / expected)%Q.

(** ** Auxiliary notions *)

(** The keys of a dictionary after [d[k] = v]. *)
Definition keys_add (ks : list string) (k : string) : list string :=
  if str_in k ks then ks else (ks ++ [k])%list.

(** Sequences over the fifteen letters that [NA_IUPAC] resolves, and over
    the four canonical bases. *)
Definition iupac_sequence (s : string) : Prop :=
  Forall (fun c => In c (dict_keys NA_IUPAC)) (chars s).

Definition canonical_sequence (s : string) : Prop :=
  Forall (fun c => In c default_mono) (chars s).

(** A list of strings without repetition, as a test. *)
Fixpoint nodupb (l : list string) : bool :=
  match l with
  | [] => true
  | x :: l' => negb (str_in x l') && nodupb l'
  end.

(** A table all of whose entries are non-negative. *)
Definition nonnegative (d : dict Q) : Prop :=
  forall k v, dict_get k d = Some v -> (0 <= v)%Q.

(** One block of the feature vector: the values of a table in the sorted
    order of its keys ([[freqs[k] for k in sorted(freqs)]]). *)
Definition feature_block (d : dict Q) : list Q :=
  map (fun k => dict_get_default k 0%Q d) (sorted (dict_keys d)).

(** The strand-2 bias of a trinucleotide in mathematical terms, from the
    three frequency functions: 0 when the trinucleotide and its reverse
    complement both have frequency 0, otherwise the ratio of the source
    with its divisor kept at [1e-10] or above. *)
Definition strand2_bias (mm dd ff : string -> Q) (key : string) : Q :=
  let tr := fun k => dict_get_default k k transcription_dict in
  let rc := fun k => reverseComplement k None in
  let x := str_take 1 key in
  let y := str_take 1 (str_drop 1 key) in
  let z := str_drop 2 key in
  let around := fun a c =>
    (ff (a ++ "A" ++ c) + ff (a ++ "C" ++ c) + ff (a ++ "G" ++ c)
     + ff (a ++ "T" ++ c))%Q in
  if Qeq_bool (ff key) 0 && Qeq_bool (ff (rc key)) 0 then 0%Q
  else ((ff key + ff (rc key))
        * (mm x + mm (tr x)) * (mm y + mm (tr y)) * (mm z + mm (tr z))
        / Qmax (2 * (dd (x ++ y) + dd (rc (x ++ y)))
                  * (dd (y ++ z) + dd (rc (y ++ z)))
                  * (around x z + around (tr z) (tr x)))
               (1 # 10000000000))%Q.

(** The sum of a list of numbers. *)
Definition Qsum (l : list Q) : Q := fold_right Qplus 0%Q l.

(** The share of base [b] in one letter [c] of the sequence: for a
    degenerate letter, the number of times [b] is among its bases over the
    number of its bases; nothing for a canonical or an unknown letter. *)
Definition degenerate_share (c b : string) : Q :=
  if negb (str_in c default_mono) then
    match dict_get c NA_IUPAC with
    | Some subs =>
        (Qnat (count_occ string_dec subs b) / Qnat (List.length subs))%Q
    | None => 0%Q
    end
  else 0%Q.

(** The mononucleotide entry in mathematical terms: the count of
    [betterCount] plus the shares of the degenerate letters, over the
    length of the sequence. *)
Definition mono_formula (seq b : string) : Q :=
  ((Qnat (betterCount seq b)
    + Qsum (map (fun c => degenerate_share c b) (chars seq)))
   / Qnat (String.length seq))%Q.

(** The share of oligo [w] in one window [u]: for a window that is not a
    canonical oligo, the number of times [w] is among the words of
    [makeCombinations] over their number. *)
Definition oligo_share (n : nat) (u w : string) : Q :=
  if negb (str_in u (combinations n default_mono None)) then
    (Qnat (count_occ string_dec (makeCombinations u None) w)
     / Qnat (List.length (makeCombinations u None)))%Q
  else 0%Q.

(** The oligonucleotide entry in mathematical terms: the count of
    [betterCount] plus the shares of the non-canonical windows, over the
    number of windows. *)
Definition oligo_formula (seq : string) (n : nat) (w : string) : Q :=
  ((Qnat (betterCount seq w)
    + Qsum (map (fun u => oligo_share n u w) (nucList seq n)))
   / inject_Z (Z.of_nat (String.length seq) - Z.of_nat n + 1))%Q.

(** What [makeCombinations] reads one letter as: the bases [NA_IUPAC] gives
    it, or the letter itself when the table does not have it. *)
Definition letter_bases (c : string) : list string :=
  match iupac_lookup c NA_IUPAC with
  | Some nucs => nucs
  | None => [c]
  end.




(** * Properties *)

(** ** The error monad and loops *)

Lemma bind_Ok {A B : Type} (m : result A) (k : A -> result B) (b : B) :
  bind m k = Ok b -> exists a, m = Ok a /\ k a = Ok b.
Proof.
  destruct m as [a|e]; simpl; intros H.
  - exists a. split; [reflexivity | exact H].
  - discriminate H.
Qed.

(** A loop whose body cannot raise while an invariant holds, and keeps the
    invariant, ends normally with the invariant. *)
Lemma for_each_total {A S : Type} (I : S -> Prop) (P : A -> Prop)
      (body : A -> S -> result S) (l : list A) :
  (forall a s, P a -> I s -> exists s', body a s = Ok s' /\ I s') ->
  Forall P l ->
  forall s, I s -> exists s', for_each l body s = Ok s' /\ I s'.
Proof.
  intros Hbody HP. induction HP as [|a l Ha Hl IH]; intros s Hs; simpl.
  - exists s. split; [reflexivity | assumption].
  - destruct (Hbody a s Ha Hs) as [s1 [E1 I1]].
    rewrite E1. simpl. apply IH. exact I1.
Qed.

(** ** [str.find] and [betterCount] *)

Local Arguments prefix : simpl never.

Lemma occurrences_from_0 (s w : string) :
  occurrences_from s w 0 = overlapping_count s w.
Proof. reflexivity. Qed.

Lemma occurrences_from_beyond (w : string) :
  forall s pos, String.length s < pos -> occurrences_from s w pos = 0.
Proof.
  induction s as [|c r IH]; intros pos H; destruct pos as [|n]; simpl in *;
    try lia; try reflexivity.
  apply IH. lia.
Qed.

Lemma str_find_None (w : string) :
  forall s pos, str_find s w pos = None -> occurrences_from s w pos = 0.
Proof.
  induction s as [|c r IH]; intros pos H; destruct pos as [|n]; simpl in *.
  - destruct (prefix w ""); [discriminate H | reflexivity].
  - reflexivity.
  - destruct (prefix w (String c r)); [discriminate H|].
    destruct (str_find r w 0) eqn:E; [discriminate H|].
    apply (IH 0 E).
  - destruct (str_find r w n) eqn:E; [discriminate H|].
    apply (IH n E).
Qed.

Lemma str_find_Some (w : string) :
  forall s pos p,
    str_find s w pos = Some p ->
    pos <= p /\ p <= String.length s
    /\ occurrences_from s w pos = S (occurrences_from s w (S p)).
Proof.
  induction s as [|c r IH]; intros pos p H; destruct pos as [|n]; simpl in *.
  - destruct (prefix w ""); [|discriminate H].
    inversion H; subst. auto.
  - discriminate H.
  - destruct (prefix w (String c r)).
    + inversion H; subst. repeat split; lia.
    + destruct (str_find r w 0) as [q|] eqn:E; [|discriminate H].
      inversion H; subst. destruct (IH 0 q E) as [_ [Hq Ho]].
      rewrite occurrences_from_0 in Ho.
      repeat split; simpl; lia.
  - destruct (str_find r w n) as [q|] eqn:E; [|discriminate H].
    inversion H; subst. destruct (IH n q E) as [Hn [Hq Ho]].
    repeat split; simpl; try lia.
Qed.

(** With enough fuel the loop adds to [ret_val] the occurrences at [pos] or
    later; the right-hand side does not mention [fuel], so the loop always
    leaves through [break]. *)
Lemma betterCount_loop_spec (s w : string) :
  forall fuel pos ret_val,
    1 <= pos ->
    String.length s + 2 <= fuel + pos ->
    betterCount_loop fuel s w pos ret_val
    = ret_val + occurrences_from s w pos.
Proof.
  induction fuel as [|f IH]; intros pos acc Hpos Hfuel; simpl.
  - rewrite occurrences_from_beyond by lia. lia.
  - destruct (Nat.eqb_spec pos 0) as [E|_]; [lia|].
    destruct (str_find s w pos) as [p|] eqn:E.
    + destruct (str_find_Some w s pos p E) as [H1 [H2 H3]].
      rewrite IH by lia. rewrite H3.
      replace (p + 1) with (S p) by lia. lia.
    + rewrite (str_find_None w s pos E). lia.
Qed.

(** [betterCount] never counts the occurrence that its first [find]
    locates. *)
Lemma betterCount_pred (s w : string) :
  betterCount s w = pred (overlapping_count s w).
Proof.
  unfold betterCount.
  destruct (str_find s w 0) as [p|] eqn:E.
  - destruct (str_find_Some w s 0 p E) as [_ [Hp Ho]].
    rewrite betterCount_loop_spec by lia.
    rewrite occurrences_from_0 in Ho. rewrite Ho.
    replace (p + 1) with (S p) by lia. reflexivity.
  - apply str_find_None in E. rewrite occurrences_from_0 in E.
    rewrite E. reflexivity.
Qed.

(** C1.  On the claim's own example the code answers 1 where the number of
    starting positions is 2; in general [betterCount] is one short whenever
    the word occurs at all. *)
Theorem C1_betterCount_one_short :
  betterCount "AAA" "AA" = 1
  /\ overlapping_count "AAA" "AA" = 2
  /\ forall s w, 0 < overlapping_count s w ->
                 betterCount s w + 1 = overlapping_count s w.
Proof.
  split; [reflexivity|]. split; [reflexivity|].
  intros s w H. rewrite betterCount_pred. lia.
Qed.

(** ** [frequence] *)

Lemma str_count_from_single (w : string) :
  String.length w = 1 ->
  forall s, str_count_from 0 s w = overlapping_count s w.
Proof.
  intros Hw. induction s as [|c r IH]; simpl.
  - reflexivity.
  - rewrite Hw. simpl. rewrite IH. destruct (prefix w (String c r)); reflexivity.
Qed.

(** For a single character [str.count] is the number of its positions. *)
Lemma str_count_single (s w : string) :
  String.length w = 1 -> str_count s w = overlapping_count s w.
Proof. intros Hw. apply str_count_from_single. exact Hw. Qed.

Lemma Qeq_bool_inject_Z_0 (z : Z) :
  Qeq_bool (inject_Z z) 0 = (z =? 0)%Z.
Proof.
  unfold Qeq_bool, inject_Z. simpl. rewrite Z.mul_1_r. reflexivity.
Qed.

Lemma py_div_inject_Z (a : Q) (z : Z) :
  py_div a (inject_Z z)
  = if (z =? 0)%Z then Raise ZeroDivisionError else Ok (a / inject_Z z)%Q.
Proof. unfold py_div. rewrite Qeq_bool_inject_Z_0. reflexivity. Qed.

Lemma py_div_nonzero (a : Q) (z : Z) :
  z <> 0%Z -> py_div a (inject_Z z) = Ok (a / inject_Z z)%Q.
Proof.
  intros H. rewrite py_div_inject_Z.
  destruct (Z.eqb_spec z 0); [contradiction | reflexivity].
Qed.

Lemma frequence_empty (nuc : string) (count : option nat) :
  frequence "" nuc count = Ok 0%Q.
Proof. reflexivity. Qed.

(** The single-character path: the true count over the length. *)
Lemma frequence_mono (s nuc : string) :
  s <> "" -> String.length nuc = 1 ->
  frequence s nuc None
  = Ok (Qnat (overlapping_count s nuc) / Qnat (String.length s))%Q.
Proof.
  intros Hs Hn. unfold frequence.
  destruct s as [|c r]; [contradiction|]. cbn [String.length Nat.eqb].
  rewrite Hn. cbn [Nat.eqb].
  rewrite str_count_single by exact Hn.
  unfold Qnat at 2. rewrite py_div_nonzero by lia. reflexivity.
Qed.

(** The k-mer path: the count of [betterCount], one short, over the number
    of windows. *)
Lemma frequence_oligo (s nuc : string) :
  s <> "" -> String.length nuc <> 1 ->
  String.length nuc <= String.length s ->
  frequence s nuc None
  = Ok (Qnat (pred (overlapping_count s nuc))
        / inject_Z (Z.of_nat (String.length s)
                    - Z.of_nat (String.length nuc) + 1))%Q.
Proof.
  intros Hs Hn Hle. unfold frequence.
  destruct s as [|c r]; [contradiction|].
  cbn [String.length Nat.eqb] in *.
  destruct (Nat.eqb_spec (String.length nuc) 1) as [E|_]; [contradiction|].
  rewrite betterCount_pred. rewrite py_div_nonzero by lia. reflexivity.
Qed.

(** [frequence] raises exactly when the word is one character longer than
    a non-empty sequence: the guard on the empty sequence does not cover
    this zero divisor. *)
Lemma frequence_raises_iff (s nuc : string) (count : option nat) :
  (exists e, frequence s nuc count = Raise e)
  <-> 0 < String.length s /\ String.length nuc = String.length s + 1.
Proof.
  unfold frequence.
  destruct (Nat.eqb_spec (String.length s) 0) as [E0|N0].
  - split; [intros [e H]; discriminate H | lia].
  - destruct (Nat.eqb_spec (String.length nuc) 1) as [E1|N1].
    + unfold Qnat at 2. rewrite py_div_nonzero by lia.
      split; [intros [e H]; discriminate H | lia].
    + rewrite py_div_inject_Z.
      destruct (Z.eqb_spec (Z.of_nat (String.length s)
                            - Z.of_nat (String.length nuc) + 1) 0) as [E|N].
      * split; [lia | intros _; eexists; reflexivity].
      * split; [intros [e H]; discriminate H | lia].
Qed.

(** C3.  On a two-letter word the code divides the short count of
    [betterCount]: [frequence("AAA", "AA")] is 1/2, not the 2/2 of the
    claim.  The single-character path and the empty sequence behave as the
    claim says. *)
Theorem C3_frequence_oligo_one_short :
  frequence "AAA" "AA" None = Ok (1 # 2)%Q
  /\ ~ ((1 # 2) == Qnat (overlapping_count "AAA" "AA") / Qnat (3 - 2 + 1))%Q
  /\ (forall s nuc, s <> "" -> String.length nuc = 1 ->
        frequence s nuc None
        = Ok (Qnat (overlapping_count s nuc) / Qnat (String.length s))%Q)
  /\ (forall nuc count, frequence "" nuc count = Ok 0%Q).
Proof.
  split; [reflexivity|]. split; [intros H; discriminate H|].
  split; [exact frequence_mono | exact frequence_empty].
Qed.

(** C4.  [frequence("A", "AC")] divides by [1 - 2 + 1 = 0] and raises; the
    error passes through [nucFrequencies("A", 2)] unmasked. *)
Theorem C4_frequence_raises_ZeroDivisionError :
  frequence "A" "AC" None = Raise ZeroDivisionError
  /\ nucFrequencies "A" 2 default_mono = Raise ZeroDivisionError.
Proof. split; reflexivity. Qed.

(** ** [nucFrequencies] on concrete sequences *)

(** C2.  At oligo length 2 the mononucleotide entries of "ACGT" are all
    0/4, because [betterCount] counts a base that occurs once as 0: they
    sum to 0, not 1. *)
Theorem C2_mono_entries_of_ACGT_sum_to_0 :
  exists d, nucFrequencies "ACGT" 2 default_mono = Ok d
            /\ (mono_total d == 0)%Q /\ ~ (mono_total d == 1)%Q.
Proof.
  eexists. split; [vm_compute; reflexivity|].
  split; [reflexivity | intros H; discriminate H].
Qed.

(** C5.  Twelve N at oligo length 2: each of A, C, G, T gets 12 times
    1/(12*4), that is 1/4. *)
Theorem C5_twelve_N_quarter_each :
  exists d, nucFrequencies "NNNNNNNNNNNN" 2 default_mono = Ok d
            /\ forall nuc, In nuc default_mono ->
                 exists v, dict_get nuc d = Some v /\ (v == 1 # 4)%Q.
Proof.
  eexists. split; [vm_compute; reflexivity|].
  intros nuc H. simpl in H.
  destruct H as [H|[H|[H|[H|[]]]]]; subst nuc; eexists;
    (split; [reflexivity | reflexivity]).
Qed.

(** ** [relativeNucFrequencies]: completion of the oligo grid *)

(** C6.  With four dinucleotide entries, [len(oligo_dict)] equals
    [nuc_len ** 2 = 4], the completion is skipped and the result has four
    entries instead of [4 ** 2 = 16]; with three entries the grid is
    completed. *)
Theorem C6_grid_of_four_not_completed :
  (exists out, relativeNucFrequencies four_dinucleotides 1 None = Ok out
               /\ dict_keys out = ["AA"; "AC"; "AG"; "AT"]
               /\ dict_get "CA" out = None)
  /\ (exists out, relativeNucFrequencies three_dinucleotides 1 None = Ok out
                  /\ List.length out = 4 ^ 2).
Proof.
  split; eexists; (split; [vm_compute; reflexivity|]).
  - split; reflexivity.
  - reflexivity.
Qed.

(** ** Dictionaries *)

Lemma dict_get_set_same {V : Type} (k : string) (v : V) (d : dict V) :
  dict_get k (dict_set k v d) = Some v.
Proof.
  induction d as [|[k' v'] d IH]; simpl.
  - rewrite String.eqb_refl. reflexivity.
  - destruct (String.eqb k k') eqn:E; simpl; rewrite E; [reflexivity | exact IH].
Qed.

Lemma dict_get_set_other {V : Type} (k k' : string) (v : V) (d : dict V) :
  k <> k' -> dict_get k (dict_set k' v d) = dict_get k d.
Proof.
  intros N. induction d as [|[k1 v1] d IH]; simpl.
  - destruct (String.eqb_spec k k'); [contradiction | reflexivity].
  - destruct (String.eqb_spec k' k1) as [E|E]; simpl.
    + subst k1. destruct (String.eqb_spec k k'); [contradiction | reflexivity].
    + destruct (String.eqb_spec k k1); [reflexivity | exact IH].
Qed.

Lemma dict_get_Some_In {V : Type} (k : string) (v : V) (d : dict V) :
  dict_get k d = Some v -> In k (dict_keys d).
Proof.
  induction d as [|[k' v'] d IH]; simpl; intros H.
  - discriminate H.
  - destruct (String.eqb_spec k k') as [E|E]; [left; auto | right; auto].
Qed.

Lemma dict_get_In_keys {V : Type} (k : string) (d : dict V) :
  In k (dict_keys d) -> exists v, dict_get k d = Some v.
Proof.
  induction d as [|[k' v'] d IH]; simpl; intros H.
  - contradiction.
  - destruct (String.eqb_spec k k') as [E|E].
    + eexists; reflexivity.
    + destruct H as [H|H]; [congruence | auto].
Qed.

Lemma dict_item_Ok {V : Type} (k : string) (d : dict V) (v : V) :
  dict_item k d = Ok v -> dict_get k d = Some v.
Proof.
  unfold dict_item. destruct (dict_get k d); intros H; inversion H; reflexivity.
Qed.

Lemma dict_get_default_Some {V : Type} (k : string) (d : dict V) (v v0 : V) :
  dict_get k d = Some v -> dict_get_default k v0 d = v.
Proof. unfold dict_get_default. intros ->. reflexivity. Qed.

Lemma dict_keys_filter {V : Type} (p : string -> bool) (d : dict V) :
  dict_keys (dict_filter p d) = filter p (dict_keys d).
Proof.
  induction d as [|[k v] d IH]; simpl; [reflexivity|].
  destruct (p k); simpl; rewrite IH; reflexivity.
Qed.

(** What a loop that stores [f x] at every key [x] leaves in the
    dictionary. *)
Lemma for_each_store {V : Type} (f : string -> result V) :
  forall keys d0 out,
    for_each keys (fun x d => v <- f x ;; Ok (dict_set x v d)) d0 = Ok out ->
    forall x,
      (In x keys -> exists v, f x = Ok v /\ dict_get x out = Some v)
      /\ (~ In x keys -> dict_get x out = dict_get x d0).
Proof.
  induction keys as [|a l IH]; simpl; intros d0 out H x.
  - inversion H; subst. split; [contradiction | reflexivity].
  - apply bind_Ok in H. destruct H as [d1 [H1 H2]].
    apply bind_Ok in H1. destruct H1 as [va [Ha Hd1]].
    inversion Hd1; subst d1. clear Hd1.
    destruct (IH _ _ H2 x) as [IHin IHout].
    destruct (in_dec string_dec x l) as [Hin|Hnin].
    + split; [intros _; auto | intros N; exfalso; apply N; right; exact Hin].
    + split.
      * intros [E|Hin]; [subst a | contradiction].
        exists va. split; [exact Ha|].
        rewrite (IHout Hnin). apply dict_get_set_same.
      * intros N. rewrite (IHout Hnin).
        apply dict_get_set_other. intros E. apply N. left. auto.
Qed.

Lemma dict_comp_In {V : Type} (keys : list string) (f : string -> result V)
      (out : dict V) :
  dict_comp keys f = Ok out ->
  forall x, In x keys -> exists v, f x = Ok v /\ dict_get x out = Some v.
Proof.
  intros H x Hx. exact (proj1 (for_each_store f keys [] out H x) Hx).
Qed.

Lemma dict_comp_get {V : Type} (keys : list string) (f : string -> result V)
      (out : dict V) :
  dict_comp keys f = Ok out ->
  forall x v, dict_get x out = Some v -> In x keys /\ f x = Ok v.
Proof.
  intros H x v Hv.
  destruct (for_each_store f keys [] out H x) as [Hin Hout].
  destruct (in_dec string_dec x keys) as [I|N].
  - destruct (Hin I) as [v' [Hf Hg]]. split; [exact I | congruence].
  - rewrite (Hout N) in Hv. discriminate Hv.
Qed.

Lemma dict_comp_total {V : Type} (keys : list string) (f : string -> result V) :
  (forall x, In x keys -> exists v, f x = Ok v) ->
  exists out, dict_comp keys f = Ok out.
Proof.
  intros H. unfold dict_comp.
  destruct (for_each_total (fun _ : dict V => True) (fun x => In x keys)
              (fun x d => v <- f x ;; Ok (dict_set x v d)) keys) with (s := @nil (string * V))
    as [out [E _]].
  - intros a s Ha _. destruct (H a Ha) as [v Hv].
    rewrite Hv. simpl. eexists; split; [reflexivity | exact I].
  - apply Forall_forall. auto.
  - exact I.
  - exists out. exact E.
Qed.

(** ** Strings as lists of characters *)

Lemma one_char (s : string) :
  String.length s = 1 -> exists c, s = String c "".
Proof.
  destruct s as [|c [|c' r]]; simpl; intros H; try discriminate H.
  exists c. reflexivity.
Qed.

Lemma chars_one_char (l : string) :
  Forall (fun y => String.length y = 1) (chars l).
Proof. induction l; simpl; constructor; auto. Qed.

Lemma chars_append (a b : string) : chars (a ++ b) = (chars a ++ chars b)%list.
Proof. induction a; simpl; [reflexivity | rewrite IHa; reflexivity]. Qed.

Lemma append_empty_r (a : string) : a ++ "" = a.
Proof. induction a; simpl; [reflexivity | rewrite IHa; reflexivity]. Qed.

Lemma concat_cons (a : string) (l : list string) :
  String.concat "" (a :: l) = a ++ String.concat "" l.
Proof.
  destruct l as [|b l]; simpl; [rewrite append_empty_r|]; reflexivity.
Qed.

Lemma chars_concat (l : list string) :
  Forall (fun y => String.length y = 1) l -> chars (String.concat "" l) = l.
Proof.
  induction 1 as [|a l Ha Hl IH]; [reflexivity|].
  rewrite concat_cons, chars_append, IH.
  destruct (one_char a Ha) as [c ->]. reflexivity.
Qed.

Lemma concat_chars (s : string) : String.concat "" (chars s) = s.
Proof.
  induction s as [|c r IH]; [reflexivity|].
  cbn [chars]. rewrite concat_cons, IH. reflexivity.
Qed.

(** ** Complement and reverse complement *)

Ltac eqb_cases :=
  repeat match goal with
         | |- context [String.eqb ?a ?b] =>
             is_var a; destruct (String.eqb_spec a b);
             [try contradiction; subst; simpl; try congruence | simpl]
         end.

Lemma complement_length (y : string) :
  String.length y = 1 -> String.length (complement y) = 1.
Proof.
  intros H. unfold complement, dict_get_default, transcription_dict. simpl.
  eqb_cases; auto.
Qed.

(** The transcription table is an involution except at U, which goes to A
    and A to T. *)
Lemma complement_involutive (y : string) :
  y <> "U" -> complement (complement y) = y.
Proof.
  intros H. unfold complement, dict_get_default, transcription_dict. simpl.
  eqb_cases; auto.
Qed.

Lemma reverseComplement_chars (x : string) :
  chars (reverseComplement x None) = rev (map complement (chars x)).
Proof.
  unfold reverseComplement. apply chars_concat.
  apply Forall_rev. apply Forall_forall. intros y Hy.
  apply in_map_iff in Hy. destruct Hy as [z [<- Hz]].
  apply complement_length.
  exact (proj1 (Forall_forall _ _) (chars_one_char x) z Hz).
Qed.

Lemma map_complement_involutive (l : list string) :
  ~ In "U" l -> map complement (map complement l) = l.
Proof.
  induction l as [|a l IH]; simpl; intros H; [reflexivity|].
  rewrite complement_involutive, IH; [reflexivity | tauto |].
  intros E. apply H. left. auto.
Qed.

Lemma reverseComplement_involutive (x : string) :
  ~ In "U" (chars x) ->
  reverseComplement (reverseComplement x None) None = x.
Proof.
  intros H. unfold reverseComplement at 1.
  change (fun s => dict_get_default s s transcription_dict) with complement.
  rewrite reverseComplement_chars, map_rev, rev_involutive.
  rewrite map_complement_involutive by exact H.
  apply concat_chars.
Qed.

(** ** Products of rationals *)

Lemma Qeq_bool_0_compat (a b : Q) :
  (a == b)%Q -> Qeq_bool a 0 = Qeq_bool b 0.
Proof.
  intros H.
  destruct (Qeq_bool a 0) eqn:Ea; destruct (Qeq_bool b 0) eqn:Eb; auto.
  - apply Qeq_bool_iff in Ea. apply Qeq_bool_neq in Eb.
    exfalso. apply Eb. rewrite <- H. exact Ea.
  - apply Qeq_bool_iff in Eb. apply Qeq_bool_neq in Ea.
    exfalso. apply Ea. rewrite H. exact Eb.
Qed.

Lemma fold_left_Qmult (rest : list Q) :
  forall a, (fold_left Qmult rest a == a * fold_right Qmult 1 rest)%Q.
Proof.
  induction rest as [|b r IH]; intros a; simpl.
  - ring.
  - rewrite IH. ring.
Qed.

Lemma product_fold_right (l : list Q) :
  (product l == fold_right Qmult 1 l)%Q.
Proof.
  destruct l as [|a r]; simpl; [reflexivity | apply fold_left_Qmult].
Qed.




Lemma mapM_pure {A B : Type} (f : A -> result B) (h : A -> B) :
  forall l bs,
    (forall a b, In a l -> f a = Ok b -> b = h a) ->
    mapM f l = Ok bs -> bs = map h l.
Proof.
  induction l as [|a l IH]; simpl; intros bs Hf H.
  - inversion H. reflexivity.
  - apply bind_Ok in H. destruct H as [b [Hb H]].
    apply bind_Ok in H. destruct H as [bs' [Hbs H]].
    inversion H; subst bs. f_equal.
    + apply Hf; auto.
    + apply IH; auto.
Qed.

(** ** [relativeNucFrequencies], strand mode 2 *)

Lemma py_div_Ok (a b v : Q) :
  py_div a b = Ok v -> Qeq_bool b 0 = false /\ v = (a / b)%Q.
Proof.
  unfold py_div. destruct (Qeq_bool b 0); intros H; inversion H; auto.
Qed.

Lemma zeroDivision_value (a b : Q) :
  zeroDivision a b = Ok (if Qeq_bool b 0 then 0 else a / b)%Q.
Proof.
  unfold zeroDivision, py_div. destruct (Qeq_bool b 0); reflexivity.
Qed.



Lemma try_ZeroDivisionError_Ok {A : Type} (body handler : result A) (a : A) :
  try_ZeroDivisionError body handler = Ok a ->
  body = Ok a \/ handler = Ok a.
Proof.
  unfold try_ZeroDivisionError. destruct body as [b|[]]; intros H; auto;
    discriminate H.
Qed.



(** ** [combinations] *)

Lemma length_append (a b : string) :
  String.length (a ++ b) = String.length a + String.length b.
Proof. induction a; simpl; [reflexivity | rewrite IHa; reflexivity]. Qed.

Lemma combinations_nil (n : nat) : combinations n [] (Some []) = [].
Proof. induction n; simpl; [reflexivity | exact IHn]. Qed.

Lemma extend_length (inlist outlist : list string) (k : nat) :
  Forall (fun x => String.length x = 1) inlist ->
  Forall (fun x => String.length x = k) outlist ->
  Forall (fun x => String.length x = k + 1)
         (flat_map (fun element => map (fun x => element ++ x) inlist) outlist).
Proof.
  intros Hin Hout. apply Forall_forall. intros s Hs.
  apply in_flat_map in Hs. destruct Hs as [e [He Hs]].
  apply in_map_iff in Hs. destruct Hs as [x [<- Hx]].
  rewrite length_append.
  rewrite (proj1 (Forall_forall _ _) Hout e He).
  rewrite (proj1 (Forall_forall _ _) Hin x Hx). reflexivity.
Qed.

Lemma combinations_Some_length (inlist : list string) :
  Forall (fun x => String.length x = 1) inlist ->
  forall n outlist k,
    outlist <> [] ->
    Forall (fun x => String.length x = k) outlist ->
    Forall (fun x => String.length x = k + n)
           (combinations n inlist (Some outlist)).
Proof.
  intros Hin. induction n as [|n IH]; intros outlist k Hne Hout.
  - simpl. rewrite Nat.add_0_r. exact Hout.
  - destruct outlist as [|o os]; [contradiction|].
    cbn [combinations].
    destruct inlist as [|i is_].
    + replace (flat_map _ (o :: os)) with (@nil string).
      * rewrite combinations_nil. constructor.
      * clear. induction (o :: os); simpl; auto.
    + replace (k + S n) with ((k + 1) + n) by lia.
      apply IH.
      * simpl. discriminate.
      * apply extend_length; assumption.
Qed.

(** Every word of [combinations(n, mono)] has [n] letters. *)
Lemma combinations_length (n : nat) (inlist : list string) :
  Forall (fun x => String.length x = 1) inlist ->
  Forall (fun x => String.length x = n) (combinations n inlist None).
Proof.
  intros Hin. destruct n as [|n]; [constructor|].
  cbn [combinations].
  destruct inlist as [|i is_].
  - rewrite combinations_nil. constructor.
  - change (S n) with (1 + n).
    apply combinations_Some_length; [exact Hin | discriminate | exact Hin].
Qed.

Lemma default_mono_one_char :
  Forall (fun x => String.length x = 1) default_mono.
Proof. repeat constructor. Qed.

(** ** [nucFrequencies] returns *)

Lemma frequence_returns (s nuc : string) (count : option nat) :
  String.length s = 0 \/ String.length nuc <> String.length s + 1 ->
  exists q, frequence s nuc count = Ok q.
Proof.
  intros H. destruct (frequence s nuc count) as [q|e] eqn:E.
  - exists q. reflexivity.
  - assert (Hr : exists e, frequence s nuc count = Raise e)
      by (exists e; exact E).
    apply frequence_raises_iff in Hr. lia.
Qed.

Lemma NA_IUPAC_nonempty (nuc : string) (subs : list string) :
  dict_get nuc NA_IUPAC = Some subs -> List.length subs <> 0.
Proof.
  unfold NA_IUPAC. simpl.
  repeat (destruct (String.eqb nuc _);
          [intros H; inversion H; simpl; discriminate|]).
  discriminate.
Qed.

Lemma chars_nonempty (s y : string) : In y (chars s) -> String.length s <> 0.
Proof. destruct s; simpl; [contradiction | discriminate]. Qed.

Lemma redistribute_mono_returns (sequence : string) (mono : list string) :
  forall d0, exists d, redistribute_mono sequence mono d0 = Ok d.
Proof.
  intros d0. unfold redistribute_mono.
  destruct (for_each_total (fun _ : dict Q => True)
              (fun y => In y (chars sequence))
              (fun nuc ret_dict =>
       if negb (str_in nuc mono) && dict_mem nuc NA_IUPAC then
         subs <- dict_item nuc NA_IUPAC ;;
         for_each subs
           (fun sub_nuc ret_dict =>
              a <- py_div 1 (Qnat (String.length sequence)) ;;
              b <- py_div a (Qnat (List.length subs)) ;;
              Ok (dict_set sub_nuc
                           (dict_get_default sub_nuc 0%Q ret_dict + b)%Q
                           ret_dict))
           ret_dict
       else Ok ret_dict) (chars sequence)) with (s := d0) as [d [E _]].
  - intros nuc d Hnuc _.
    destruct (negb (str_in nuc mono) && dict_mem nuc NA_IUPAC) eqn:C;
      [|exists d; auto].
    apply andb_prop in C. destruct C as [_ C].
    unfold dict_mem, dict_item in *.
    destruct (dict_get nuc NA_IUPAC) as [subs|] eqn:G; [|discriminate C].
    simpl.
    destruct (for_each_total (fun _ : dict Q => True) (fun _ : string => True)
                (fun sub_nuc ret_dict =>
              a <- py_div 1 (Qnat (String.length sequence)) ;;
              b <- py_div a (Qnat (List.length subs)) ;;
              Ok (dict_set sub_nuc
                           (dict_get_default sub_nuc 0%Q ret_dict + b)%Q
                           ret_dict)) subs) with (s := d) as [d' [E' _]].
    + intros sub r _ _. unfold Qnat.
      rewrite py_div_nonzero by (apply chars_nonempty in Hnuc; lia).
      simpl. rewrite py_div_nonzero
        by (apply NA_IUPAC_nonempty in G; lia).
      simpl. eexists; split; [reflexivity | exact I].
    + apply Forall_forall. auto.
    + exact I.
    + exists d'. auto.
  - apply Forall_forall. auto.
  - exact I.
  - exists d. exact E.
Qed.

Lemma nucList_nonempty (sequence : string) (length : nat) (w : string) :
  In w (nucList sequence length) -> length <= String.length sequence.
Proof.
  unfold nucList. intros H. apply in_map_iff in H.
  destruct H as [x [_ Hx]]. apply in_seq in Hx. lia.
Qed.

Lemma redistribute_oligo_returns (sequence : string) (length : nat)
      (desired_nucs : list string) :
  forall d0, exists d,
    redistribute_oligo sequence length desired_nucs d0 = Ok d.
Proof.
  intros d0. unfold redistribute_oligo.
  destruct (for_each_total (fun _ : dict Q => True)
              (fun w => In w (nucList sequence length))
              (fun nuc ret_dict =>
       if negb (str_in nuc desired_nucs) then
         let real_nucs := makeCombinations nuc None in
         for_each real_nucs
           (fun real_nuc ret_dict =>
              a <- py_div 1 (inject_Z (Z.of_nat (String.length sequence)
                                       - Z.of_nat length + 1)) ;;
              b <- py_div a (Qnat (List.length real_nucs)) ;;
              Ok (dict_set real_nuc
                           (dict_get_default real_nuc 0%Q ret_dict + b)%Q
                           ret_dict))
           ret_dict
       else Ok ret_dict) (nucList sequence length)) with (s := d0)
    as [d [E _]].
  - intros nuc d Hnuc _.
    destruct (negb (str_in nuc desired_nucs)); [|exists d; auto].
    cbv zeta.
    destruct (for_each_total (fun _ : dict Q => True)
                (fun r => In r (makeCombinations nuc None))
                (fun real_nuc ret_dict =>
              a <- py_div 1 (inject_Z (Z.of_nat (String.length sequence)
                                       - Z.of_nat length + 1)) ;;
              b <- py_div a (Qnat (List.length (makeCombinations nuc None))) ;;
              Ok (dict_set real_nuc
                           (dict_get_default real_nuc 0%Q ret_dict + b)%Q
                           ret_dict)) (makeCombinations nuc None))
      with (s := d) as [d' [E' _]].
    + intros r d1 Hr _. apply nucList_nonempty in Hnuc.
      rewrite py_div_nonzero by lia. simpl. unfold Qnat.
      rewrite py_div_nonzero
        by (destruct (makeCombinations nuc None);
            [contradiction | simpl; lia]).
      simpl. eexists; split; [reflexivity | exact I].
    + apply Forall_forall. auto.
    + exact I.
    + exists d'. auto.
  - apply Forall_forall. auto.
  - exact I.
  - exists d. exact E.
Qed.

(** [nucFrequencies] returns a table unless the oligo length is one more
    than the length of a non-empty sequence. *)
Lemma nucFrequencies_returns (sequence : string) (length : nat) :
  String.length sequence = 0 \/ length <> String.length sequence + 1 ->
  exists d, nucFrequencies sequence length default_mono = Ok d.
Proof.
  intros Hlen. unfold nucFrequencies. cbv zeta.
  match goal with
  | |- context [for_each default_mono ?body ?init] =>
      destruct (for_each_total (fun _ : dict Q * dict nat => True)
                  (fun x => String.length x = 1) body default_mono)
        with (s := init) as [st [E1 _]]
  end.
  - intros nuc st Hnuc _.
    destruct (frequence_returns sequence nuc
                (Some (betterCount sequence nuc))) as [q Hq]; [lia|].
    rewrite Hq. simpl. eexists; split; [reflexivity | exact I].
  - exact default_mono_one_char.
  - exact I.
  - rewrite E1. cbn [bind].
    match goal with
    | |- context [for_each (combinations length default_mono None) ?body ?init] =>
        destruct (for_each_total (fun _ : dict Q => True)
                    (fun x => String.length x = length) body
                    (combinations length default_mono None))
          with (s := init) as [d2 [E2 _]]
    end.
    + intros nuc d Hnuc _.
      destruct (frequence_returns sequence nuc None) as [q Hq]; [lia|].
      rewrite Hq. simpl. eexists; split; [reflexivity | exact I].
    + apply combinations_length. exact default_mono_one_char.
    + exact I.
    + rewrite E2. cbn [bind].
      destruct (negb _); [|eexists; reflexivity].
      destruct (redistribute_mono_returns sequence default_mono d2)
        as [d3 E3].
      rewrite E3. cbn [bind].
      destruct (negb _); [|eexists; reflexivity].
      apply redistribute_oligo_returns.
Qed.

(** ** [thirdOrderBias] *)

Lemma three_chars (s : string) :
  String.length s = 3 -> exists x y z, s = String x (String y (String z "")).
Proof.
  destruct s as [|x [|y [|z [|w r]]]]; simpl; intros H; try discriminate H.
  exists x, y, z. reflexivity.
Qed.

Lemma dict_filter_keys {V : Type} (p : string -> bool) (d : dict V) (k : string) :
  In k (dict_keys (dict_filter p d)) -> p k = true.
Proof.
  rewrite dict_keys_filter. intros H. apply filter_In in H. tauto.
Qed.

Lemma Qmax_epsilon_pos (a : Q) : (0 < Qmax a epsilon)%Q.
Proof.
  apply Qlt_le_trans with epsilon; [reflexivity | apply Q.le_max_r].
Qed.

Lemma py_div_Qmax_epsilon (a b : Q) :
  py_div a (Qmax b epsilon) = Ok (a / Qmax b epsilon)%Q.
Proof.
  unfold py_div.
  destruct (Qeq_bool (Qmax b epsilon) 0) eqn:E; [|reflexivity].
  apply Qeq_bool_iff in E. pose proof (Qmax_epsilon_pos b) as H.
  rewrite E in H. discriminate H.
Qed.



Lemma bias_tables_returns (seq : string) :
  2 < String.length seq ->
  exists nf2 nf3,
    nucFrequencies seq 2 default_mono = Ok nf2
    /\ nucFrequencies seq 3 default_mono = Ok nf3
    /\ bias_tables seq
       = Ok (dict_filter (fun k => (String.length k =? 1)%nat) nf2,
             dict_filter (fun k => (String.length k =? 2)%nat) nf2,
             dict_filter (fun k => (String.length k =? 3)%nat) nf3).
Proof.
  intros H.
  destruct (nucFrequencies_returns seq 2) as [nf2 E2]; [lia|].
  destruct (nucFrequencies_returns seq 3) as [nf3 E3]; [lia|].
  exists nf2, nf3. unfold bias_tables. rewrite E2, E3. auto.
Qed.

Lemma bias_value_returns (strand : Z) (mono : list string) (td : dict string)
      (m di tri : dict Q) (x y z : ascii) (fxyz : Q) :
  dict_get (String x (String y (String z ""))) tri = Some fxyz ->
  exists v,
    bias_value strand mono td m di tri (String x (String y (String z "")))
    = Ok v.
Proof.
  intros H. unfold bias_value, dict_item. rewrite H. cbn [bind].
  destruct (_ && _); [eexists; reflexivity|].
  cbn [str_index String.get bind].
  destruct (strand =? 1)%Z; rewrite py_div_Qmax_epsilon; eexists; reflexivity.
Qed.

(** [thirdOrderBias] returns, for every sequence of more than two letters
    and either strand mode, the table that stores [bias_value] at every
    key of the trinucleotide table. *)
Lemma thirdOrderBias_returns (seq : string) (strand : Z) :
  2 < String.length seq ->
  strand = 1%Z \/ strand = 2%Z ->
  exists m di tri ret,
    bias_tables seq = Ok (m, di, tri)
    /\ (forall k, In k (dict_keys tri) -> String.length k = 3)
    /\ thirdOrderBias seq strand default_mono None = Ok ret
    /\ dict_comp (dict_keys tri)
                 (bias_value strand default_mono transcription_dict m di tri)
       = Ok ret.
Proof.
  intros H Hs.
  destruct (bias_tables_returns seq H) as [nf2 [nf3 [_ [_ ET]]]].
  eexists. eexists. eexists.
  assert (Hk : forall k,
             In k (dict_keys (dict_filter
                                (fun k => (String.length k =? 3)%nat) nf3)) ->
             String.length k = 3).
  { intros k Hk. apply dict_filter_keys in Hk. apply Nat.eqb_eq. exact Hk. }
  destruct (dict_comp_total
              (dict_keys (dict_filter
                            (fun k => (String.length k =? 3)%nat) nf3))
              (bias_value strand default_mono transcription_dict
                 (dict_filter (fun k => (String.length k =? 1)%nat) nf2)
                 (dict_filter (fun k => (String.length k =? 2)%nat) nf2)
                 (dict_filter (fun k => (String.length k =? 3)%nat) nf3)))
    as [ret Eret].
  { intros k Hin. destruct (three_chars k (Hk k Hin)) as [x [y [z ->]]].
    destruct (dict_get_In_keys _ _ Hin) as [fxyz Hf].
    apply bias_value_returns with fxyz. exact Hf. }
  exists ret. split; [exact ET|]. split; [exact Hk|]. split; [|exact Eret].
  unfold thirdOrderBias.
  destruct (Nat.ltb_spec 2 (String.length seq)) as [_|N]; [|lia].
  cbn [negb].
  replace (negb ((strand =? 1)%Z || (strand =? 2)%Z)) with false
    by (destruct Hs as [-> | ->]; reflexivity).
  rewrite ET. cbn [bind fst snd]. exact Eret.
Qed.

(** The [assert len(seq) > 2] fails on every shorter sequence, whatever the
    other arguments. *)
Lemma thirdOrderBias_short (seq : string) (strand : Z) (mono : list string)
      (transcript_dict : option (dict string)) :
  String.length seq <= 2 ->
  thirdOrderBias seq strand mono transcript_dict = Raise AssertionError.
Proof.
  intros H. unfold thirdOrderBias.
  destruct (Nat.ltb_spec 2 (String.length seq)) as [N|_]; [lia | reflexivity].
Qed.


(** C9.  The bias calculator rejects every sequence of two letters or
    fewer through its [assert] and accepts every sequence of three, and
    the assembler fails in the same way on "AC" and on the empty sequence;
    but on the one-letter sequence "A" the assembler fails earlier, with
    the [ZeroDivisionError] of [frequence], not with the input check. *)
Theorem C9_assembler_length_1_ZeroDivisionError :
  seq_to_features "A" "dna" = Raise ZeroDivisionError
  /\ seq_to_features "AC" "dna" = Raise AssertionError
  /\ seq_to_features "" "dna" = Raise AssertionError
  /\ (forall seq strand mono transcript_dict,
        String.length seq <= 2 ->
        thirdOrderBias seq strand mono transcript_dict = Raise AssertionError)
  /\ (forall seq strand,
        String.length seq = 3 -> strand = 1%Z \/ strand = 2%Z ->
        exists ret, thirdOrderBias seq strand default_mono None = Ok ret).
Proof.
  split; [vm_compute; reflexivity|].
  split; [vm_compute; reflexivity|].
  split; [vm_compute; reflexivity|].
  split; [exact thirdOrderBias_short|].
  intros seq strand H Hs.
  assert (H2 : 2 < String.length seq) by lia.
  destruct (thirdOrderBias_returns seq strand H2 Hs)
    as [m [di [tri [ret [_ [_ [E _]]]]]]].
  exists ret. exact E.
Qed.

(** ** [detect_virus_host_type] *)

Lemma seq_to_features_acid (seq nuc_acid : string) (feats : list Q) :
  seq_to_features seq nuc_acid = Ok feats ->
  str_in nuc_acid ["dna"; "rna"] = true.
Proof.
  unfold seq_to_features. intros H.
  apply bind_Ok in H. destruct H as [code [H _]].
  apply dict_item_Ok in H. unfold ACID_TO_NUMBER in H. simpl in H.
  unfold str_in. simpl.
  destruct (String.eqb nuc_acid "dna"); [reflexivity|].
  destruct (String.eqb nuc_acid "rna"); [reflexivity | discriminate H].
Qed.

(** C10.  With the classifier package available and a recognised
    classifier name, if feature extraction returns [feats] and anything in
    the guarded block (loading the scaler, loading the classifier, either
    call of [classify]) raises, the result reports the extraction, has the
    feature count, and has neither host type nor probabilities nor
    error. *)
Theorem C10_partial_result_when_models_fail
        (load_joblib_safe : string -> result Artifact) (scaler_path : string)
        (classifier_paths : dict string) (feature_indices : dict (list nat))
        (exn_str : exn -> string)
        (sequence nucleic_acid classifier_type : string)
        (feats : list Q) (e : exn) :
  str_in (str_lower classifier_type) ["svc"; "knn"; "qda"; "lr"] = true ->
  seq_to_features sequence (str_lower nucleic_acid) = Ok feats ->
  load_and_classify load_joblib_safe scaler_path classifier_paths
                    feature_indices feats (str_lower classifier_type)
  = Raise e ->
  let r := detect_virus_host_type true load_joblib_safe scaler_path
                                  classifier_paths feature_indices exn_str
                                  sequence nucleic_acid classifier_type true in
  features_extracted r = true
  /\ feature_count r = List.length feats
  /\ host_type r = None
  /\ probabilities r = None
  /\ error r = None.
Proof.
  intros Hct Hfeat Hfail r. subst r. unfold detect_virus_host_type.
  cbn [negb]. cbv zeta.
  rewrite (seq_to_features_acid _ _ _ Hfeat), Hct. cbn [negb].
  rewrite Hfeat, Hfail. simpl. auto.
Qed.

Lemma C10_witness_import_error :
  exists feats,
    seq_to_features "ATGCATGCATGC" (str_lower "DNA") = Ok feats
    /\ let r := detect_virus_host_type true (fun _ => Raise ImportError)
                  "scaler.dump" [("svc", "svc.dump")] [("svc", [0; 1])]
                  (fun _ => "joblib is required") "ATGCATGCATGC" "DNA" "SVC"
                  true in
       features_extracted r = true
       /\ feature_count r = List.length feats
       /\ host_type r = None
       /\ probabilities r = None
       /\ error r = None.
Proof.
  eexists.
  assert (H : forall a b : Prop, (a /\ (a -> b)) -> a /\ b) by tauto.
  apply H. split; [vm_compute; reflexivity|].
  intros Hfeat.
  apply (C10_partial_result_when_models_fail
           (fun _ => Raise ImportError) "scaler.dump" [("svc", "svc.dump")]
           [("svc", [0; 1])] (fun _ => "joblib is required")
           "ATGCATGCATGC" "DNA" "SVC" _ ImportError).
  - reflexivity.
  - exact Hfeat.
  - reflexivity.
Defined.

(** * Further properties of the source *)

(** ** [combinations] and [itertools.product] *)

Lemma append_assoc (a b c : string) : (a ++ b) ++ c = a ++ (b ++ c).
Proof. induction a; simpl; [reflexivity | rewrite IHa; reflexivity]. Qed.

Lemma flat_map_map {A B C : Type} (f : B -> list C) (g : A -> B) (l : list A) :
  flat_map f (map g l) = flat_map (fun a => f (g a)) l.
Proof. induction l; simpl; [reflexivity | rewrite IHl; reflexivity]. Qed.

Lemma map_flat_map {A B C : Type} (f : B -> C) (g : A -> list B) (l : list A) :
  map f (flat_map g l) = flat_map (fun a => map f (g a)) l.
Proof.
  induction l; simpl; [reflexivity | rewrite map_app, IHl; reflexivity].
Qed.

Lemma flat_map_flat_map {A B C : Type} (f : B -> list C) (g : A -> list B)
      (l : list A) :
  flat_map f (flat_map g l) = flat_map (fun a => flat_map f (g a)) l.
Proof.
  induction l; simpl; [reflexivity | rewrite flat_map_app, IHl; reflexivity].
Qed.

Lemma product_repeat_1 (keys : list string) : product_repeat keys 1 = keys.
Proof.
  simpl. induction keys as [|k l IH]; simpl; [reflexivity|].
  rewrite append_empty_r, IH. reflexivity.
Qed.

(** Extending every word on the right by every letter, as [combinations]
    does, gives the next grid of [itertools.product], which extends on the
    left. *)
Lemma extend_product_repeat (keys : list string) (n : nat) :
  flat_map (fun element => map (fun x => element ++ x) keys)
           (product_repeat keys n)
  = product_repeat keys (S n).
Proof.
  induction n as [|n IH].
  - simpl. rewrite app_nil_r.
    induction keys as [|k l IHl]; simpl; [reflexivity|].
    rewrite append_empty_r. f_equal. exact IHl.
  - transitivity
      (flat_map
         (fun k => map (fun p => k ++ p)
                       (flat_map (fun element =>
                                    map (fun x => element ++ x) keys)
                                 (product_repeat keys n))) keys);
      [|rewrite IH; reflexivity].
    cbn [product_repeat].
    rewrite flat_map_flat_map. apply flat_map_ext. intros k.
    rewrite flat_map_map, map_flat_map. apply flat_map_ext. intros p.
    rewrite map_map. apply map_ext. intros x. apply append_assoc.
Qed.

Lemma product_repeat_nonempty (keys : list string) (n : nat) :
  keys <> [] -> product_repeat keys n <> [].
Proof.
  intros Hk. induction n as [|n IH]; simpl; [discriminate|].
  destruct keys as [|k l]; [contradiction|]. simpl.
  destruct (product_repeat (k :: l) n); [contradiction | discriminate].
Qed.

Lemma combinations_Some_product_repeat (keys : list string) :
  keys <> [] ->
  forall n k,
    combinations n keys (Some (product_repeat keys (S k)))
    = product_repeat keys (S k + n).
Proof.
  intros Hk. induction n as [|n IH]; intros k.
  - rewrite Nat.add_0_r. reflexivity.
  - cbn [combinations].
    destruct (product_repeat keys (S k)) as [|o os] eqn:E.
    + exfalso. exact (product_repeat_nonempty keys (S k) Hk E).
    + rewrite <- E, extend_product_repeat, IH.
      f_equal. lia.
Qed.

Lemma combinations_S (inlist : list string) (n : nat) :
  combinations (S n) inlist None = product_repeat inlist (S n).
Proof.
  cbn [combinations].
  destruct inlist as [|i l].
  - rewrite combinations_nil. reflexivity.
  - rewrite <- (product_repeat_1 (i :: l)) at 2.
    rewrite combinations_Some_product_repeat by discriminate.
    reflexivity.
Qed.

(** From length 1 on, [combinations(n, inlist)] is the list of the joined
    tuples of [itertools.product(inlist, repeat=n)], in the same order; at
    length 0 it is empty, where [itertools.product] has the empty word. *)
Theorem combinations_is_product_repeat (inlist : list string) (n : nat) :
  combinations (S n) inlist None = product_repeat inlist (S n)
  /\ combinations 0 inlist None = []
  /\ product_repeat inlist 0 = [""].
Proof.
  split; [apply combinations_S | split; reflexivity].
Qed.

Lemma product_repeat_In (keys : list string) :
  Forall (fun k => String.length k = 1) keys ->
  forall n s,
    In s (product_repeat keys n)
    <-> String.length s = n /\ Forall (fun c => In c keys) (chars s).
Proof.
  intros H1. induction n as [|n IH]; intros s.
  - simpl. split.
    + intros [<-|[]]. split; [reflexivity | constructor].
    + intros [Hl _]. destruct s; [left; reflexivity | discriminate Hl].
  - cbn [product_repeat]. rewrite in_flat_map. split.
    + intros [k [Hk Hs]]. apply in_map_iff in Hs. destruct Hs as [p [<- Hp]].
      apply IH in Hp. destruct Hp as [Hl Hc].
      destruct (one_char k (proj1 (Forall_forall _ _) H1 k Hk)) as [c Ec].
      subst k. simpl. split; [f_equal; exact Hl|].
      constructor; assumption.
    + intros [Hl Hc]. destruct s as [|c r]; [discriminate Hl|].
      simpl in Hc. inversion Hc as [|? ? Hc1 Hc2]; subst.
      exists (String c ""). split; [exact Hc1|].
      apply in_map_iff. exists r. split; [reflexivity|].
      apply IH. split; [simpl in Hl; lia | exact Hc2].
Qed.

(** [combinations] is exhaustive: over an alphabet of single letters, a
    word is listed exactly when it has [n] letters, all of the alphabet. *)
Theorem combinations_exhaustive (inlist : list string) (n : nat) (s : string) :
  Forall (fun k => String.length k = 1) inlist ->
  1 <= n ->
  (In s (combinations n inlist None)
   <-> String.length s = n /\ Forall (fun c => In c inlist) (chars s)).
Proof.
  intros H1 Hn. destruct n as [|n]; [lia|].
  rewrite combinations_S. apply product_repeat_In. exact H1.
Qed.

Lemma combinations_exhaustive_witness :
  1 <= 2
  /\ (In "GA" (combinations 2 default_mono None)
      <-> String.length "GA" = 2
          /\ Forall (fun c => In c default_mono) (chars "GA")).
Proof.
  split; [lia|].
  apply (combinations_exhaustive default_mono 2 "GA").
  - repeat constructor.
  - lia.
Defined.

Lemma flat_map_map_length {A B C : Type} (f : A -> B -> C) (P : list B)
      (l : list A) :
  List.length (flat_map (fun k => map (f k) P) l)
  = List.length l * List.length P.
Proof.
  induction l as [|a l IH]; [reflexivity|].
  cbn [flat_map List.length]. rewrite length_app, length_map, IH. lia.
Qed.

Lemma product_repeat_length (keys : list string) (n : nat) :
  List.length (product_repeat keys n) = List.length keys ^ n.
Proof.
  induction n as [|n IH]; [reflexivity|].
  cbn [product_repeat Nat.pow].
  rewrite (flat_map_map_length (fun k p => k ++ p)), IH. reflexivity.
Qed.

Lemma prepend_injective (k k' p p' : string) :
  String.length k = 1 -> String.length k' = 1 ->
  k ++ p = k' ++ p' -> k = k' /\ p = p'.
Proof.
  intros Hk Hk'. destruct (one_char k Hk) as [c ->].
  destruct (one_char k' Hk') as [c' ->]. simpl. intros E.
  inversion E. auto.
Qed.

Lemma product_repeat_NoDup (keys : list string) :
  Forall (fun k => String.length k = 1) keys ->
  NoDup keys ->
  forall n, NoDup (product_repeat keys n).
Proof.
  intros H1 Hnd. induction n as [|n IH].
  - simpl. constructor; [intros [] | constructor].
  - cbn [product_repeat].
    set (P := product_repeat keys n) in *. clearbody P.
    induction Hnd as [|k l Hk Hl IHl]; [constructor|].
    cbn [flat_map]. inversion H1 as [|? ? Hk1 Hl1]; subst.
    apply NoDup_app.
    + apply NoDup_map_NoDup_ForallPairs; [|exact IH].
      intros p p' _ _ E.
      exact (proj2 (prepend_injective k k p p' Hk1 Hk1 E)).
    + apply IHl. exact Hl1.
    + intros s Hs Hs'. apply in_map_iff in Hs. destruct Hs as [p [<- _]].
      apply in_flat_map in Hs'. destruct Hs' as [k' [Hk' Hs']].
      apply in_map_iff in Hs'. destruct Hs' as [p' [E _]].
      assert (Hk'1 : String.length k' = 1)
        by exact (proj1 (Forall_forall _ _) Hl1 k' Hk').
      destruct (prepend_injective k' k p' p Hk'1 Hk1 E) as [-> _].
      contradiction.
Qed.

(** [combinations] over [m] distinct single letters lists [m ** n] words
    without repetition. *)
Theorem combinations_count_NoDup (inlist : list string) (n : nat) :
  Forall (fun k => String.length k = 1) inlist ->
  NoDup inlist ->
  1 <= n ->
  List.length (combinations n inlist None) = List.length inlist ^ n
  /\ NoDup (combinations n inlist None).
Proof.
  intros H1 Hnd Hn. destruct n as [|n]; [lia|].
  rewrite combinations_S. split.
  - apply product_repeat_length.
  - apply product_repeat_NoDup; assumption.
Qed.

Lemma default_mono_NoDup : NoDup default_mono.
Proof.
  unfold default_mono.
  repeat (constructor;
          [simpl; intros H;
           repeat (destruct H as [H|H]; [discriminate H|]); exact H|]).
  constructor.
Qed.

Lemma combinations_default_NoDup (n : nat) :
  1 <= n -> NoDup (combinations n default_mono None).
Proof.
  intros Hn. destruct n as [|n]; [lia|].
  rewrite combinations_S.
  apply product_repeat_NoDup;
    [exact default_mono_one_char | exact default_mono_NoDup].
Qed.

Lemma combinations_count_NoDup_witness :
  Forall (fun k => String.length k = 1) default_mono
  /\ NoDup default_mono
  /\ 1 <= 3
  /\ List.length (combinations 3 default_mono None)
     = List.length default_mono ^ 3
  /\ NoDup (combinations 3 default_mono None).
Proof.
  split; [repeat constructor|].
  split; [exact default_mono_NoDup|].
  split; [lia|].
  apply (combinations_count_NoDup default_mono 3).
  - repeat constructor.
  - exact default_mono_NoDup.
  - lia.
Defined.

(** ** [nucList] *)

Lemma length_str_drop (x : nat) :
  forall s, String.length (str_drop x s) = String.length s - x.
Proof.
  induction x as [|x IH]; intros s; simpl; [lia|].
  destruct s as [|c r]; simpl; [reflexivity | apply IH].
Qed.

Lemma length_str_take (n : nat) :
  forall s, String.length (str_take n s) = Nat.min n (String.length s).
Proof.
  induction n as [|n IH]; intros s; simpl; [reflexivity|].
  destruct s as [|c r]; simpl; [reflexivity | rewrite IH; reflexivity].
Qed.

Lemma nucList_cons (c : ascii) (r : string) (n : nat) :
  n <= String.length (String c r) ->
  nucList (String c r) n = str_take n (String c r) :: nucList r n.
Proof.
  intros H. unfold nucList. cbn [String.length] in *.
  replace (S (String.length r) + 1 - n) with (S (String.length r + 1 - n))
    by lia.
  cbn [seq map str_drop]. f_equal.
  rewrite <- seq_shift, map_map. reflexivity.
Qed.

Lemma nucList_too_long (s : string) (n : nat) :
  String.length s < n -> nucList s n = [].
Proof.
  intros H. unfold nucList.
  replace (String.length s + 1 - n) with 0 by lia. reflexivity.
Qed.

Lemma prefix_cons (a b : ascii) (w r : string) :
  prefix (String a w) (String b r)
  = if ascii_dec a b then prefix w r else false.
Proof. reflexivity. Qed.

Lemma prefix_str_take (w : string) :
  forall s, prefix w s = true <-> str_take (String.length w) s = w
                                  /\ String.length w <= String.length s.
Proof.
  induction w as [|a w IH]; intros s.
  - split; [intros _; split; [reflexivity | simpl; lia]|].
    intros _. destruct s; reflexivity.
  - destruct s as [|b r].
    + split; [intros H; discriminate H | intros [_ H]; simpl in H; lia].
    + rewrite prefix_cons. cbn [String.length str_take].
      destruct (ascii_dec a b) as [->|N].
      * rewrite IH. split.
        -- intros [E L]. rewrite E. split; [reflexivity | lia].
        -- intros [E L]. inversion E as [E']. rewrite E'.
           split; [exact E' | lia].
      * split; [intros H; discriminate H|].
        intros [E _]. inversion E. congruence.
Qed.

Lemma overlapping_count_too_long (w : string) :
  forall s, String.length s < String.length w -> overlapping_count s w = 0.
Proof.
  induction s as [|c r IH]; intros H.
  - simpl. destruct w; [simpl in H; lia | reflexivity].
  - cbn [overlapping_count]. rewrite IH by (simpl in H; lia).
    destruct (prefix w (String c r)) eqn:E; [|reflexivity].
    apply prefix_str_take in E. lia.
Qed.

(** [nucList] lists the [len(sequence) - length + 1] windows (none when the
    sequence is shorter), each has [length] letters, and for a word of one
    letter or more the windows equal to it are as many as the starting
    positions at which it occurs. *)
Theorem nucList_windows (sequence : string) (length : nat) :
  List.length (nucList sequence length) = String.length sequence + 1 - length
  /\ (forall w, In w (nucList sequence length) -> String.length w = length)
  /\ (forall w, String.length w = length -> 1 <= length ->
        count_occ string_dec (nucList sequence length) w
        = overlapping_count sequence w).
Proof.
  split; [|split].
  - unfold nucList. rewrite length_map, length_seq. reflexivity.
  - intros w Hw. unfold nucList in Hw. apply in_map_iff in Hw.
    destruct Hw as [x [<- Hx]]. apply in_seq in Hx.
    rewrite length_str_take, length_str_drop. lia.
  - intros w Hw Hn. subst length.
    induction sequence as [|c r IH].
    + rewrite nucList_too_long by (simpl; lia).
      rewrite overlapping_count_too_long by (simpl; lia). reflexivity.
    + destruct (Nat.le_gt_cases (String.length w) (String.length (String c r)))
        as [Hle|Hgt].
      * rewrite nucList_cons by exact Hle.
        cbn [count_occ overlapping_count]. rewrite <- IH.
        destruct (prefix w (String c r)) eqn:E.
        -- apply prefix_str_take in E. destruct E as [E _].
           destruct (string_dec (str_take (String.length w) (String c r)) w);
             [reflexivity | contradiction].
        -- destruct (string_dec (str_take (String.length w) (String c r)) w)
             as [E'|_]; [|reflexivity].
           assert (prefix w (String c r) = true)
             by (apply prefix_str_take; split; assumption).
           congruence.
      * rewrite nucList_too_long by exact Hgt.
        rewrite overlapping_count_too_long by exact Hgt. reflexivity.
Qed.

(** ** [reverseComplement] *)

Lemma concat_app_empty (l1 l2 : list string) :
  String.concat "" (l1 ++ l2) = String.concat "" l1 ++ String.concat "" l2.
Proof.
  induction l1 as [|a l IH]; [reflexivity|].
  change ((a :: l) ++ l2)%list with (a :: (l ++ l2))%list.
  rewrite !concat_cons, IH, append_assoc. reflexivity.
Qed.

Lemma length_chars (s : string) : List.length (chars s) = String.length s.
Proof. induction s; simpl; [reflexivity | rewrite IHs; reflexivity]. Qed.

(** The reverse complement of a concatenation is the concatenation of the
    reverse complements in the opposite order, for any transcription
    dictionary; with the default one the length is kept. *)
Theorem reverseComplement_append (a b : string)
        (transcript_dict : option (dict string)) :
  reverseComplement (a ++ b) transcript_dict
  = reverseComplement b transcript_dict ++ reverseComplement a transcript_dict
  /\ String.length (reverseComplement a None) = String.length a.
Proof.
  split.
  - unfold reverseComplement.
    rewrite chars_append, map_app, rev_app_distr. apply concat_app_empty.
  - rewrite <- (length_chars (reverseComplement a None)).
    rewrite reverseComplement_chars, length_rev, length_map.
    apply length_chars.
Qed.

(** Taking the reverse complement twice gives the sequence back, provided
    it has no U: the table sends U to A and A to T. *)
Theorem reverseComplement_twice (x : string) :
  ~ In "U" (chars x) ->
  reverseComplement (reverseComplement x None) None = x.
Proof. exact (reverseComplement_involutive x). Qed.

Lemma reverseComplement_twice_witness :
  ~ In "U" (chars "ACGTRYKMN")
  /\ reverseComplement (reverseComplement "ACGTRYKMN" None) None = "ACGTRYKMN".
Proof.
  assert (H : ~ In "U" (chars "ACGTRYKMN")).
  { simpl. intros H.
    repeat (destruct H as [H|H]; [discriminate H|]). exact H. }
  split; [exact H|].
  exact (reverseComplement_twice "ACGTRYKMN" H).
Defined.

(** ** When [frequence] and [nucFrequencies] raise *)

Lemma frequence_Raise (s nuc : string) (count : option nat) (e : exn) :
  frequence s nuc count = Raise e -> e = ZeroDivisionError.
Proof.
  unfold frequence, py_div.
  repeat match goal with
         | |- context [if ?b then _ else _] => destruct b
         end; intros H; inversion H; reflexivity.
Qed.

(** Without a count, or with a count no larger than the sequence is long
    (a number of occurrences, as [nucFrequencies] passes it, which a float
    holds), [frequence] raises, and then a [ZeroDivisionError], exactly
    when the sequence is not empty and the word is one letter longer; in
    every other case it returns a number. *)
Theorem frequence_raises_exactly (s nuc : string) (count : option nat) :
  (forall c, count = Some c -> c <= String.length s) ->
  (frequence s nuc count = Raise ZeroDivisionError
   <-> 0 < String.length s /\ String.length nuc = String.length s + 1)
  /\ (forall e, frequence s nuc count = Raise e -> e = ZeroDivisionError).
Proof.
  intros _.
  split; [|intros e; apply frequence_Raise].
  split.
  - intros H. apply (frequence_raises_iff s nuc count).
    eexists. exact H.
  - intros H. apply (frequence_raises_iff s nuc count) in H.
    destruct H as [e He]. rewrite He. f_equal.
    exact (frequence_Raise _ _ _ _ He).
Qed.

Lemma frequence_raises_exactly_witness :
  (forall c, Some 1 = Some c -> c <= String.length "AA")
  /\ (frequence "AA" "AAA" (Some 1) = Raise ZeroDivisionError
      <-> 0 < String.length "AA"
          /\ String.length "AAA" = String.length "AA" + 1)
  /\ (forall e, frequence "AA" "AAA" (Some 1) = Raise e ->
                e = ZeroDivisionError).
Proof.
  assert (H : forall c, Some 1 = Some c -> c <= String.length "AA").
  { intros c E. inversion E. simpl. lia. }
  split; [exact H|].
  exact (frequence_raises_exactly "AA" "AAA" (Some 1) H).
Defined.

Lemma combinations_default_nonempty (n : nat) :
  exists first rest, combinations (S n) default_mono None = first :: rest.
Proof.
  rewrite combinations_S.
  destruct (product_repeat default_mono (S n)) as [|f r] eqn:E.
  - exfalso. apply (product_repeat_nonempty default_mono (S n)); 
      [discriminate | exact E].
  - exists f, r. reflexivity.
Qed.

Lemma nucFrequencies_raises (sequence : string) (length : nat) :
  0 < String.length sequence -> length = String.length sequence + 1 ->
  nucFrequencies sequence length default_mono = Raise ZeroDivisionError.
Proof.
  intros Hpos Hlen. unfold nucFrequencies. cbv zeta.
  match goal with
  | |- context [for_each default_mono ?body ?init] =>
      destruct (for_each_total (fun _ : dict Q * dict nat => True)
                  (fun x => String.length x = 1) body default_mono)
        with (s := init) as [st [E1 _]]
  end.
  - intros nuc st Hnuc _.
    destruct (frequence_returns sequence nuc
                (Some (betterCount sequence nuc))) as [q Hq]; [lia|].
    rewrite Hq. simpl. eexists; split; [reflexivity | exact I].
  - exact default_mono_one_char.
  - exact I.
  - rewrite E1. cbn [bind].
    assert (Hn : exists n, length = S n) by (exists (String.length sequence); lia).
    destruct Hn as [n Hn].
    destruct (combinations_default_nonempty n) as [first [rest Ec]].
    assert (Hfirst : String.length first = S n).
    { pose proof (combinations_length (S n) default_mono
                    default_mono_one_char) as HF.
      rewrite Ec in HF. inversion HF. assumption. }
    rewrite Hn, Ec. cbn [for_each].
    assert (Hr : exists e, frequence sequence first None = Raise e).
    { apply frequence_raises_iff. lia. }
    destruct Hr as [e He]. rewrite He.
    rewrite (frequence_Raise _ _ _ _ He). reflexivity.
Qed.

(** [nucFrequencies] raises a [ZeroDivisionError] when the sequence is not
    empty and the oligo length is one more than its length, and returns a
    table in every other case. *)
Theorem nucFrequencies_raises_exactly (sequence : string) (length : nat) :
  (0 < String.length sequence /\ length = String.length sequence + 1 ->
   nucFrequencies sequence length default_mono = Raise ZeroDivisionError)
  /\ (~ (0 < String.length sequence /\ length = String.length sequence + 1) ->
      exists d, nucFrequencies sequence length default_mono = Ok d).
Proof.
  split.
  - intros [Hpos Hlen]. exact (nucFrequencies_raises _ _ Hpos Hlen).
  - intros H. apply nucFrequencies_returns. lia.
Qed.

(** ** [relativeNucFrequencies]: exceptions and edge cases *)

Lemma for_each_Raise {A S : Type} (body : A -> S -> result S) (e : exn) :
  forall l s, for_each l body s = Raise e ->
              exists a s', In a l /\ body a s' = Raise e.
Proof.
  induction l as [|a l IH]; simpl; intros s H; [discriminate H|].
  destruct (body a s) as [s1|e1] eqn:E; simpl in H.
  - destruct (IH s1 H) as [a' [s' [Hin Hb]]].
    exists a', s'. split; [right; exact Hin | exact Hb].
  - inversion H; subst. exists a, s. split; [left; reflexivity | exact E].
Qed.

Lemma dict_comp_Raise {V : Type} (keys : list string) (f : string -> result V)
      (e : exn) :
  dict_comp keys f = Raise e -> exists x, In x keys /\ f x = Raise e.
Proof.
  intros H. apply for_each_Raise in H. destruct H as [x [d [Hin Hb]]].
  exists x. split; [exact Hin|].
  destruct (f x) as [v|e']; simpl in Hb;
    [discriminate Hb | inversion Hb; reflexivity].
Qed.

Lemma mapM_Raise {A B : Type} (g : A -> result B) (e : exn) :
  forall l, mapM g l = Raise e -> exists a, In a l /\ g a = Raise e.
Proof.
  induction l as [|a l IH]; simpl; intros H; [discriminate H|].
  destruct (g a) as [b|e1] eqn:E; simpl in H.
  - destruct (mapM g l) as [bs|e2]; simpl in H; [discriminate H|].
    destruct (IH H) as [a' [Hin Hg]]. exists a'. split; [right|]; assumption.
  - inversion H; subst. exists a. split; [left; reflexivity | exact E].
Qed.

Lemma mapM_Ok_In {A B : Type} (g : A -> result B) :
  forall l bs, mapM g l = Ok bs -> forall a, In a l -> exists b, g a = Ok b.
Proof.
  induction l as [|a l IH]; simpl; intros bs H x Hx; [contradiction|].
  apply bind_Ok in H. destruct H as [b [Hb H]].
  apply bind_Ok in H. destruct H as [bs' [Hbs _]].
  destruct Hx as [<-|Hx]; [exists b; exact Hb | exact (IH _ Hbs x Hx)].
Qed.

Lemma dict_item_Raise {V : Type} (k : string) (d : dict V) (e : exn) :
  dict_item k d = Raise e -> e = KeyError.
Proof.
  unfold dict_item. destruct (dict_get k d); intros H; inversion H; reflexivity.
Qed.

Lemma bind_Raise {A B : Type} (m : result A) (k : A -> result B) (e : exn) :
  bind m k = Raise e -> m = Raise e \/ exists a, m = Ok a /\ k a = Raise e.
Proof.
  destruct m as [a|e']; simpl; intros H.
  - right. exists a. auto.
  - left. inversion H. reflexivity.
Qed.

Lemma py_div_Raise (a b : Q) (e : exn) :
  py_div a b = Raise e -> e = ZeroDivisionError.
Proof.
  unfold py_div. destruct (Qeq_bool b 0); intros H; inversion H; reflexivity.
Qed.

Lemma relative_one_strand_Raise (safe : bool) (m o : dict Q) (x : string)
      (e : exn) :
  relative_one_strand safe m o x = Raise e ->
  e = KeyError \/ (safe = false /\ e = ZeroDivisionError).
Proof.
  unfold relative_one_strand. intros H.
  apply bind_Raise in H. destruct H as [H|[ox [_ H]]];
    [left; exact (dict_item_Raise _ _ _ H)|].
  apply bind_Raise in H. destruct H as [H|[terms [_ H]]].
  - apply mapM_Raise in H. destruct H as [y [_ H]].
    left. exact (dict_item_Raise _ _ _ H).
  - destruct safe.
    + rewrite zeroDivision_value in H. discriminate H.
    + right. split; [reflexivity | exact (py_div_Raise _ _ _ H)].
Qed.

Lemma relative_two_strands_Raise (safe : bool) (n : nat) (td : dict string)
      (m o : dict Q) (x : string) (e : exn) :
  relative_two_strands safe n td m o x = Raise e ->
  e = KeyError \/ (safe = false /\ e = ZeroDivisionError).
Proof.
  unfold relative_two_strands. intros H.
  apply bind_Raise in H. destruct H as [H|[ox [_ H]]];
    [left; exact (dict_item_Raise _ _ _ H)|].
  apply bind_Raise in H. destruct H as [H|[orc [_ H]]];
    [left; exact (dict_item_Raise _ _ _ H)|].
  apply bind_Raise in H. destruct H as [H|[terms [_ H]]].
  - apply mapM_Raise in H. destruct H as [y [_ H]]. left.
    apply bind_Raise in H. destruct H as [H|[my [_ H]]];
      [exact (dict_item_Raise _ _ _ H)|].
    apply bind_Raise in H. destruct H as [H|[ty [_ H]]];
      [exact (dict_item_Raise _ _ _ H)|].
    apply bind_Raise in H. destruct H as [H|[mty [_ H]]];
      [exact (dict_item_Raise _ _ _ H) | discriminate H].
  - destruct safe.
    + rewrite zeroDivision_value in H. discriminate H.
    + right. split; [reflexivity | exact (py_div_Raise _ _ _ H)].
Qed.

Lemma try_ZeroDivisionError_Raise {A : Type} (body handler : result A)
      (e : exn) :
  try_ZeroDivisionError body handler = Raise e ->
  (body = Raise e /\ e <> ZeroDivisionError) \/ handler = Raise e.
Proof.
  unfold try_ZeroDivisionError.
  destruct body as [b|[]]; intros H; auto;
    left; (split; [exact H | inversion H; discriminate]).
Qed.

(** What [relativeNucFrequencies] can raise in the model: the
    [AssertionError] of its [assert], when two oligo keys differ in length,
    and the [KeyError] of a missing key.  A [ZeroDivisionError] of the
    plain comprehension is caught and the zero-safe one does not divide by
    zero. *)
Lemma relativeNucFrequencies_Raise_cases (in_dict : dict Q) (strands : Z)
      (transcript_dict : option (dict string)) (e : exn) :
  relativeNucFrequencies in_dict strands transcript_dict = Raise e ->
  (e = AssertionError
   /\ exists first rest,
       dict_keys (dict_filter (fun x => (1 <? String.length x)%nat) in_dict)
       = first :: rest
       /\ forallb (fun k => (String.length first =? String.length k)%nat)
                  (first :: rest) = false)
  \/ e = KeyError.
Proof.
  unfold relativeNucFrequencies. cbv zeta.
  destruct (dict_keys (dict_filter _ in_dict)) as [|first_key rest];
    [discriminate|].
  destruct (forallb _ (first_key :: rest)) eqn:F; cbn [negb].
  2:{ intros H. inversion H. left. split; [reflexivity|].
      exists first_key, rest. split; [reflexivity | exact F]. }
  destruct (negb (strands - 1 =? 0)%Z); intros H;
    apply try_ZeroDivisionError_Raise in H;
    destruct H as [[H Hne]|H]; apply dict_comp_Raise in H;
    destruct H as [x [_ H]].
  - apply relative_two_strands_Raise in H. right. destruct H as [H|[_ H]];
      [exact H | contradiction].
  - apply relative_two_strands_Raise in H. right. destruct H as [H|[H _]];
      [exact H | discriminate H].
  - apply relative_one_strand_Raise in H. right. destruct H as [H|[_ H]];
      [exact H | contradiction].
  - apply relative_one_strand_Raise in H. right. destruct H as [H|[H _]];
      [exact H | discriminate H].
Qed.

Lemma filter_nil_iff {A : Type} (p : A -> bool) (l : list A) :
  (forall a, In a l -> p a = false) -> filter p l = [].
Proof.
  induction l as [|a l IH]; simpl; intros H; [reflexivity|].
  rewrite (H a) by (left; reflexivity). apply IH. intros b Hb. apply H.
  right. exact Hb.
Qed.

Lemma relativeNucFrequencies_mono_only (in_dict : dict Q) (strands : Z)
      (transcript_dict : option (dict string)) :
  (forall k, In k (dict_keys in_dict) -> String.length k <= 1) ->
  relativeNucFrequencies in_dict strands transcript_dict = Ok in_dict.
Proof.
  intros H. unfold relativeNucFrequencies. cbv zeta.
  rewrite dict_keys_filter, filter_nil_iff; [reflexivity|].
  intros k Hk. apply Nat.ltb_ge. exact (H k Hk).
Qed.

(** A table without oligo entries (every key has one letter or none) comes
    back unchanged in either strand mode; a table with oligo entries of two
    different lengths fails the [assert]. *)
Theorem relativeNucFrequencies_edge_cases (in_dict : dict Q) (strands : Z)
        (transcript_dict : option (dict string)) :
  ((forall k, In k (dict_keys in_dict) -> String.length k <= 1) ->
   relativeNucFrequencies in_dict strands transcript_dict = Ok in_dict)
  /\ (forall k1 k2,
        In k1 (dict_keys in_dict) -> In k2 (dict_keys in_dict) ->
        1 < String.length k1 -> 1 < String.length k2 ->
        String.length k1 <> String.length k2 ->
        relativeNucFrequencies in_dict strands transcript_dict
        = Raise AssertionError).
Proof.
  split; [apply relativeNucFrequencies_mono_only|].
  intros k1 k2 H1 H2 L1 L2 Hne. unfold relativeNucFrequencies. cbv zeta.
    destruct (dict_keys
                (dict_filter (fun x => (1 <? String.length x)%nat) in_dict))
      as [|first_key rest] eqn:K.
    + rewrite dict_keys_filter in K.
      assert (Hin : In k1 (filter (fun x => (1 <? String.length x)%nat)
                                  (dict_keys in_dict))).
      { apply filter_In. split; [exact H1 | apply Nat.ltb_lt; exact L1]. }
      rewrite K in Hin. contradiction.
    + destruct (forallb (fun k => (String.length first_key
                                   =? String.length k)%nat)
                        (first_key :: rest)) eqn:F; [|reflexivity].
      exfalso. rewrite forallb_forall in F.
      assert (Hk : forall k, In k (dict_keys in_dict) -> 1 < String.length k ->
                             String.length first_key = String.length k).
      { intros k Hk Lk. apply Nat.eqb_eq. apply F. rewrite <- K.
        rewrite dict_keys_filter. apply filter_In.
        split; [exact Hk | apply Nat.ltb_lt; exact Lk]. }
      pose proof (Hk k1 H1 L1). pose proof (Hk k2 H2 L2). lia.
Qed.

(** ** [relativeNucFrequencies], strand mode 1 *)

Lemma relative_one_strand_value (safe : bool) (m o : dict Q) (x : string)
      (v : Q) :
  relative_one_strand safe m o x = Ok v ->
  (v == strand1_relative_formula m o x)%Q.
Proof.
  unfold relative_one_strand. intros H.
  apply bind_Ok in H. destruct H as [ox [Hox H]].
  apply bind_Ok in H. destruct H as [terms [Hterms H]].
  apply dict_item_Ok in Hox.
  apply (mapM_pure _ (fun y => dict_get_default y 0%Q m)) in Hterms.
  2:{ intros y b _ Hb. apply dict_item_Ok in Hb.
      rewrite (dict_get_default_Some y m b 0%Q Hb). reflexivity. }
  unfold strand1_relative_formula.
  rewrite (dict_get_default_Some _ _ _ 0%Q Hox). rewrite <- Hterms.
  pose proof (product_fold_right terms) as HP.
  rewrite <- (Qeq_bool_0_compat _ _ HP).
  destruct safe.
  - rewrite zeroDivision_value in H. inversion H; subst v.
    destruct (Qeq_bool (product terms) 0); [reflexivity|].
    rewrite <- HP. reflexivity.
  - apply py_div_Ok in H. destruct H as [Hnz ->]. rewrite Hnz.
    rewrite <- HP. reflexivity.
Qed.

(** The table [relativeNucFrequencies] returns for a table with oligo
    entries: one entry per key of the completed oligo table, computed by
    [value]. *)
Lemma relativeNucFrequencies_comprehension (in_dict out : dict Q)
      (strands : Z) (x : string) :
  relativeNucFrequencies in_dict strands None = Ok out ->
  (exists k, In k (dict_keys in_dict) /\ 1 < String.length k) ->
  exists value : string -> result Q,
    dict_comp (dict_keys (completed_oligo in_dict)) value = Ok out
    /\ ((exists safe,
           value = relative_two_strands safe (oligo_length in_dict)
                     transcription_dict (completed_mono in_dict)
                     (completed_oligo in_dict))
        /\ strands <> 1%Z
        \/ (exists safe,
              value = relative_one_strand safe (completed_mono in_dict)
                        (completed_oligo in_dict))
           /\ strands = 1%Z).
Proof.
  intros Hrel [k [Hk Lk]].
  unfold relativeNucFrequencies in Hrel.
  unfold completed_oligo, completed_mono, oligo_length.
  cbv zeta in Hrel.
  destruct (dict_keys (dict_filter (fun x0 => (1 <? String.length x0)%nat)
                                   in_dict)) as [|first_key rest] eqn:K.
  - rewrite dict_keys_filter in K.
    assert (Hin : In k (filter (fun x0 => (1 <? String.length x0)%nat)
                               (dict_keys in_dict))).
    { apply filter_In. split; [exact Hk | apply Nat.ltb_lt; exact Lk]. }
    rewrite K in Hin. contradiction.
  - destruct (forallb _ (first_key :: rest)); [|discriminate Hrel].
    cbn [negb] in Hrel.
    destruct (Z.eqb_spec (strands - 1) 0) as [E|N]; cbn [negb] in Hrel;
      apply try_ZeroDivisionError_Ok in Hrel;
      destruct Hrel as [Hrel|Hrel]; eexists; (split; [exact Hrel|]).
    + right. split; [eexists; reflexivity | lia].
    + right. split; [eexists; reflexivity | lia].
    + left. split; [eexists; reflexivity | lia].
    + left. split; [eexists; reflexivity | lia].
Qed.

(** In strand mode 1 every entry of the returned table is, in exact
    arithmetic, the observed frequency of the oligo over the product of the
    mononucleotide frequencies of its letters, or 0 when that product is
    0. *)
Lemma one_strand_table_value (in_dict out : dict Q)
      (x : string) (v : Q) :
  relativeNucFrequencies in_dict 1 None = Ok out ->
  1 < String.length x ->
  dict_get x out = Some v ->
  (v == strand1_relative_formula (completed_mono in_dict)
                                 (completed_oligo in_dict) x)%Q.
Proof.
  intros Hrel Hlen Hx.
  assert (Hk : exists k, In k (dict_keys in_dict) /\ 1 < String.length k).
  { destruct (List.existsb (fun k => (1 <? String.length k)%nat)
                           (dict_keys in_dict)) eqn:E.
    - apply existsb_exists in E. destruct E as [k [Hk Lk]].
      exists k. split; [exact Hk | apply Nat.ltb_lt; exact Lk].
    - exfalso.
      assert (Hall : forall k, In k (dict_keys in_dict) ->
                               String.length k <= 1).
      { intros k Hk. destruct (Nat.ltb_spec 1 (String.length k)) as [L|L];
          [|lia].
        assert (existsb (fun k => (1 <? String.length k)%nat)
                        (dict_keys in_dict) = true).
        { apply existsb_exists. exists k. split; [exact Hk|].
          apply Nat.ltb_lt. exact L. }
        congruence. }
      pose proof (relativeNucFrequencies_mono_only in_dict 1 None Hall)
        as E'.
      rewrite E' in Hrel. inversion Hrel; subst out.
      apply dict_get_Some_In in Hx. specialize (Hall x Hx). lia. }
  destruct (relativeNucFrequencies_comprehension in_dict out 1 x Hrel Hk)
    as [value [Hcomp [[_ N]|[[safe ->] _]]]]; [contradiction|].
  destruct (dict_comp_get _ _ _ Hcomp x v Hx) as [_ Hv].
  exact (relative_one_strand_value _ _ _ _ _ Hv).
Qed.

(** ** Loops and dictionary keys *)

Lemma for_each_invariant {A S : Type} (I : S -> Prop)
      (body : A -> S -> result S) (l : list A) :
  (forall a s s', In a l -> I s -> body a s = Ok s' -> I s') ->
  forall s s', I s -> for_each l body s = Ok s' -> I s'.
Proof.
  induction l as [|a l IH]; simpl; intros Hb s s' Hs H.
  - inversion H; subst. exact Hs.
  - apply bind_Ok in H. destruct H as [s1 [H1 H2]].
    apply (IH (fun a0 t t' Hin => Hb a0 t t' (or_intror Hin)) s1 s');
      [|exact H2].
    exact (Hb a s s1 (or_introl eq_refl) Hs H1).
Qed.

Lemma str_in_In (x : string) (l : list string) :
  str_in x l = true <-> In x l.
Proof.
  unfold str_in. rewrite existsb_exists. split.
  - intros [y [Hy E]]. apply String.eqb_eq in E. subst. exact Hy.
  - intros H. exists x. split; [exact H | apply String.eqb_refl].
Qed.

Lemma str_in_false (x : string) (l : list string) :
  str_in x l = false <-> ~ In x l.
Proof.
  rewrite <- str_in_In. destruct (str_in x l); split; intros H;
    try discriminate; try reflexivity; try (exfalso; apply H; reflexivity).
Qed.

Lemma dict_mem_In {V : Type} (k : string) (d : dict V) :
  dict_mem k d = true <-> In k (dict_keys d).
Proof.
  unfold dict_mem. split.
  - destruct (dict_get k d) as [v|] eqn:E; [|discriminate].
    intros _. exact (dict_get_Some_In _ _ _ E).
  - intros H. destruct (dict_get_In_keys _ _ H) as [v ->]. reflexivity.
Qed.

Lemma dict_set_keys {V : Type} (k : string) (v : V) (d : dict V) :
  dict_keys (dict_set k v d) = keys_add (dict_keys d) k.
Proof.
  unfold keys_add, str_in.
  induction d as [|[k' v'] d IH]; simpl; [reflexivity|].
  destruct (String.eqb k k') eqn:E; simpl; [reflexivity|].
  rewrite IH. destruct (existsb (String.eqb k) (dict_keys d)); reflexivity.
Qed.

Lemma keys_add_present (ks : list string) (k : string) :
  In k ks -> keys_add ks k = ks.
Proof.
  intros H. unfold keys_add. apply str_in_In in H. rewrite H. reflexivity.
Qed.

Lemma keys_add_In (ks : list string) (k x : string) :
  In x (keys_add ks k) <-> In x ks \/ x = k.
Proof.
  unfold keys_add. destruct (str_in k ks) eqn:E.
  - apply str_in_In in E. split; [auto | intros [H | ->]; assumption].
  - rewrite in_app_iff. simpl. split; intros [H|H]; auto.
    + destruct H as [<-|[]]. auto.
Qed.

Lemma dict_set_keys_present {V : Type} (k : string) (v : V) (d : dict V) :
  In k (dict_keys d) -> dict_keys (dict_set k v d) = dict_keys d.
Proof. intros H. rewrite dict_set_keys. apply keys_add_present. exact H. Qed.

Lemma fold_keys_add_fresh (l : list string) :
  forall ks, NoDup l -> (forall x, In x l -> ~ In x ks) ->
             fold_left keys_add l ks = (ks ++ l)%list.
Proof.
  induction l as [|a l IH]; intros ks Hnd Hd; simpl.
  - rewrite app_nil_r. reflexivity.
  - inversion Hnd as [|? ? Ha Hl]; subst.
    unfold keys_add at 2.
    replace (str_in a ks) with false
      by (symmetry; apply str_in_false; apply Hd; left; reflexivity).
    rewrite IH.
    + rewrite <- app_assoc. reflexivity.
    + exact Hl.
    + intros x Hx Hin. apply in_app_iff in Hin. destruct Hin as [Hin|[<-|[]]].
      * exact (Hd x (or_intror Hx) Hin).
      * contradiction.
Qed.

(** The keys after a loop that stores one value per element. *)
Lemma for_each_store_keys {V : Type} (f : string -> result V) :
  forall keys d0 out,
    for_each keys (fun x d => v <- f x ;; Ok (dict_set x v d)) d0 = Ok out ->
    dict_keys out = fold_left keys_add keys (dict_keys d0).
Proof.
  induction keys as [|a l IH]; simpl; intros d0 out H.
  - inversion H. reflexivity.
  - apply bind_Ok in H. destruct H as [d1 [H1 H2]].
    apply bind_Ok in H1. destruct H1 as [va [_ Hd1]].
    inversion Hd1; subst d1. rewrite (IH _ _ H2), dict_set_keys. reflexivity.
Qed.

Lemma dict_comp_keys {V : Type} (keys : list string) (f : string -> result V)
      (out : dict V) :
  NoDup keys -> dict_comp keys f = Ok out -> dict_keys out = keys.
Proof.
  intros Hnd H. unfold dict_comp in H.
  rewrite (for_each_store_keys f keys [] out H).
  rewrite fold_keys_add_fresh; [reflexivity | exact Hnd | intros x _ []].
Qed.

Lemma nodupb_NoDup (l : list string) : nodupb l = true -> NoDup l.
Proof.
  induction l as [|a l IH]; simpl; intros H; [constructor|].
  apply andb_prop in H. destruct H as [H1 H2].
  constructor; [|exact (IH H2)].
  apply str_in_false. destruct (str_in a l); [discriminate H1 | reflexivity].
Qed.

(** ** The phases of [nucFrequencies] *)

Lemma mono_loop_result (seq : string) (st : dict Q * dict nat) :
  for_each default_mono
    (fun nuc (st : dict Q * dict nat) =>
       f <- frequence seq nuc (Some (betterCount seq nuc)) ;;
       Ok (dict_set nuc f (fst st),
           dict_set nuc (betterCount seq nuc) (snd st)))
    ([], dict_of_items (map (fun nuc => (nuc, 0)) default_mono)) = Ok st ->
  exists qa qc qg qt,
    frequence seq "A" (Some (betterCount seq "A")) = Ok qa
    /\ frequence seq "C" (Some (betterCount seq "C")) = Ok qc
    /\ frequence seq "G" (Some (betterCount seq "G")) = Ok qg
    /\ frequence seq "T" (Some (betterCount seq "T")) = Ok qt
    /\ fst st = [("A", qa); ("C", qc); ("G", qg); ("T", qt)].
Proof.
  unfold default_mono. cbn [for_each]. intros H.
  apply bind_Ok in H. destruct H as [s1 [H1 H]].
  apply bind_Ok in H1. destruct H1 as [qa [Hqa E1]].
  inversion E1; subst s1; clear E1.
  apply bind_Ok in H. destruct H as [s2 [H2 H]].
  apply bind_Ok in H2. destruct H2 as [qc [Hqc E2]].
  inversion E2; subst s2; clear E2.
  apply bind_Ok in H. destruct H as [s3 [H3 H]].
  apply bind_Ok in H3. destruct H3 as [qg [Hqg E3]].
  inversion E3; subst s3; clear E3.
  apply bind_Ok in H. destruct H as [s4 [H4 H]].
  apply bind_Ok in H4. destruct H4 as [qt [Hqt E4]].
  inversion E4; subst s4; clear E4.
  inversion H; subst st.
  exists qa, qc, qg, qt. repeat (split; [assumption|]). reflexivity.
Qed.

(** How a table returned by [nucFrequencies] is made: the four
    mononucleotide entries, then one entry per oligo, then, when the counts
    do not add up to the length, the two redistribution loops (the second
    unless the oligo length is 1). *)
Lemma nucFrequencies_phases (seq : string) (n : nat) (d : dict Q) :
  nucFrequencies seq n default_mono = Ok d ->
  exists qa qc qg qt d2,
    frequence seq "A" (Some (betterCount seq "A")) = Ok qa
    /\ frequence seq "C" (Some (betterCount seq "C")) = Ok qc
    /\ frequence seq "G" (Some (betterCount seq "G")) = Ok qg
    /\ frequence seq "T" (Some (betterCount seq "T")) = Ok qt
    /\ for_each (combinations n default_mono None)
                (fun x ret_dict =>
                   v <- frequence seq x None ;; Ok (dict_set x v ret_dict))
                [("A", qa); ("C", qc); ("G", qg); ("T", qt)] = Ok d2
    /\ (d = d2
        \/ exists d3,
            redistribute_mono seq default_mono d2 = Ok d3
            /\ ((n = 1 /\ d = d3)
                \/ (n <> 1
                    /\ redistribute_oligo seq n
                         (combinations n default_mono None) d3 = Ok d))).
Proof.
  unfold nucFrequencies. cbv zeta. intros H.
  apply bind_Ok in H. destruct H as [st [H1 H]].
  apply mono_loop_result in H1.
  destruct H1 as [qa [qc [qg [qt [Ha [Hc [Hg [Ht Est]]]]]]]].
  apply bind_Ok in H. destruct H as [d2 [H2 H]].
  rewrite Est in H2.
  exists qa, qc, qg, qt, d2. repeat (split; [assumption|]).
  destruct (negb (String.length seq =? nat_sum (dict_values (snd st)))%nat).
  - right. apply bind_Ok in H. destruct H as [d3 [H3 H]].
    exists d3. split; [exact H3|].
    destruct (Nat.eqb_spec n 1) as [E|N]; cbn [negb] in H.
    + left. inversion H. auto.
    + right. auto.
  - left. inversion H. reflexivity.
Qed.

Lemma Qnat_nonneg (n : nat) : (0 <= Qnat n)%Q.
Proof.
  unfold Qnat. change 0%Q with (inject_Z 0). rewrite <- Zle_Qle. lia.
Qed.

Lemma Qdiv_nonneg (a b : Q) : (0 <= a)%Q -> (0 <= b)%Q -> (0 <= a / b)%Q.
Proof.
  intros Ha Hb. unfold Qdiv. apply Qmult_le_0_compat; [exact Ha|].
  apply Qinv_le_0_compat. exact Hb.
Qed.

(** What the loop over the letters of the sequence may do to an invariant
    of the table: it only adds a non-negative amount to entries named by
    [NA_IUPAC]. *)
Lemma redistribute_mono_invariant (I : dict Q -> Prop) (seq : string)
      (mono : list string) :
  (forall d c subs sub v,
      I d -> In c (chars seq) -> dict_get c NA_IUPAC = Some subs ->
      In sub subs -> (0 <= v)%Q ->
      I (dict_set sub (dict_get_default sub 0 d + v)%Q d)) ->
  forall d d', I d -> redistribute_mono seq mono d = Ok d' -> I d'.
Proof.
  intros Hstep d d' Hd H. unfold redistribute_mono in H.
  revert d d' Hd H. apply for_each_invariant.
  intros c d d' Hc Hd H.
  destruct (negb (str_in c mono) && dict_mem c NA_IUPAC);
    [|inversion H; subst; exact Hd].
  apply bind_Ok in H. destruct H as [subs [Hsubs H]].
  apply dict_item_Ok in Hsubs.
  revert d d' Hd H. apply for_each_invariant.
  intros sub d d' Hsub Hd H.
  apply bind_Ok in H. destruct H as [a [Ha H]].
  apply bind_Ok in H. destruct H as [b [Hb H]].
  inversion H; subst d'.
  apply py_div_Ok in Ha. destruct Ha as [_ ->].
  apply py_div_Ok in Hb. destruct Hb as [_ ->].
  apply (Hstep d c subs sub); try assumption.
  apply Qdiv_nonneg; [|apply Qnat_nonneg].
  apply Qdiv_nonneg; [discriminate | apply Qnat_nonneg].
Qed.

Lemma redistribute_oligo_invariant (I : dict Q -> Prop) (seq : string)
      (n : nat) (desired : list string) :
  (forall d w real v,
      I d -> In w (nucList seq n) ->
      In real (makeCombinations w None) -> (0 <= v)%Q ->
      I (dict_set real (dict_get_default real 0 d + v)%Q d)) ->
  forall d d', I d -> redistribute_oligo seq n desired d = Ok d' -> I d'.
Proof.
  intros Hstep d d' Hd H. unfold redistribute_oligo in H.
  revert d d' Hd H. apply for_each_invariant.
  intros w d d' Hw Hd H.
  destruct (negb (str_in w desired)); [|inversion H; subst; exact Hd].
  cbv zeta in H.
  revert d d' Hd H. apply for_each_invariant.
  intros real d d' Hreal Hd H.
  apply bind_Ok in H. destruct H as [a [Ha H]].
  apply bind_Ok in H. destruct H as [b [Hb H]].
  inversion H; subst d'.
  apply py_div_Ok in Ha. destruct Ha as [_ ->].
  apply py_div_Ok in Hb. destruct Hb as [_ ->].
  apply (Hstep d w real); try assumption.
  apply Qdiv_nonneg; [|apply Qnat_nonneg].
  apply Qdiv_nonneg; [discriminate|].
  apply nucList_nonempty in Hw.
  change 0%Q with (inject_Z 0). rewrite <- Zle_Qle. lia.
Qed.

(** An invariant of the table that holds of the first two phases and that
    each redistribution step keeps holds of the result. *)
Lemma nucFrequencies_invariant (I : dict Q -> Prop) (seq : string) (n : nat) :
  (forall qa qc qg qt d2,
      frequence seq "A" (Some (betterCount seq "A")) = Ok qa ->
      frequence seq "C" (Some (betterCount seq "C")) = Ok qc ->
      frequence seq "G" (Some (betterCount seq "G")) = Ok qg ->
      frequence seq "T" (Some (betterCount seq "T")) = Ok qt ->
      for_each (combinations n default_mono None)
               (fun x ret_dict =>
                  v <- frequence seq x None ;; Ok (dict_set x v ret_dict))
               [("A", qa); ("C", qc); ("G", qg); ("T", qt)] = Ok d2 ->
      I d2) ->
  (forall d c subs sub v,
      I d -> In c (chars seq) -> dict_get c NA_IUPAC = Some subs ->
      In sub subs -> (0 <= v)%Q ->
      I (dict_set sub (dict_get_default sub 0 d + v)%Q d)) ->
  (forall d w real v,
      n <> 1 ->
      I d -> In w (nucList seq n) ->
      In real (makeCombinations w None) -> (0 <= v)%Q ->
      I (dict_set real (dict_get_default real 0 d + v)%Q d)) ->
  forall d, nucFrequencies seq n default_mono = Ok d -> I d.
Proof.
  intros H12 H3 H4 d H.
  apply nucFrequencies_phases in H.
  destruct H as [qa [qc [qg [qt [d2 [Ha [Hc [Hg [Ht [Hd2 H]]]]]]]]]].
  pose proof (H12 _ _ _ _ _ Ha Hc Hg Ht Hd2) as I2.
  destruct H as [->|[d3 [Hd3 H]]]; [exact I2|].
  pose proof (redistribute_mono_invariant I seq default_mono H3 _ _ I2 Hd3)
    as I3.
  destruct H as [[_ ->]|[Hn Hd]]; [exact I3|].
  exact (redistribute_oligo_invariant I seq n _ (fun d0 w r v => H4 d0 w r v Hn)
                                      _ _ I3 Hd).
Qed.

(** ** Frequencies are never negative *)

Lemma frequence_nonneg (s nuc : string) (count : option nat) (q : Q) :
  frequence s nuc count = Ok q ->
  count = None \/ String.length nuc = 1 ->
  (0 <= q)%Q.
Proof.
  unfold frequence. intros H Hc.
  destruct (String.length s =? 0)%nat; [inversion H; apply Qle_refl|].
  destruct (Nat.eqb_spec (String.length nuc) 1) as [E|N].
  - apply py_div_Ok in H. destruct H as [_ ->].
    apply Qdiv_nonneg; apply Qnat_nonneg.
  - destruct Hc as [->|Hc]; [|contradiction].
    apply py_div_Ok in H. destruct H as [_ ->].
    destruct (Z.le_gt_cases 0 (Z.of_nat (String.length s)
                               - Z.of_nat (String.length nuc) + 1)) as [P|P].
    + apply Qdiv_nonneg; [apply Qnat_nonneg|].
      change 0%Q with (inject_Z 0). rewrite <- Zle_Qle. exact P.
    + rewrite betterCount_pred, overlapping_count_too_long by lia.
      unfold Qdiv. change (Qnat (pred 0)) with 0%Q. rewrite Qmult_0_l.
      apply Qle_refl.
Qed.

Lemma nonnegative_set (k : string) (v : Q) (d : dict Q) :
  nonnegative d -> (0 <= v)%Q -> nonnegative (dict_set k v d).
Proof.
  intros Hd Hv k' v' H.
  destruct (string_dec k' k) as [->|N].
  - rewrite dict_get_set_same in H. inversion H; subst. exact Hv.
  - rewrite dict_get_set_other in H by exact N. exact (Hd k' v' H).
Qed.

Lemma nonnegative_add (k : string) (v : Q) (d : dict Q) :
  nonnegative d -> (0 <= v)%Q ->
  nonnegative (dict_set k (dict_get_default k 0 d + v)%Q d).
Proof.
  intros Hd Hv. apply nonnegative_set; [exact Hd|].
  assert (Hx : (0 <= dict_get_default k 0 d)%Q).
  { unfold dict_get_default. destruct (dict_get k d) as [x|] eqn:E;
      [exact (Hd k x E) | apply Qle_refl]. }
  exact (Qplus_le_compat 0 _ 0 _ Hx Hv).
Qed.

(** Every entry of a table returned by [nucFrequencies] is a non-negative
    number, whatever the sequence and the oligo length. *)
Theorem nucFrequencies_nonnegative (sequence : string) (length : nat)
        (d : dict Q) (k : string) (v : Q) :
  nucFrequencies sequence length default_mono = Ok d ->
  dict_get k d = Some v ->
  (0 <= v)%Q.
Proof.
  intros H. revert k v. change (nonnegative d).
  revert d H. apply nucFrequencies_invariant.
  - intros qa qc qg qt d2 Ha Hc Hg Ht H.
    revert H. apply for_each_invariant.
    + intros x d d' _ Hd Hx. apply bind_Ok in Hx.
      destruct Hx as [q [Hq E]]. inversion E; subst d'.
      apply nonnegative_set; [exact Hd|].
      apply (frequence_nonneg _ _ _ _ Hq). left. reflexivity.
    + intros k v Hk. simpl in Hk.
      repeat match type of Hk with
             | (if ?b then _ else _) = _ =>
                 destruct b;
                 [inversion Hk; subst;
                  eapply frequence_nonneg; [eassumption | right; reflexivity]|]
             end.
      discriminate Hk.
  - intros d c subs sub v Hd _ _ _ Hv. apply nonnegative_add; assumption.
  - intros d w real v _ Hd _ _ Hv. apply nonnegative_add; assumption.
Qed.

Lemma nucFrequencies_nonnegative_witness :
  exists d v,
    nucFrequencies "ANNRT" 2 default_mono = Ok d
    /\ dict_get "AG" d = Some v
    /\ (0 <= v)%Q.
Proof.
  eexists. eexists.
  assert (H : forall a b c : Prop, (a /\ b /\ (a -> b -> c)) -> a /\ b /\ c)
    by tauto.
  apply H. split; [vm_compute; reflexivity|].
  split; [vm_compute; reflexivity|].
  intros Hd Hv.
  exact (nucFrequencies_nonnegative "ANNRT" 2 _ "AG" _ Hd Hv).
Defined.

(** ** The keys of a frequency table *)

Lemma NA_IUPAC_values_canonical (c : string) (subs : list string) :
  dict_get c NA_IUPAC = Some subs -> Forall (fun x => In x default_mono) subs.
Proof.
  unfold NA_IUPAC. simpl.
  repeat (destruct (String.eqb c _);
          [intros H; inversion H; repeat constructor; simpl; tauto|]).
  discriminate.
Qed.

Lemma iupac_lookup_iupac (c : string) :
  In c (dict_keys NA_IUPAC) ->
  exists subs, iupac_lookup c NA_IUPAC = Some subs
               /\ subs <> []
               /\ Forall (fun x => In x default_mono) subs.
Proof.
  simpl. intros H.
  repeat (destruct H as [H|H];
          [subst c; eexists; split; [reflexivity|];
           split; [discriminate | repeat constructor; simpl; tauto]|]).
  contradiction.
Qed.

Lemma py_set_In (l : list string) (r : string) : In r (py_set l) -> In r l.
Proof.
  induction l as [|a l IH]; simpl; [auto|].
  intros [H|H]; [left; exact H|].
  apply filter_In in H. right. apply IH. tauto.
Qed.

Lemma chars_str_take (n : nat) :
  forall s c, In c (chars (str_take n s)) -> In c (chars s).
Proof.
  induction n as [|n IH]; intros s c; simpl; [contradiction|].
  destruct s as [|a r]; simpl; [auto|].
  intros [H|H]; [left; exact H | right; exact (IH r c H)].
Qed.

Lemma chars_str_drop (n : nat) :
  forall s c, In c (chars (str_drop n s)) -> In c (chars s).
Proof.
  induction n as [|n IH]; intros s c; simpl; [auto|].
  destruct s as [|a r]; simpl; [auto|].
  intros H. right. exact (IH r c H).
Qed.

Lemma nucList_letters (seq : string) (n : nat) (w c : string) :
  In w (nucList seq n) -> In c (chars w) -> In c (chars seq).
Proof.
  unfold nucList. intros Hw Hc. apply in_map_iff in Hw.
  destruct Hw as [x [<- _]].
  apply chars_str_take in Hc. exact (chars_str_drop _ _ _ Hc).
Qed.

(** While [makeCombinations] reads IUPAC letters, its list is empty before
    the first letter and afterwards a non-empty list of canonical words
    with as many letters as were read. *)
Lemma makeCombinations_fold (l : list string) :
  Forall (fun c => In c (dict_keys NA_IUPAC)) l ->
  forall acc k,
    (k = 0 /\ acc = []
     \/ 1 <= k /\ acc <> []
        /\ Forall (fun r => String.length r = k /\ canonical_sequence r) acc) ->
    let out :=
      fold_left
        (fun oligo_nuc_list nuc =>
           let nucs :=
             match iupac_lookup nuc NA_IUPAC with
             | Some nucs => nucs
             | None => [nuc]
             end in
           match oligo_nuc_list with
           | _ :: _ =>
               flat_map (fun element => map (fun x => element ++ x) nucs)
                        oligo_nuc_list
           | [] => nucs
           end) l acc in
    (k + List.length l = 0 /\ out = []
     \/ 1 <= k + List.length l /\ out <> []
        /\ Forall (fun r => String.length r = k + List.length l
                            /\ canonical_sequence r) out).
Proof.
  intros Hl. induction Hl as [|c l Hc Hl IH]; intros acc k Hinv; cbv zeta.
  - simpl. rewrite Nat.add_0_r. exact Hinv.
  - cbn [fold_left List.length].
    replace (k + S (List.length l)) with (S k + List.length l) by lia.
    apply IH. right. split; [lia|].
    destruct (iupac_lookup_iupac c Hc) as [subs [-> [Hne Hcan]]].
    assert (Hsub1 : forall x, In x subs ->
                              String.length x = 1 /\ canonical_sequence x).
    { intros x Hx. pose proof (proj1 (Forall_forall _ _) Hcan x Hx) as Hd.
      assert (L : String.length x = 1).
      { exact (proj1 (Forall_forall _ _) default_mono_one_char x Hd). }
      split; [exact L|]. destruct (one_char x L) as [a ->].
      unfold canonical_sequence. simpl. constructor; [exact Hd | constructor]. }
    destruct Hinv as [[-> ->]|[Hk [Hacc Hall]]].
    + split; [exact Hne|]. apply Forall_forall. intros x Hx.
      exact (Hsub1 x Hx).
    + destruct acc as [|a acc']; [contradiction|]. split.
      * destruct subs as [|s0 subs']; [contradiction|]. simpl. discriminate.
      * apply Forall_forall. intros r Hr.
        apply in_flat_map in Hr. destruct Hr as [e [He Hr]].
        apply in_map_iff in Hr. destruct Hr as [x [<- Hx]].
        destruct (proj1 (Forall_forall _ _) Hall e He) as [Le Ce].
        destruct (Hsub1 x Hx) as [Lx Cx].
        rewrite length_append. split; [lia|].
        unfold canonical_sequence in *. rewrite chars_append.
        apply Forall_app. split; assumption.
Qed.

(** [makeCombinations] resolves a word of IUPAC letters into canonical
    words of the same length. *)
Lemma makeCombinations_iupac (w r : string) :
  iupac_sequence w ->
  In r (makeCombinations w None) ->
  String.length r = String.length w /\ canonical_sequence r.
Proof.
  intros Hw Hr. unfold makeCombinations in Hr. apply py_set_In in Hr.
  pose proof (makeCombinations_fold (chars w) Hw [] 0
                                    (or_introl (conj eq_refl eq_refl))) as H.
  cbv zeta in H. destruct H as [[_ E]|[_ [_ H]]].
  - rewrite E in Hr. contradiction.
  - pose proof (proj1 (Forall_forall _ _) H r Hr) as [L C].
    rewrite length_chars in L. simpl in L. split; assumption.
Qed.

Lemma frequencies_phase_keys (seq : string) (n : nat) (qa qc qg qt : Q)
      (d2 : dict Q) :
  for_each (combinations n default_mono None)
           (fun x ret_dict =>
              v <- frequence seq x None ;; Ok (dict_set x v ret_dict))
           [("A", qa); ("C", qc); ("G", qg); ("T", qt)] = Ok d2 ->
  dict_keys d2
  = fold_left keys_add (combinations n default_mono None) default_mono.
Proof.
  intros H.
  exact (for_each_store_keys (fun x => frequence seq x None) _ _ _ H).
Qed.

Lemma fold_keys_add_In (l : list string) :
  forall ks x, In x (fold_left keys_add l ks) <-> In x ks \/ In x l.
Proof.
  induction l as [|a l IH]; intros ks x; simpl; [tauto|].
  rewrite IH, keys_add_In. intuition (subst; auto).
Qed.

Lemma canonical_keys_present (sequence : string) (length : nat)
      (d : dict Q) (k : string) :
  nucFrequencies sequence length default_mono = Ok d ->
  In k default_mono \/ In k (combinations length default_mono None) ->
  exists v, dict_get k d = Some v.
Proof.
  intros H Hk. apply dict_get_In_keys.
  revert d H. apply nucFrequencies_invariant.
  - intros qa qc qg qt d2 _ _ _ _ H.
    rewrite (frequencies_phase_keys _ _ _ _ _ _ _ H).
    apply fold_keys_add_In. exact Hk.
  - intros d c subs sub v Hd _ _ _ _.
    rewrite dict_set_keys. apply keys_add_In. left. exact Hd.
  - intros d w real v _ Hd _ _ _.
    rewrite dict_set_keys. apply keys_add_In. left. exact Hd.
Qed.

(** A table returned by [nucFrequencies] always has an entry for each of
    the four mononucleotides and for each of the [4 ** length] canonical
    oligonucleotides, whatever letters the sequence contains. *)
Theorem nucFrequencies_has_canonical_keys (sequence : string) (length : nat)
        (d : dict Q) (k : string) :
  nucFrequencies sequence length default_mono = Ok d ->
  In k default_mono \/ In k (combinations length default_mono None) ->
  exists v, dict_get k d = Some v.
Proof. exact (canonical_keys_present sequence length d k). Qed.

Lemma nucFrequencies_has_canonical_keys_witness :
  exists d,
    nucFrequencies "AXNUG" 2 default_mono = Ok d
    /\ (In "TT" default_mono \/ In "TT" (combinations 2 default_mono None))
    /\ exists v, dict_get "TT" d = Some v.
Proof.
  eexists.
  assert (H : forall a b c : Prop, (a /\ b /\ (a -> b -> c)) -> a /\ b /\ c)
    by tauto.
  apply H. split; [vm_compute; reflexivity|].
  split; [right; vm_compute; tauto|].
  intros Hd Hk.
  exact (nucFrequencies_has_canonical_keys "AXNUG" 2 _ "TT" Hd Hk).
Defined.

Lemma iupac_table_keys (sequence : string) (length : nat) (d : dict Q) :
  iupac_sequence sequence ->
  2 <= length ->
  nucFrequencies sequence length default_mono = Ok d ->
  dict_keys d = (default_mono ++ combinations length default_mono None)%list.
Proof.
  intros Hseq Hn H. revert d H. apply nucFrequencies_invariant.
  - intros qa qc qg qt d2 _ _ _ _ H.
    rewrite (frequencies_phase_keys _ _ _ _ _ _ _ H).
    apply fold_keys_add_fresh.
    + apply (combinations_default_NoDup length); lia.
    + intros x Hx Hin.
      pose proof (proj1 (Forall_forall _ _)
                        (combinations_length length default_mono
                                             default_mono_one_char) x Hx) as L.
      pose proof (proj1 (Forall_forall _ _) default_mono_one_char x Hin) as L1.
      cbv beta in L, L1. lia.
  - intros d c subs sub v Hd _ Hsubs Hsub _.
    rewrite dict_set_keys_present; [exact Hd|].
    rewrite Hd. apply in_app_iff. left.
    exact (proj1 (Forall_forall _ _) (NA_IUPAC_values_canonical _ _ Hsubs)
                 sub Hsub).
  - intros d w real v _ Hd Hw Hreal _.
    rewrite dict_set_keys_present; [exact Hd|].
    rewrite Hd. apply in_app_iff. right.
    assert (Hwi : iupac_sequence w).
    { apply Forall_forall. intros c Hc.
      exact (proj1 (Forall_forall _ _) Hseq c (nucList_letters _ _ _ _ Hw Hc)). }
    destruct (makeCombinations_iupac w real Hwi Hreal) as [L C].
    destruct length as [|m]; [lia|].
    rewrite combinations_S.
    apply (product_repeat_In default_mono default_mono_one_char).
    split; [|exact C].
    rewrite L.
    unfold nucList in Hw. apply in_map_iff in Hw.
    destruct Hw as [x [<- Hx]]. apply in_seq in Hx.
    rewrite length_str_take, length_str_drop. lia.
Qed.

(** For a sequence of IUPAC letters and an oligo length of 2 or more, the
    keys of the table are exactly the four mononucleotides followed by the
    canonical oligonucleotides, in that order: resolving degenerate letters
    never adds a key. *)
Theorem nucFrequencies_keys_iupac (sequence : string) (length : nat)
        (d : dict Q) :
  iupac_sequence sequence ->
  2 <= length ->
  nucFrequencies sequence length default_mono = Ok d ->
  dict_keys d = (default_mono ++ combinations length default_mono None)%list.
Proof. exact (iupac_table_keys sequence length d). Qed.

Lemma nucFrequencies_keys_iupac_witness :
  exists d,
    iupac_sequence "ANNRT"
    /\ 2 <= 2
    /\ nucFrequencies "ANNRT" 2 default_mono = Ok d
    /\ dict_keys d = (default_mono ++ combinations 2 default_mono None)%list.
Proof.
  eexists.
  assert (Hs : iupac_sequence "ANNRT").
  { unfold iupac_sequence. simpl. repeat constructor; tauto. }
  assert (H : forall a b c e : Prop,
             (a /\ b /\ c /\ (a -> b -> c -> e)) -> a /\ b /\ c /\ e)
    by tauto.
  apply H. split; [exact Hs|]. split; [lia|].
  split; [vm_compute; reflexivity|].
  intros Ha Hb Hd.
  exact (nucFrequencies_keys_iupac "ANNRT" 2 _ Ha Hb Hd).
Defined.

(** ** Mononucleotide frequencies at oligo length 1 *)

Lemma prefix_empty (s : string) : prefix "" s = true.
Proof. destruct s; reflexivity. Qed.

Lemma overlapping_count_letter (a c : ascii) (r : string) :
  overlapping_count (String c r) (String a "")
  = (if ascii_dec a c then 1 else 0) + overlapping_count r (String a "").
Proof.
  cbn [overlapping_count]. rewrite prefix_cons, prefix_empty.
  destruct (ascii_dec a c); reflexivity.
Qed.

Lemma overlapping_count_letter_empty (a : ascii) :
  overlapping_count "" (String a "") = 0.
Proof. reflexivity. Qed.

(** In a sequence of canonical bases the occurrences of A, C, G and T add
    up to the length. *)
Lemma canonical_counts (s : string) :
  canonical_sequence s ->
  overlapping_count s "A" + overlapping_count s "C"
  + overlapping_count s "G" + overlapping_count s "T" = String.length s.
Proof.
  unfold canonical_sequence. induction s as [|c r IH]; intros H.
  - reflexivity.
  - simpl in H. inversion H as [|? ? Hc Hr]; subst.
    specialize (IH Hr). rewrite !overlapping_count_letter.
    cbn [String.length]. simpl in Hc.
    destruct Hc as [E|[E|[E|[E|[]]]]]; inversion E; subst c; simpl; lia.
Qed.

Lemma redistribute_mono_canonical (seq : string) (d : dict Q) :
  canonical_sequence seq -> redistribute_mono seq default_mono d = Ok d.
Proof.
  intros Hs. unfold redistribute_mono.
  destruct (for_each (chars seq) _ d) as [d'|e] eqn:E.
  - f_equal. symmetry. revert E.
    apply (for_each_invariant (fun x => d = x)); [|reflexivity].
    intros c s s' Hc <- H.
    replace (str_in c default_mono) with true in H
      by (symmetry; apply str_in_In;
          exact (proj1 (Forall_forall _ _) Hs c Hc)).
    cbn [negb andb] in H. inversion H. reflexivity.
  - exfalso. apply for_each_Raise in E. destruct E as [c [s' [Hc H]]].
    replace (str_in c default_mono) with true in H
      by (symmetry; apply str_in_In;
          exact (proj1 (Forall_forall _ _) Hs c Hc)).
    discriminate H.
Qed.

Lemma Qnat_plus (a b : nat) : (Qnat (a + b) == Qnat a + Qnat b)%Q.
Proof.
  unfold Qnat. rewrite Nat2Z.inj_add, inject_Z_plus. reflexivity.
Qed.

(** At oligo length 1 the table of a non-empty sequence of canonical bases
    holds, for each base, its number of occurrences over the length of the
    sequence, and the four entries add up to 1. *)
Theorem nucFrequencies_length_1_canonical (sequence : string) :
  canonical_sequence sequence ->
  sequence <> "" ->
  exists d,
    nucFrequencies sequence 1 default_mono = Ok d
    /\ (forall b, In b default_mono ->
          dict_get b d
          = Some (Qnat (overlapping_count sequence b)
                  / Qnat (String.length sequence))%Q)
    /\ (mono_total d == 1)%Q.
Proof.
  intros Hs Hne.
  assert (Hlen : String.length sequence <> 0)
    by (destruct sequence; [contradiction | discriminate]).
  destruct (nucFrequencies_returns sequence 1) as [d Hd]; [lia|].
  exists d. split; [exact Hd|].
  apply nucFrequencies_phases in Hd.
  destruct Hd as [qa [qc [qg [qt [d2 [_ [_ [_ [_ [Hd2 H]]]]]]]]]].
  assert (E2 : d2 = [("A", Qnat (overlapping_count sequence "A")
                           / Qnat (String.length sequence));
                     ("C", Qnat (overlapping_count sequence "C")
                           / Qnat (String.length sequence));
                     ("G", Qnat (overlapping_count sequence "G")
                           / Qnat (String.length sequence));
                     ("T", Qnat (overlapping_count sequence "T")
                           / Qnat (String.length sequence))]%Q).
  { change (combinations 1 default_mono None) with default_mono in Hd2.
    unfold default_mono in Hd2. cbn [for_each] in Hd2.
    rewrite !frequence_mono in Hd2 by (auto; reflexivity).
    cbn in Hd2. inversion Hd2. reflexivity. }
  assert (Ed : d = d2).
  { destruct H as [->|[d3 [Hd3 H]]]; [reflexivity|].
    rewrite redistribute_mono_canonical in Hd3 by exact Hs.
    inversion Hd3; subst d3.
    destruct H as [[_ ->]|[N _]]; [reflexivity | contradiction]. }
  rewrite Ed, E2. split.
  - intros b Hb. simpl in Hb.
    destruct Hb as [<-|[<-|[<-|[<-|[]]]]]; reflexivity.
  - unfold mono_total, py_sum, default_mono.
    cbn [map fold_left dict_get_default dict_get String.eqb Ascii.eqb
         Bool.eqb].
    unfold Qdiv. rewrite Qplus_0_l, <- !Qmult_plus_distr_l, <- !Qnat_plus.
    rewrite (canonical_counts sequence Hs).
    apply Qmult_inv_r. unfold Qnat. intros E.
    unfold Qeq in E. simpl in E. lia.
Qed.

Lemma nucFrequencies_length_1_canonical_witness :
  canonical_sequence "ACGT"
  /\ "ACGT" <> ""
  /\ exists d,
      nucFrequencies "ACGT" 1 default_mono = Ok d
      /\ (forall b, In b default_mono ->
            dict_get b d
            = Some (Qnat (overlapping_count "ACGT" b)
                    / Qnat (String.length "ACGT"))%Q)
      /\ (mono_total d == 1)%Q.
Proof.
  assert (Hs : canonical_sequence "ACGT").
  { unfold canonical_sequence. simpl. repeat constructor; tauto. }
  assert (Hn : "ACGT" <> "") by discriminate.
  split; [exact Hs|]. split; [exact Hn|].
  exact (nucFrequencies_length_1_canonical "ACGT" Hs Hn).
Defined.

(** ** The feature vector *)

Lemma dict_canonical_form {V : Type} (v0 : V) (d : dict V) :
  NoDup (dict_keys d) ->
  d = map (fun k => (k, dict_get_default k v0 d)) (dict_keys d).
Proof.
  induction d as [|[k v] d IH]; simpl; intros H; [reflexivity|].
  inversion H as [|? ? Hk Hd]; subst.
  unfold dict_get_default at 1. simpl. rewrite String.eqb_refl. f_equal.
  rewrite (IH Hd) at 1.
  apply map_ext_in. intros k' Hk'. f_equal.
  unfold dict_get_default. simpl.
  destruct (String.eqb_spec k' k); [subst; contradiction | reflexivity].
Qed.

Lemma mapM_total {A B : Type} (f : A -> result B) :
  forall l, (forall a, In a l -> exists b, f a = Ok b) ->
            exists bs, mapM f l = Ok bs.
Proof.
  induction l as [|a l IH]; simpl; intros H; [eexists; reflexivity|].
  destruct (H a (or_introl eq_refl)) as [b ->].
  destruct (IH (fun x Hx => H x (or_intror Hx))) as [bs ->].
  eexists; reflexivity.
Qed.

Lemma filter_all {A : Type} (p : A -> bool) (l : list A) :
  (forall a, In a l -> p a = true) -> filter p l = l.
Proof.
  induction l as [|a l IH]; simpl; intros H; [reflexivity|].
  rewrite (H a) by (left; reflexivity). f_equal. apply IH. intros b Hb.
  apply H. right. exact Hb.
Qed.

Lemma dict_length_keys {V : Type} (d : dict V) :
  List.length d = List.length (dict_keys d).
Proof. unfold dict_keys. rewrite length_map. reflexivity. Qed.

(** The expression [relativeNucFrequencies] evaluates in strand mode 1
    once its [assert] has passed. *)
Lemma relativeNucFrequencies_one_strand (d : dict Q) (first : string)
      (rest : list string) :
  dict_keys (dict_filter (fun x => (1 <? String.length x)%nat) d)
  = first :: rest ->
  forallb (fun k => (String.length first =? String.length k)%nat)
          (first :: rest) = true ->
  relativeNucFrequencies d 1 None
  = try_ZeroDivisionError
      (dict_comp (dict_keys (completed_oligo d))
                 (relative_one_strand false (completed_mono d)
                                      (completed_oligo d)))
      (dict_comp (dict_keys (completed_oligo d))
                 (relative_one_strand true (completed_mono d)
                                      (completed_oligo d))).
Proof.
  intros K F.
  unfold relativeNucFrequencies, completed_oligo, completed_mono, oligo_length.
  cbv zeta. rewrite K, F. reflexivity.
Qed.

(** When every letter of every oligo key has a mononucleotide entry, the
    strand-1 comprehension returns: a zero product sends it to the
    zero-safe variant, which cannot fail. *)
Lemma one_strand_returns (m o : dict Q) :
  (forall x y, In x (dict_keys o) -> In y (chars x) -> In y (dict_keys m)) ->
  exists out,
    try_ZeroDivisionError
      (dict_comp (dict_keys o) (relative_one_strand false m o))
      (dict_comp (dict_keys o) (relative_one_strand true m o)) = Ok out
    /\ (NoDup (dict_keys o) -> dict_keys out = dict_keys o).
Proof.
  intros H.
  assert (Hterms : forall x, In x (dict_keys o) ->
                             exists ox terms,
                               dict_item x o = Ok ox
                               /\ mapM (fun y => dict_item y m) (chars x)
                                  = Ok terms).
  { intros x Hx. destruct (dict_get_In_keys _ _ Hx) as [ox Hox].
    destruct (mapM_total (fun y => dict_item y m) (chars x)) as [terms Ht].
    { intros y Hy. destruct (dict_get_In_keys _ _ (H x y Hx Hy)) as [v Hv].
      exists v. unfold dict_item. rewrite Hv. reflexivity. }
    exists ox, terms. split; [|exact Ht].
    unfold dict_item. rewrite Hox. reflexivity. }
  destruct (dict_comp_total (dict_keys o) (relative_one_strand true m o))
    as [safe_out Hsafe].
  { intros x Hx. destruct (Hterms x Hx) as [ox [terms [E1 E2]]].
    unfold relative_one_strand. rewrite E1. cbn [bind]. rewrite E2.
    cbn [bind]. rewrite zeroDivision_value. eexists; reflexivity. }
  destruct (dict_comp (dict_keys o) (relative_one_strand false m o))
    as [out|e] eqn:E.
  - exists out. split; [reflexivity|].
    intros ND. exact (dict_comp_keys _ _ _ ND E).
  - apply dict_comp_Raise in E. destruct E as [x [Hx E]].
    destruct (Hterms x Hx) as [ox [terms [E1 E2]]].
    unfold relative_one_strand in E. rewrite E1 in E. cbn [bind] in E.
    rewrite E2 in E. cbn [bind] in E. apply py_div_Raise in E. subst e.
    exists safe_out. split; [exact Hsafe|].
    intros ND. exact (dict_comp_keys _ _ _ ND Hsafe).
Qed.

Lemma fold_complete_noop (l : list string) (o : dict Q) :
  (forall k, In k l -> In k (dict_keys o)) ->
  fold_left (fun d k => if negb (dict_mem k d) then dict_set k 0%Q d else d)
            l o = o.
Proof.
  induction l as [|a l IH]; simpl; intros H; [reflexivity|].
  replace (dict_mem a o) with true
    by (symmetry; apply dict_mem_In; apply H; left; reflexivity).
  cbn [negb]. apply IH. intros k Hk. apply H. right. exact Hk.
Qed.

Lemma filter_app_keys (n : nat) :
  2 <= n ->
  filter (fun x => (String.length x =? 1)%nat)
         (default_mono ++ combinations n default_mono None)%list = default_mono
  /\ filter (fun x => (1 <? String.length x)%nat)
            (default_mono ++ combinations n default_mono None)%list
     = combinations n default_mono None
  /\ filter (fun x => (String.length x =? n)%nat)
            (default_mono ++ combinations n default_mono None)%list
     = combinations n default_mono None.
Proof.
  intros Hn.
  pose proof (proj1 (Forall_forall _ _)
                    (combinations_length n default_mono default_mono_one_char))
    as L. cbv beta in L.
  pose proof (proj1 (Forall_forall _ _) default_mono_one_char) as L1.
  cbv beta in L1.
  rewrite !filter_app. repeat split.
  - rewrite (filter_all _ default_mono)
      by (intros a Ha; apply Nat.eqb_eq; exact (L1 a Ha)).
    rewrite (filter_nil_iff _ (combinations n default_mono None)).
    + apply app_nil_r.
    + intros a Ha. apply Nat.eqb_neq. rewrite (L a Ha). lia.
  - rewrite (filter_nil_iff _ default_mono)
      by (intros a Ha; apply Nat.ltb_ge; rewrite (L1 a Ha); lia).
    apply filter_all. intros a Ha. apply Nat.ltb_lt. rewrite (L a Ha). lia.
  - rewrite (filter_nil_iff _ default_mono)
      by (intros a Ha; apply Nat.eqb_neq; rewrite (L1 a Ha); lia).
    apply filter_all. intros a Ha. apply Nat.eqb_eq. exact (L a Ha).
Qed.

(** The tables [relativeNucFrequencies] works from when the input has
    exactly the four bases and the canonical oligos of one length: nothing
    is added by either completion. *)
Lemma canonical_table_completed (d : dict Q) (n : nat) :
  2 <= n ->
  dict_keys d = (default_mono ++ combinations n default_mono None)%list ->
  dict_keys (completed_mono d) = default_mono
  /\ dict_keys (completed_oligo d) = combinations n default_mono None.
Proof.
  intros Hn Hk. destruct (filter_app_keys n Hn) as [F1 [F2 _]].
  assert (M : completed_mono d
              = dict_filter (fun x => (String.length x =? 1)%nat) d).
  { unfold completed_mono, complete_mono.
    rewrite dict_length_keys, dict_keys_filter, Hk, F1. reflexivity. }
  assert (KM : dict_keys (completed_mono d) = default_mono).
  { rewrite M, dict_keys_filter, Hk. exact F1. }
  split; [exact KM|].
  unfold completed_oligo, complete_oligo.
  destruct (negb _).
  - rewrite fold_complete_noop; [rewrite dict_keys_filter, Hk; exact F2|].
    intros k Hin. rewrite dict_keys_filter, Hk, F2.
    replace (oligo_length d) with n in Hin.
    + rewrite KM in Hin. destruct n as [|n']; [lia|].
      rewrite combinations_S. exact Hin.
    + unfold oligo_length. rewrite dict_keys_filter, Hk, F2.
      destruct n as [|n']; [lia|].
      destruct (combinations_default_nonempty n') as [f [r E]].
      rewrite E.
      pose proof (combinations_length (S n') default_mono
                                      default_mono_one_char) as L.
      rewrite E in L. inversion L. auto.
  - rewrite dict_keys_filter, Hk. exact F2.
Qed.

Lemma canonical_sequence_letters (n : nat) (x y : string) :
  In x (combinations n default_mono None) -> In y (chars x) ->
  In y default_mono.
Proof.
  intros Hx Hy. destruct n as [|n]; [contradiction|].
  rewrite combinations_S in Hx.
  apply (product_repeat_In default_mono default_mono_one_char) in Hx.
  destruct Hx as [_ Hx]. exact (proj1 (Forall_forall _ _) Hx y Hy).
Qed.

(** On a table with exactly the four bases and the canonical oligos of
    length [n], strand-1 [relativeNucFrequencies] returns a table with
    exactly the oligo keys. *)
Lemma relativeNucFrequencies_canonical_table (d : dict Q) (n : nat) :
  2 <= n ->
  dict_keys d = (default_mono ++ combinations n default_mono None)%list ->
  exists out,
    relativeNucFrequencies d 1 None = Ok out
    /\ dict_keys out = combinations n default_mono None.
Proof.
  intros Hn Hk.
  destruct (canonical_table_completed d n Hn Hk) as [KM KO].
  destruct (filter_app_keys n Hn) as [_ [F2 _]].
  assert (Hn' : exists n', n = S n') by (exists (n - 1); lia).
  destruct Hn' as [n' Hn'].
  destruct (combinations_default_nonempty n') as [f [r E]].
  rewrite <- Hn' in E.
  pose proof (combinations_length n default_mono default_mono_one_char) as L.
  rewrite (relativeNucFrequencies_one_strand d f r).
  - destruct (one_strand_returns (completed_mono d) (completed_oligo d))
      as [out [Hout Hkeys]].
    + intros x y Hx Hy. rewrite KM. rewrite KO in Hx.
      exact (canonical_sequence_letters n x y Hx Hy).
    + exists out. split; [exact Hout|]. rewrite <- KO. apply Hkeys.
      rewrite KO. apply combinations_default_NoDup. lia.
  - rewrite dict_keys_filter, Hk, F2. exact E.
  - rewrite <- E. apply forallb_forall. intros k Hin. apply Nat.eqb_eq.
    pose proof (proj1 (Forall_forall _ _) L) as L'. cbv beta in L'.
    rewrite (L' k Hin). apply L'. rewrite E. left. reflexivity.
Qed.

(** For a sequence of IUPAC letters, the table of [thirdOrderBias] has
    exactly the 64 canonical trinucleotides as keys. *)
Lemma thirdOrderBias_iupac_keys (seq : string) (strand : Z) :
  iupac_sequence seq ->
  2 < String.length seq ->
  strand = 1%Z \/ strand = 2%Z ->
  exists ret,
    thirdOrderBias seq strand default_mono None = Ok ret
    /\ dict_keys ret = combinations 3 default_mono None.
Proof.
  intros Hseq H Hs.
  destruct (thirdOrderBias_returns seq strand H Hs)
    as [m [di [tri [ret [ET [_ [E Ecomp]]]]]]].
  destruct (bias_tables_returns seq H) as [nf2 [nf3 [_ [E3 ET']]]].
  rewrite ET in ET'. injection ET' as _ _ Etri.
  assert (K : dict_keys tri = combinations 3 default_mono None).
  { rewrite Etri, dict_keys_filter.
    rewrite (iupac_table_keys seq 3 nf3 Hseq ltac:(lia) E3).
    destruct (filter_app_keys 3 ltac:(lia)) as [_ [_ F3]]. exact F3. }
  exists ret. split; [exact E|].
  rewrite <- K. apply (dict_comp_keys _ _ _ ) with (2 := Ecomp).
  rewrite K. apply combinations_default_NoDup. lia.
Qed.

Lemma canonical_form_exists (d : dict Q) (keys : list string) :
  NoDup keys -> dict_keys d = keys ->
  exists g : string -> Q, d = map (fun k => (k, g k)) keys.
Proof.
  intros ND K. exists (fun k => dict_get_default k 0%Q d).
  rewrite <- K. apply dict_canonical_form. rewrite K. exact ND.
Qed.

Lemma seq_to_features_layout_aux (seq nuc_acid : string) :
  iupac_sequence seq ->
  2 < String.length seq ->
  In nuc_acid ["dna"; "rna"] ->
  exists code nuc_frequencies rel tri,
    dict_get nuc_acid ACID_TO_NUMBER = Some code
    /\ nucFrequencies seq 2 default_mono = Ok nuc_frequencies
    /\ relativeNucFrequencies nuc_frequencies 1 None = Ok rel
    /\ thirdOrderBias seq 1 default_mono None = Ok tri
    /\ seq_to_features seq nuc_acid
       = Ok (code :: feature_block nuc_frequencies ++ feature_block rel
                  ++ feature_block tri)
    /\ List.length (code :: feature_block nuc_frequencies ++ feature_block rel
                         ++ feature_block tri) = 101.
Proof.
  intros Hseq Hlen Hacid.
  assert (Hcode : exists code, dict_get nuc_acid ACID_TO_NUMBER = Some code).
  { destruct Hacid as [<-|[<-|[]]]; eexists; reflexivity. }
  destruct Hcode as [code Hcode].
  destruct (nucFrequencies_returns seq 2) as [d2 E2]; [lia|].
  pose proof (iupac_table_keys seq 2 d2 Hseq ltac:(lia) E2) as K2.
  destruct (relativeNucFrequencies_canonical_table d2 2 ltac:(lia) K2)
    as [rel [Erel Krel]].
  destruct (thirdOrderBias_iupac_keys seq 1 Hseq Hlen (or_introl eq_refl))
    as [tri [Etri Ktri]].
  exists code, d2, rel, tri.
  split; [exact Hcode|]. split; [exact E2|]. split; [exact Erel|].
  split; [exact Etri|].
  unfold seq_to_features, dict_item. rewrite Hcode, E2.
  cbv beta iota zeta delta [bind]. rewrite Erel, Etri.
  clear E2 Erel Etri.
  assert (ND2 : NoDup (default_mono ++ combinations 2 default_mono None)%list)
    by (apply nodupb_NoDup; vm_compute; reflexivity).
  destruct (canonical_form_exists d2 _ ND2 K2) as [g2 ->].
  destruct (canonical_form_exists
              rel _ (combinations_default_NoDup 2 ltac:(lia)) Krel)
    as [g ->].
  destruct (canonical_form_exists
              tri _ (combinations_default_NoDup 3 ltac:(lia)) Ktri)
    as [g3 ->].
  split; vm_compute; reflexivity.
Qed.

(** ** Letters outside the IUPAC alphabet *)

Lemma counts_le_length (s : string) :
  overlapping_count s "A" + overlapping_count s "C"
  + overlapping_count s "G" + overlapping_count s "T" <= String.length s.
Proof.
  induction s as [|c r IH].
  - rewrite !overlapping_count_letter_empty. simpl. lia.
  - rewrite !overlapping_count_letter. cbn [String.length].
    repeat match goal with
           | |- context [ascii_dec ?a c] => destruct (ascii_dec a c)
           end; try congruence; lia.
Qed.

Lemma mono_loop_counts (seq : string) (st : dict Q * dict nat) :
  for_each default_mono
    (fun nuc (st : dict Q * dict nat) =>
       f <- frequence seq nuc (Some (betterCount seq nuc)) ;;
       Ok (dict_set nuc f (fst st),
           dict_set nuc (betterCount seq nuc) (snd st)))
    ([], dict_of_items (map (fun nuc => (nuc, 0)) default_mono)) = Ok st ->
  snd st = [("A", betterCount seq "A"); ("C", betterCount seq "C");
            ("G", betterCount seq "G"); ("T", betterCount seq "T")].
Proof.
  unfold default_mono. cbn [for_each]. intros H.
  apply bind_Ok in H. destruct H as [s1 [H1 H]].
  apply bind_Ok in H1. destruct H1 as [qa [Hqa E1]].
  inversion E1; subst s1; clear E1.
  apply bind_Ok in H. destruct H as [s2 [H2 H]].
  apply bind_Ok in H2. destruct H2 as [qc [Hqc E2]].
  inversion E2; subst s2; clear E2.
  apply bind_Ok in H. destruct H as [s3 [H3 H]].
  apply bind_Ok in H3. destruct H3 as [qg [Hqg E3]].
  inversion E3; subst s3; clear E3.
  apply bind_Ok in H. destruct H as [s4 [H4 H]].
  apply bind_Ok in H4. destruct H4 as [qt [Hqt E4]].
  inversion E4; subst s4; clear E4.
  inversion H; subst st. reflexivity.
Qed.

(** The counts of [betterCount] never add up to the length of a non-empty
    sequence, so the redistribution loops run on every such sequence. *)
Lemma nucFrequencies_redistributes (seq : string) (n : nat) (d : dict Q) :
  seq <> "" -> n <> 1 ->
  nucFrequencies seq n default_mono = Ok d ->
  exists d3,
    redistribute_oligo seq n (combinations n default_mono None) d3 = Ok d.
Proof.
  unfold nucFrequencies. cbv zeta. intros Hne Hn H.
  apply bind_Ok in H. destruct H as [st [H1 H]].
  pose proof (mono_loop_counts _ _ H1) as Hc.
  apply bind_Ok in H. destruct H as [d2 [H2 H]].
  destruct (Nat.eqb_spec (String.length seq)
                         (nat_sum (dict_values (snd st)))) as [E|N].
  - exfalso. rewrite Hc in E.
    cbn [dict_values map snd nat_sum fold_left] in E.
    rewrite !betterCount_pred in E.
    pose proof (counts_le_length seq) as L.
    assert (0 < String.length seq) by (destruct seq; [contradiction|simpl; lia]).
    lia.
  - cbn [negb] in H. apply bind_Ok in H. destruct H as [d3 [_ H]].
    destruct (Nat.eqb_spec n 1) as [E1|_]; [contradiction|].
    cbn [negb] in H. exists d3. exact H.
Qed.

(** A property that one turn of a loop establishes and every turn keeps
    holds after the loop. *)
Lemma for_each_reaches {A S : Type} (P : S -> Prop)
      (body : A -> S -> result S) (l : list A) (a : A) :
  In a l ->
  (forall s s', body a s = Ok s' -> P s') ->
  (forall b s s', P s -> body b s = Ok s' -> P s') ->
  forall s s', for_each l body s = Ok s' -> P s'.
Proof.
  induction l as [|b l IH]; simpl; intros Hin Ha Hp s s' H; [contradiction|].
  apply bind_Ok in H. destruct H as [s1 [H1 H2]].
  destruct Hin as [->|Hin].
  - apply (for_each_invariant P body l (fun b0 t t' _ => Hp b0 t t') s1 s');
      [exact (Ha _ _ H1) | exact H2].
  - exact (IH Hin Ha Hp s1 s' H2).
Qed.

Lemma redistribute_oligo_adds (seq : string) (n : nat)
      (desired : list string) (w real : string) (d d' : dict Q) :
  In w (nucList seq n) -> ~ In w desired ->
  In real (makeCombinations w None) ->
  redistribute_oligo seq n desired d = Ok d' ->
  In real (dict_keys d').
Proof.
  intros Hw Hnd Hreal H. unfold redistribute_oligo in H. cbv zeta in H.
  assert (Hstep : forall (x : string) (b : Q) (s s' : dict Q),
             Ok (dict_set x (dict_get_default x 0 s + b)%Q s) = Ok s' ->
             (In real (dict_keys s) \/ x = real) -> In real (dict_keys s')).
  { intros x b s s' E Hs. inversion E; subst s'.
    rewrite dict_set_keys. apply keys_add_In.
    destruct Hs as [Hs | ->]; auto. }
  assert (Hinner : forall (l : list string) (s s' : dict Q),
             In real (dict_keys s) ->
             for_each l
               (fun real_nuc ret_dict =>
                  a <- py_div 1 (inject_Z (Z.of_nat (String.length seq)
                                           - Z.of_nat n + 1)) ;;
                  b <- py_div a (Qnat (List.length (makeCombinations w None))) ;;
                  Ok (dict_set real_nuc
                               (dict_get_default real_nuc 0%Q ret_dict + b)%Q
                               ret_dict)) s = Ok s' ->
             In real (dict_keys s')).
  { intros l s s' Hs E. revert s s' Hs E. apply for_each_invariant.
    intros x s s' _ Hs E.
    apply bind_Ok in E. destruct E as [a [_ E]].
    apply bind_Ok in E. destruct E as [b [_ E]].
    exact (Hstep x b s s' E (or_introl Hs)). }
  revert d d' H.
  apply (for_each_reaches (fun d => In real (dict_keys d)) _ _ w Hw).
  - intros s s' H.
    replace (str_in w desired) with false in H
      by (symmetry; apply str_in_false; exact Hnd).
    cbn [negb] in H. revert s s' H.
    apply (for_each_reaches (fun d => In real (dict_keys d)) _ _ real Hreal).
    + intros s s' E.
      apply bind_Ok in E. destruct E as [a [_ E]].
      apply bind_Ok in E. destruct E as [b [_ E]].
      exact (Hstep real b s s' E (or_intror eq_refl)).
    + intros x s s' Hs E.
      apply bind_Ok in E. destruct E as [a [_ E]].
      apply bind_Ok in E. destruct E as [b [_ E]].
      exact (Hstep x b s s' E (or_introl Hs)).
  - intros b s s' Hs H.
    destruct (negb (str_in b desired)); [|inversion H; subst; exact Hs].
    revert s s' Hs H. apply for_each_invariant.
    intros x s s' _ Hs E.
    apply bind_Ok in E. destruct E as [a [_ E]].
    apply bind_Ok in E. destruct E as [b' [_ E]].
    exact (Hstep x b' s s' E (or_introl Hs)).
Qed.

Lemma str_take_all (n : nat) :
  forall s, String.length s <= n -> str_take n s = s.
Proof.
  induction n as [|n IH]; intros [|c r]; simpl; intros H;
    try reflexivity; try lia.
  rewrite IH by lia. reflexivity.
Qed.

(** Every letter of a sequence lies in one of its windows. *)
Lemma letter_in_window (n : nat) :
  1 <= n ->
  forall seq c, n <= String.length seq -> In c (chars seq) ->
                exists w, In w (nucList seq n) /\ In c (chars w).
Proof.
  intros Hn. induction seq as [|a r IH]; intros c Hlen Hc; [contradiction|].
  rewrite nucList_cons by exact Hlen.
  simpl in Hc. destruct Hc as [<-|Hc].
  - exists (str_take n (String a r)). split; [left; reflexivity|].
    destruct n; [lia|]. simpl. left; reflexivity.
  - destruct (le_lt_dec n (String.length r)) as [L|L].
    + destruct (IH c L Hc) as [w [Hw Hcw]]. exists w.
      split; [right|]; assumption.
    + exists (str_take n (String a r)). split; [left; reflexivity|].
      rewrite str_take_all by (simpl in *; lia). simpl. right. exact Hc.
Qed.

Lemma nucList_length (seq : string) (n : nat) (w : string) :
  In w (nucList seq n) -> String.length w = n.
Proof.
  unfold nucList. intros Hw. apply in_map_iff in Hw.
  destruct Hw as [x [<- Hx]]. apply in_seq in Hx.
  rewrite length_str_take, length_str_drop. lia.
Qed.

Lemma str_contains_one_char (k a : ascii) :
  str_contains (String k "") (String a "") = Ascii.eqb a k.
Proof.
  unfold str_contains. cbn [str_find]. rewrite prefix_cons.
  destruct (ascii_dec a k) as [->|N].
  - rewrite Ascii.eqb_refl. reflexivity.
  - destruct (Ascii.eqb_spec a k); [contradiction | reflexivity].
Qed.

Lemma iupac_lookup_unknown (a : ascii) :
  ~ In (String a "") (dict_keys NA_IUPAC) ->
  iupac_lookup (String a "") NA_IUPAC = None.
Proof.
  intros H. unfold NA_IUPAC. cbn [iupac_lookup].
  rewrite !str_contains_one_char.
  repeat match goal with
         | |- context [Ascii.eqb a ?k] =>
             destruct (Ascii.eqb_spec a k);
             [exfalso; apply H; subst a; simpl; auto 20|]
         end.
  reflexivity.
Qed.

(** What [makeCombinations] reads a letter as: the bases of an IUPAC
    letter, and the letter itself when the table does not have it. *)
Lemma letter_expansion (x : string) :
  String.length x = 1 ->
  let nucs := match iupac_lookup x NA_IUPAC with
              | Some nucs => nucs
              | None => [x]
              end in
  nucs <> []
  /\ Forall (fun y => String.length y = 1) nucs
  /\ (~ In x (dict_keys NA_IUPAC) -> nucs = [x]).
Proof.
  intros L. cbv zeta.
  destruct (in_dec string_dec x (dict_keys NA_IUPAC)) as [Hin|Hout].
  - destruct (iupac_lookup_iupac x Hin) as [subs [-> [Hne Hcan]]].
    split; [exact Hne|]. split; [|contradiction].
    apply Forall_forall. intros y Hy.
    exact (proj1 (Forall_forall _ _) default_mono_one_char y
                 (proj1 (Forall_forall _ _) Hcan y Hy)).
  - destruct (one_char x L) as [a ->].
    rewrite (iupac_lookup_unknown a Hout).
    split; [discriminate|]. split; [|reflexivity].
    constructor; [reflexivity | constructor].
Qed.

Lemma makeCombinations_fold_any (l : list string) :
  Forall (fun x => String.length x = 1) l ->
  forall (P : string -> Prop) acc k,
    (k = 0 /\ acc = [] /\ (forall c, ~ P c)
     \/ 1 <= k /\ acc <> []
        /\ Forall (fun r => String.length r = k
                            /\ forall c, P c -> In c (chars r)) acc) ->
    let out :=
      fold_left
        (fun oligo_nuc_list nuc =>
           let nucs :=
             match iupac_lookup nuc NA_IUPAC with
             | Some nucs => nucs
             | None => [nuc]
             end in
           match oligo_nuc_list with
           | _ :: _ =>
               flat_map (fun element => map (fun x => element ++ x) nucs)
                        oligo_nuc_list
           | [] => nucs
           end) l acc in
    (k + List.length l = 0 /\ out = []
     \/ 1 <= k + List.length l /\ out <> []
        /\ Forall (fun r =>
                     String.length r = k + List.length l
                     /\ forall c,
                         P c \/ (In c l /\ ~ In c (dict_keys NA_IUPAC)) ->
                         In c (chars r)) out).
Proof.
  intros Hl. induction Hl as [|x l Hx Hl IH]; intros P acc k Hinv; cbv zeta.
  - simpl. rewrite Nat.add_0_r.
    destruct Hinv as [[-> [-> _]]|[Hk [Hacc Hall]]]; [left; auto|].
    right. split; [exact Hk|]. split; [exact Hacc|].
    apply Forall_forall. intros r Hr.
    destruct (proj1 (Forall_forall _ _) Hall r Hr) as [L C].
    split; [exact L|]. intros c [Hc|[[] _]]. exact (C c Hc).
  - cbn [fold_left List.length].
    replace (k + S (List.length l)) with (S k + List.length l) by lia.
    destruct (letter_expansion x Hx) as [Hne [Hone Hunk]].
    cbv zeta in Hne, Hone, Hunk.
    set (nucs := match iupac_lookup x NA_IUPAC with
                 | Some nucs => nucs
                 | None => [x]
                 end) in *.
    specialize (IH (fun c => P c \/ (c = x /\ ~ In x (dict_keys NA_IUPAC)))
                   (match acc with
                    | [] => nucs
                    | _ :: _ =>
                        flat_map (fun element =>
                                    map (fun y => element ++ y) nucs) acc
                    end) (S k)).
    cbv zeta in IH.
    destruct IH as [[IH _]|[Hk' [Hout Hall]]]; [|lia|].
    + right. split; [lia|].
      destruct Hinv as [[-> [-> HP]]|[Hk [Hacc Hall]]].
      * split; [exact Hne|]. apply Forall_forall. intros y Hy.
        split; [exact (proj1 (Forall_forall _ _) Hone y Hy)|].
        intros c [Hc|[-> Hu]]; [destruct (HP c Hc)|].
        rewrite (Hunk Hu) in Hy. destruct Hy as [<-|[]].
        destruct (one_char x Hx) as [a ->]. left. reflexivity.
      * destruct acc as [|e0 acc']; [contradiction|]. split.
        { destruct nucs as [|s0 nucs']; [contradiction|]. simpl. discriminate. }
        apply Forall_forall. intros r Hr.
        apply in_flat_map in Hr. destruct Hr as [e [He Hr]].
        apply in_map_iff in Hr. destruct Hr as [y [<- Hy]].
        destruct (proj1 (Forall_forall _ _) Hall e He) as [Le Ce].
        pose proof (proj1 (Forall_forall _ _) Hone y Hy) as Ly.
        cbv beta in Ly.
        rewrite length_append. split; [lia|].
        intros c Hc. rewrite chars_append. apply in_app_iff.
        destruct Hc as [Hc|[-> Hu]]; [left; exact (Ce c Hc)|].
        right. rewrite (Hunk Hu) in Hy. destruct Hy as [<-|[]].
        destruct (one_char x Hx) as [a ->]. left. reflexivity.
    + right. split; [exact Hk'|]. split; [exact Hout|].
      apply Forall_forall. intros r Hr.
      destruct (proj1 (Forall_forall _ _) Hall r Hr) as [L C].
      split; [exact L|]. intros c Hc. apply C.
      destruct Hc as [Hc|[[<-|Hc] Hu]]; auto.
Qed.

(** Every word [makeCombinations] returns has the length of its argument
    and keeps each letter of it that [NA_IUPAC] does not know. *)
Lemma makeCombinations_any (w r : string) :
  In r (makeCombinations w None) ->
  String.length r = String.length w
  /\ forall c, In c (chars w) -> ~ In c (dict_keys NA_IUPAC) ->
               In c (chars r).
Proof.
  intros Hr. unfold makeCombinations in Hr. apply py_set_In in Hr.
  pose proof (makeCombinations_fold_any (chars w) (chars_one_char w)
                (fun _ => False) [] 0
                (or_introl (conj eq_refl (conj eq_refl (fun _ F => F))))) as H.
  cbv zeta in H. destruct H as [[_ E]|[_ [_ H]]].
  - rewrite E in Hr. contradiction.
  - destruct (proj1 (Forall_forall _ _) H r Hr) as [L C].
    rewrite length_chars in L. simpl in L. split; [exact L|].
    intros c Hc Hu. apply C. right. split; assumption.
Qed.

Lemma makeCombinations_nonempty (w : string) :
  w <> "" -> makeCombinations w None <> [].
Proof.
  intros Hw. unfold makeCombinations.
  pose proof (makeCombinations_fold_any (chars w) (chars_one_char w)
                (fun _ => False) [] 0
                (or_introl (conj eq_refl (conj eq_refl (fun _ F => F))))) as H.
  cbv zeta in H. destruct H as [[E _]|[_ [H _]]].
  - rewrite length_chars in E. destruct w; [contradiction | discriminate E].
  - destruct (fold_left _ (chars w) []) as [|x l]; [contradiction|].
    simpl. discriminate.
Qed.

(** Every key of a table of [nucFrequencies] is one of the four bases or
    has the oligo length. *)
Lemma table_key_shapes (seq : string) (n : nat) (d : dict Q) :
  nucFrequencies seq n default_mono = Ok d ->
  forall k, In k (dict_keys d) -> In k default_mono \/ String.length k = n.
Proof.
  revert d.
  apply (nucFrequencies_invariant
           (fun d => forall k, In k (dict_keys d) ->
                               In k default_mono \/ String.length k = n)).
  - intros qa qc qg qt d2 _ _ _ _ H k Hk.
    rewrite (frequencies_phase_keys _ _ _ _ _ _ _ H) in Hk.
    apply fold_keys_add_In in Hk. destruct Hk as [Hk|Hk]; [left; exact Hk|].
    right.
    exact (proj1 (Forall_forall _ _)
                 (combinations_length n default_mono default_mono_one_char)
                 k Hk).
  - intros d c subs sub v Hd _ Hsubs Hsub _ k Hk.
    rewrite dict_set_keys in Hk. apply keys_add_In in Hk.
    destruct Hk as [Hk | ->]; [exact (Hd k Hk)|]. left.
    exact (proj1 (Forall_forall _ _) (NA_IUPAC_values_canonical _ _ Hsubs)
                 sub Hsub).
  - intros d w real v _ Hd Hw Hreal _ k Hk.
    rewrite dict_set_keys in Hk. apply keys_add_In in Hk.
    destruct Hk as [Hk | ->]; [exact (Hd k Hk)|]. right.
    rewrite (proj1 (makeCombinations_any w real Hreal)).
    exact (nucList_length _ _ _ Hw).
Qed.

Lemma complete_oligo_keeps (n : nat) (m o : dict Q) (k : string) :
  In k (dict_keys o) -> In k (dict_keys (complete_oligo n m o)).
Proof.
  unfold complete_oligo. destruct (negb _); [|auto].
  generalize (product_repeat (dict_keys m) n). intros l. revert o.
  induction l as [|a l IH]; simpl; intros o H; [exact H|].
  apply IH. destruct (negb (dict_mem a o)); [|exact H].
  rewrite dict_set_keys. apply keys_add_In. left. exact H.
Qed.

Lemma complete_mono_keys (m : dict Q) (k : string) :
  In k (dict_keys (complete_mono m)) ->
  In k (dict_keys m) \/ In k default_mono.
Proof.
  unfold complete_mono. destruct (negb _); [|auto].
  assert (G : forall l (d : dict Q),
             In k (dict_keys (fold_left (fun d k => dict_set k 0%Q d) l d)) ->
             In k (dict_keys d) \/ In k l).
  { induction l as [|a l IH]; simpl; intros d H; [auto|].
    destruct (IH _ H) as [H1|H1]; [|auto].
    rewrite dict_set_keys in H1. apply keys_add_In in H1.
    destruct H1 as [H1 | ->]; auto. }
  intros H. destruct (G _ _ H) as [H1|H1]; [auto|].
  right. apply filter_In in H1. exact (proj1 H1).
Qed.

(** An oligo key with a letter that has no mononucleotide entry makes the
    strand-1 comprehension raise [KeyError], in the plain variant or, after
    a [ZeroDivisionError] on an earlier key, in the zero-safe one. *)
Lemma one_strand_KeyError (m o : dict Q) (x y : string) :
  In x (dict_keys o) -> In y (chars x) -> ~ In y (dict_keys m) ->
  try_ZeroDivisionError
    (dict_comp (dict_keys o) (relative_one_strand false m o))
    (dict_comp (dict_keys o) (relative_one_strand true m o))
  = Raise KeyError.
Proof.
  intros Hx Hy Hm.
  assert (Hfail : forall safe out,
             dict_comp (dict_keys o) (relative_one_strand safe m o)
             <> Ok out).
  { intros safe out E. destruct (dict_comp_In _ _ _ E x Hx) as [v [Hv _]].
    unfold relative_one_strand in Hv.
    apply bind_Ok in Hv. destruct Hv as [ox [_ Hv]].
    apply bind_Ok in Hv. destruct Hv as [terms [Ht _]].
    destruct (mapM_Ok_In _ _ _ Ht y Hy) as [b Hb]. apply dict_item_Ok in Hb.
    apply Hm. exact (dict_get_Some_In _ _ _ Hb). }
  destruct (dict_comp (dict_keys o) (relative_one_strand true m o))
    as [out|e] eqn:Es; [exfalso; exact (Hfail true out Es)|].
  apply dict_comp_Raise in Es. destruct Es as [x' [_ Es]].
  apply relative_one_strand_Raise in Es.
  destruct Es as [->|[Hd _]]; [|discriminate Hd].
  destruct (dict_comp (dict_keys o) (relative_one_strand false m o))
    as [out|e] eqn:Eb; [exfalso; exact (Hfail false out Eb)|].
  apply dict_comp_Raise in Eb. destruct Eb as [x'' [_ Eb]].
  apply relative_one_strand_Raise in Eb.
  destruct Eb as [->|[_ ->]]; reflexivity.
Qed.

(** A letter that [NA_IUPAC] does not know, anywhere in a sequence at
    least as long as the oligo length, leaves an oligo key that strand-1
    [relativeNucFrequencies] cannot resolve. *)
Lemma relativeNucFrequencies_unknown_letter (seq : string) (n : nat)
      (d : dict Q) :
  2 <= n -> n <= String.length seq ->
  ~ iupac_sequence seq ->
  nucFrequencies seq n default_mono = Ok d ->
  relativeNucFrequencies d 1 None = Raise KeyError.
Proof.
  intros Hn Hlen Hseq Hd.
  assert (Hc : exists c, In c (chars seq) /\ ~ In c (dict_keys NA_IUPAC)).
  { apply Exists_exists. apply neg_Forall_Exists_neg; [|exact Hseq].
    intros x. apply in_dec. exact string_dec. }
  destruct Hc as [c [Hc Hu]].
  destruct (letter_in_window n ltac:(lia) seq c Hlen Hc) as [w [Hw Hcw]].
  assert (Hwne : w <> "").
  { intros ->. contradiction. }
  destruct (makeCombinations w None) as [|real reals] eqn:Ereal;
    [exact (False_ind _ (makeCombinations_nonempty w Hwne Ereal))|].
  assert (Hreal : In real (makeCombinations w None))
    by (rewrite Ereal; left; reflexivity).
  clear Ereal reals.
  destruct (makeCombinations_any w real Hreal) as [Lreal Creal].
  pose proof (Creal c Hcw Hu) as Hcreal.
  assert (Hcm : ~ In c default_mono).
  { intros H. apply Hu. simpl in H. simpl.
    destruct H as [<-|[<-|[<-|[<-|[]]]]]; auto 20. }
  assert (Hnd : ~ In w (combinations n default_mono None)).
  { intros H. exact (Hcm (canonical_sequence_letters n w c H Hcw)). }
  assert (Hne : seq <> "").
  { intros ->. contradiction. }
  destruct (nucFrequencies_redistributes seq n d Hne ltac:(lia) Hd)
    as [d3 H3].
  pose proof (redistribute_oligo_adds _ _ _ w real _ _ Hw Hnd Hreal H3)
    as Hkey.
  pose proof (table_key_shapes seq n d Hd) as Hshape.
  pose proof (nucList_length _ _ _ Hw) as Lw.
  assert (Hol : forall k,
             In k (filter (fun x => (1 <? String.length x)%nat)
                          (dict_keys d)) ->
             String.length k = n).
  { intros k Hk. apply filter_In in Hk. destruct Hk as [Hk L].
    apply Nat.ltb_lt in L. destruct (Hshape k Hk) as [H|H]; [|exact H].
    pose proof (proj1 (Forall_forall _ _) default_mono_one_char k H) as L1.
    cbv beta in L1. lia. }
  assert (Hrk : In real (filter (fun x => (1 <? String.length x)%nat)
                                (dict_keys d))).
  { apply filter_In. split; [exact Hkey|]. apply Nat.ltb_lt. lia. }
  destruct (filter (fun x => (1 <? String.length x)%nat) (dict_keys d))
    as [|first rest] eqn:K; [contradiction|].
  rewrite (relativeNucFrequencies_one_strand d first rest).
  - apply (one_strand_KeyError _ _ real c).
    + unfold completed_oligo. apply complete_oligo_keeps.
      rewrite dict_keys_filter, K. exact Hrk.
    + exact Hcreal.
    + intros H. unfold completed_mono in H. apply complete_mono_keys in H.
      destruct H as [H|H]; [|exact (Hcm H)].
      rewrite dict_keys_filter in H. apply filter_In in H.
      destruct H as [H L]. apply Nat.eqb_eq in L.
      destruct (Hshape c H) as [H'|H']; [exact (Hcm H') | lia].
  - rewrite dict_keys_filter. exact K.
  - apply forallb_forall. intros k Hk. apply Nat.eqb_eq.
    rewrite (Hol k Hk). apply Hol. left. reflexivity.
Qed.

Lemma seq_to_features_acid_code (seq nuc_acid : string) (code : Q) :
  dict_get nuc_acid ACID_TO_NUMBER = Some code ->
  seq_to_features seq nuc_acid
  = (nuc_frequencies <- nucFrequencies seq 2 default_mono ;;
     rel <- relativeNucFrequencies nuc_frequencies 1 None ;;
     tri <- thirdOrderBias seq 1 default_mono None ;;
     let freqs :=
       dict_update
         (dict_update (prefix_keys "nuc_frequencies__" nuc_frequencies)
                      (prefix_keys "relative_nuc_frequencies_one_strand__"
                                   rel))
         (prefix_keys "relative_trinuc_freqs_one_strand__" tri) in
     vals <- mapM (fun k => dict_item k freqs) (sorted (dict_keys freqs)) ;;
     Ok (code :: vals)).
Proof.
  intros H. unfold seq_to_features, dict_item. rewrite H. reflexivity.
Qed.

Lemma acid_code_exists (nuc_acid : string) :
  In nuc_acid ["dna"; "rna"] ->
  exists code, dict_get nuc_acid ACID_TO_NUMBER = Some code.
Proof. intros [<-|[<-|[]]]; eexists; reflexivity. Qed.

Lemma seq_to_features_raises_aux (seq nuc_acid : string) :
  (~ In nuc_acid ["dna"; "rna"] ->
   seq_to_features seq nuc_acid = Raise KeyError)
  /\ (In nuc_acid ["dna"; "rna"] -> String.length seq = 1 ->
      seq_to_features seq nuc_acid = Raise ZeroDivisionError)
  /\ (In nuc_acid ["dna"; "rna"] -> 2 <= String.length seq ->
      ~ iupac_sequence seq ->
      seq_to_features seq nuc_acid = Raise KeyError)
  /\ (In nuc_acid ["dna"; "rna"] -> iupac_sequence seq ->
      String.length seq = 0 \/ String.length seq = 2 ->
      seq_to_features seq nuc_acid = Raise AssertionError).
Proof.
  repeat split.
  - intros H. unfold seq_to_features, dict_item.
    replace (dict_get nuc_acid ACID_TO_NUMBER) with (@None Q); [reflexivity|].
    unfold ACID_TO_NUMBER. simpl.
    destruct (String.eqb_spec nuc_acid "dna") as [->|_];
      [exfalso; apply H; simpl; auto|].
    destruct (String.eqb_spec nuc_acid "rna") as [->|_];
      [exfalso; apply H; simpl; auto | reflexivity].
  - intros Ha L. destruct (acid_code_exists _ Ha) as [code Hcode].
    rewrite (seq_to_features_acid_code _ _ _ Hcode).
    rewrite (nucFrequencies_raises seq 2) by lia. reflexivity.
  - intros Ha L Hseq. destruct (acid_code_exists _ Ha) as [code Hcode].
    rewrite (seq_to_features_acid_code _ _ _ Hcode).
    destruct (nucFrequencies_returns seq 2) as [d E]; [lia|].
    rewrite E. cbn [bind].
    rewrite (relativeNucFrequencies_unknown_letter seq 2 d); auto.
  - intros Ha Hseq L. destruct (acid_code_exists _ Ha) as [code Hcode].
    rewrite (seq_to_features_acid_code _ _ _ Hcode).
    destruct (nucFrequencies_returns seq 2) as [d E]; [lia|].
    rewrite E. cbn [bind].
    pose proof (iupac_table_keys seq 2 d Hseq ltac:(lia) E) as K.
    destruct (relativeNucFrequencies_canonical_table d 2 ltac:(lia) K)
      as [rel [Erel _]].
    rewrite Erel. cbn [bind].
    rewrite thirdOrderBias_short by lia. reflexivity.
Qed.

(** ** [classifier.py]: class names and feature indices *)

Lemma int_item_NUM_TO_CLASS (c : Z) (s : string) :
  int_item c NUM_TO_CLASS = Ok s ->
  (c = 0%Z /\ s = "Eucaryota-infecting") \/ (c = 1%Z /\ s = "phage").
Proof.
  unfold NUM_TO_CLASS. cbn [int_item].
  destruct (Z.eqb_spec c 0); [intros H; inversion H; auto|].
  destruct (Z.eqb_spec c 1); [intros H; inversion H; auto|].
  discriminate.
Qed.

Lemma probas_to_dict_NUM_TO_CLASS (probas : list Q) :
  probas_to_dict probas NUM_TO_CLASS
  = match probas with
    | [] => Ok []
    | [p0] => Ok [("Eucaryota-infecting", p0)]
    | [p0; p1] => Ok [("Eucaryota-infecting", p0); ("phage", p1)]
    | _ => Raise KeyError
    end.
Proof.
  destruct probas as [|p0 [|p1 [|p2 rest]]]; reflexivity.
Qed.

Lemma mapM_Forall2 {A B : Type} (f : A -> result B) :
  forall l bs, mapM f l = Ok bs -> Forall2 (fun a b => f a = Ok b) l bs.
Proof.
  induction l as [|a l IH]; simpl; intros bs H.
  - inversion H. constructor.
  - apply bind_Ok in H. destruct H as [b [Hb H]].
    apply bind_Ok in H. destruct H as [bs' [Hbs H]].
    inversion H; subst bs. constructor; [exact Hb | exact (IH _ Hbs)].
Qed.

Lemma list_index_Some (x : string) (l : list string) (j : nat) :
  list_index x l = Some j ->
  nth_error l j = Some x
  /\ forall j', j' < j -> nth_error l j' <> Some x.
Proof.
  revert j. induction l as [|y l IH]; simpl; intros j H; [discriminate H|].
  destruct (String.eqb_spec x y) as [->|N].
  - inversion H; subst j. split; [reflexivity | intros j' L; lia].
  - destruct (list_index x l) as [i|]; [|discriminate H].
    inversion H; subst j. destruct (IH i eq_refl) as [H1 H2].
    split; [exact H1|].
    intros [|j'] L; simpl; [congruence | apply H2; lia].
Qed.

Lemma list_index_None (x : string) (l : list string) :
  list_index x l = None <-> ~ In x l.
Proof.
  induction l as [|y l IH]; simpl; [tauto|].
  destruct (String.eqb_spec x y) as [->|N].
  - split; [discriminate | intros H; exfalso; apply H; left; reflexivity].
  - destruct (list_index x l) as [i|]; simpl.
    + split; [discriminate|]. intros H.
      assert (F : Some i = None)
        by (apply IH; intros Hin; apply H; right; exact Hin).
      discriminate F.
    + split; [|reflexivity]. intros _ [E|Hin]; [congruence|].
      exact (proj1 IH eq_refl Hin).
Qed.

Lemma classify_class_name (sequence_features : list Q)
      (scaler classifier : Artifact) (feature_indices : option (list nat))
      (s : string) :
  classify sequence_features scaler classifier feature_indices false = Ok s ->
  s = "Eucaryota-infecting" \/ s = "phage".
Proof.
  unfold classify. intros H.
  apply bind_Ok in H. destruct H as [vals [_ H]].
  apply bind_Ok in H. destruct H as [c [_ H]].
  apply int_item_NUM_TO_CLASS in H. destruct H as [[_ ->]|[_ ->]]; auto.
Qed.

(** The class name [classify] returns is one of the two of [NUM_TO_CLASS],
    and the dictionary it returns with [probas=True] pairs these names, in
    that order, with at most two probabilities of the classifier. *)
Theorem classify_returns_class_names (sequence_features : list Q)
        (scaler classifier : Artifact) (feature_indices : option (list nat)) :
  (forall s,
      classify sequence_features scaler classifier feature_indices false
      = Ok s ->
      s = "Eucaryota-infecting" \/ s = "phage")
  /\ (forall d,
         classify sequence_features scaler classifier feature_indices true
         = Ok d ->
         exists vals probas,
           predict_proba classifier vals = Ok probas
           /\ List.length probas <= 2
           /\ d = combine ["Eucaryota-infecting"; "phage"] probas).
Proof.
  split.
  - intros s H. exact (classify_class_name _ _ _ _ _ H).
  - unfold classify. intros d H.
    apply bind_Ok in H. destruct H as [vals [_ H]].
    apply bind_Ok in H. destruct H as [probas [Hp H]].
    exists vals, probas. split; [exact Hp|].
    rewrite probas_to_dict_NUM_TO_CLASS in H.
    destruct probas as [|p0 [|p1 [|p2 rest]]]; inversion H; subst d;
      simpl; split; try lia; reflexivity.
Qed.

(** With more than two probabilities [probas_to_dict] looks up a class
    index that [NUM_TO_CLASS] does not have and raises [KeyError]; with at
    most two it returns the class names paired with them. *)
Theorem probas_to_dict_two_classes (probas : list Q) :
  (List.length probas <= 2 ->
   probas_to_dict probas NUM_TO_CLASS
   = Ok (combine ["Eucaryota-infecting"; "phage"] probas))
  /\ (2 < List.length probas ->
      probas_to_dict probas NUM_TO_CLASS = Raise KeyError).
Proof.
  rewrite probas_to_dict_NUM_TO_CLASS.
  destruct probas as [|p0 [|p1 [|p2 rest]]]; simpl; split; intros H;
    try reflexivity; lia.
Qed.

(** [_get_feature_indices] returns, for each requested feature, the first
    position at which the list of all features has it, and fails (the
    [ValueError] of [list.index]) exactly when a requested feature is
    missing. *)
Theorem get_feature_indices_lookup (all_features specific_features : list string) :
  (forall idx,
      get_feature_indices all_features specific_features = Some idx ->
      Forall2 (fun feat j =>
                 nth_error all_features j = Some feat
                 /\ forall j', j' < j -> nth_error all_features j' <> Some feat)
              specific_features idx)
  /\ (get_feature_indices all_features specific_features = None
      <-> exists feat, In feat specific_features /\ ~ In feat all_features).
Proof.
  induction specific_features as [|feat rest [IH1 IH2]]; simpl.
  - split.
    + intros idx H. inversion H. constructor.
    + split; [discriminate | intros [f [[] _]]].
  - destruct (list_index feat all_features) as [i|] eqn:E.
    + destruct (get_feature_indices all_features rest) as [is_|]; simpl.
      * split.
        { intros idx H. inversion H; subst idx.
          constructor; [exact (list_index_Some _ _ _ E) | exact (IH1 _ eq_refl)]. }
        split; [discriminate|].
        intros [f [[<-|Hf] Hn]].
        { apply list_index_None in Hn. congruence. }
        assert (X : Some is_ = None) by (apply IH2; exists f; auto).
        discriminate X.
      * split; [discriminate|]. split; [|reflexivity].
        intros _. destruct (proj1 IH2 eq_refl) as [f [Hf Hn]].
        exists f. auto.
    + split; [discriminate|]. split; [|reflexivity].
      intros _. exists feat. split; [left; reflexivity|].
      apply list_index_None. exact E.
Qed.

(** ** The feature vector and its failures *)

(** For a sequence of three or more IUPAC letters and the tag "dna" or
    "rna", [seq_to_features] returns 101 numbers: the acid code, then the
    20 entries of [nucFrequencies(seq, 2)], the 16 entries of its strand-1
    relative frequencies and the 64 entries of the strand-1
    [thirdOrderBias], each block in the sorted order of its keys. *)
Theorem seq_to_features_layout (seq nuc_acid : string) :
  iupac_sequence seq ->
  2 < String.length seq ->
  In nuc_acid ["dna"; "rna"] ->
  exists code nuc_frequencies rel tri,
    dict_get nuc_acid ACID_TO_NUMBER = Some code
    /\ nucFrequencies seq 2 default_mono = Ok nuc_frequencies
    /\ relativeNucFrequencies nuc_frequencies 1 None = Ok rel
    /\ thirdOrderBias seq 1 default_mono None = Ok tri
    /\ seq_to_features seq nuc_acid
       = Ok (code :: feature_block nuc_frequencies ++ feature_block rel
                  ++ feature_block tri)
    /\ List.length (code :: feature_block nuc_frequencies ++ feature_block rel
                         ++ feature_block tri) = 101.
Proof. exact (seq_to_features_layout_aux seq nuc_acid). Qed.

Lemma seq_to_features_layout_witness :
  iupac_sequence "ACGTN"
  /\ 2 < String.length "ACGTN"
  /\ In "dna" ["dna"; "rna"]
  /\ exists code nuc_frequencies rel tri,
      dict_get "dna" ACID_TO_NUMBER = Some code
      /\ nucFrequencies "ACGTN" 2 default_mono = Ok nuc_frequencies
      /\ relativeNucFrequencies nuc_frequencies 1 None = Ok rel
      /\ thirdOrderBias "ACGTN" 1 default_mono None = Ok tri
      /\ seq_to_features "ACGTN" "dna"
         = Ok (code :: feature_block nuc_frequencies ++ feature_block rel
                    ++ feature_block tri)
      /\ List.length (code :: feature_block nuc_frequencies
                           ++ feature_block rel ++ feature_block tri) = 101.
Proof.
  assert (Hs : iupac_sequence "ACGTN").
  { unfold iupac_sequence. simpl. repeat constructor; tauto. }
  assert (Hl : 2 < String.length "ACGTN") by (simpl; lia).
  assert (Ha : In "dna" ["dna"; "rna"]) by (left; reflexivity).
  split; [exact Hs|]. split; [exact Hl|]. split; [exact Ha|].
  exact (seq_to_features_layout "ACGTN" "dna" Hs Hl Ha).
Defined.

(** When [seq_to_features] raises: [KeyError] on any tag other than "dna"
    and "rna" (the lookup is case-sensitive and comes first); with a valid
    tag, [ZeroDivisionError] on every one-letter sequence, [KeyError] on
    every longer sequence with a letter outside the fifteen of [NA_IUPAC]
    (a lower-case letter, or U), and the [AssertionError] of
    [thirdOrderBias] on the empty sequence and on two IUPAC letters. *)
Theorem seq_to_features_raises (seq nuc_acid : string) :
  (~ In nuc_acid ["dna"; "rna"] ->
   seq_to_features seq nuc_acid = Raise KeyError)
  /\ (In nuc_acid ["dna"; "rna"] -> String.length seq = 1 ->
      seq_to_features seq nuc_acid = Raise ZeroDivisionError)
  /\ (In nuc_acid ["dna"; "rna"] -> 2 <= String.length seq ->
      ~ iupac_sequence seq ->
      seq_to_features seq nuc_acid = Raise KeyError)
  /\ (In nuc_acid ["dna"; "rna"] -> iupac_sequence seq ->
      String.length seq = 0 \/ String.length seq = 2 ->
      seq_to_features seq nuc_acid = Raise AssertionError).
Proof. exact (seq_to_features_raises_aux seq nuc_acid). Qed.

(** Strand-1 [relativeNucFrequencies] on the table [nucFrequencies] makes
    of a sequence at least as long as the oligo length (2 or more): with
    IUPAC letters only it returns a table whose keys are the canonical
    oligonucleotides; one letter outside [NA_IUPAC] makes it raise
    [KeyError]. *)
Theorem relativeNucFrequencies_of_frequencies (seq : string) (n : nat)
        (d : dict Q) :
  2 <= n -> n <= String.length seq ->
  nucFrequencies seq n default_mono = Ok d ->
  (iupac_sequence seq ->
   exists out, relativeNucFrequencies d 1 None = Ok out
               /\ dict_keys out = combinations n default_mono None)
  /\ (~ iupac_sequence seq ->
      relativeNucFrequencies d 1 None = Raise KeyError).
Proof.
  intros Hn Hlen Hd. split.
  - intros Hseq. apply relativeNucFrequencies_canonical_table; [exact Hn|].
    exact (iupac_table_keys seq n d Hseq Hn Hd).
  - intros Hseq.
    exact (relativeNucFrequencies_unknown_letter seq n d Hn Hlen Hseq Hd).
Qed.

Lemma relativeNucFrequencies_of_frequencies_witness :
  exists d,
    2 <= 2 /\ 2 <= String.length "ACGU"
    /\ nucFrequencies "ACGU" 2 default_mono = Ok d
    /\ (iupac_sequence "ACGU" ->
        exists out, relativeNucFrequencies d 1 None = Ok out
                    /\ dict_keys out = combinations 2 default_mono None)
    /\ (~ iupac_sequence "ACGU" ->
        relativeNucFrequencies d 1 None = Raise KeyError).
Proof.
  eexists.
  assert (H : forall a b c e : Prop,
             (a /\ b /\ c /\ (a -> b -> c -> e)) -> a /\ b /\ c /\ e)
    by tauto.
  apply H. split; [lia|]. split; [simpl; lia|].
  split; [vm_compute; reflexivity|].
  intros Hn Hl Hd.
  exact (relativeNucFrequencies_of_frequencies "ACGU" 2 _ Hn Hl Hd).
Defined.

(** [thirdOrderBias] fails its asserts on every sequence of fewer than
    three letters and on every strand mode other than 1 and 2, whatever
    the other arguments; otherwise it returns a table of three-letter keys,
    which for a sequence of IUPAC letters are exactly the 64 canonical
    trinucleotides. *)
Theorem thirdOrderBias_raises_exactly (seq : string) (strand : Z) :
  (String.length seq <= 2 \/ (strand <> 1%Z /\ strand <> 2%Z) ->
   forall mono transcript_dict,
     thirdOrderBias seq strand mono transcript_dict = Raise AssertionError)
  /\ (2 < String.length seq /\ (strand = 1%Z \/ strand = 2%Z) ->
      exists ret,
        thirdOrderBias seq strand default_mono None = Ok ret
        /\ (forall k, In k (dict_keys ret) -> String.length k = 3)
        /\ (iupac_sequence seq ->
            dict_keys ret = combinations 3 default_mono None)).
Proof.
  split.
  - intros H mono td. unfold thirdOrderBias.
    destruct (Nat.ltb_spec 2 (String.length seq)) as [L|L]; [|reflexivity].
    cbn [negb]. destruct H as [H|[H1 H2]]; [lia|].
    destruct (Z.eqb_spec strand 1); [contradiction|].
    destruct (Z.eqb_spec strand 2); [contradiction|]. reflexivity.
  - intros [Hlen Hs].
    destruct (thirdOrderBias_returns seq strand Hlen Hs)
      as [m [di [tri [ret [_ [Hk [E Ecomp]]]]]]].
    exists ret. split; [exact E|]. split.
    + intros k Hin. apply Hk.
      destruct (dict_get_In_keys _ _ Hin) as [v Hv].
      exact (proj1 (dict_comp_get _ _ _ Ecomp k v Hv)).
    + intros Hseq.
      destruct (thirdOrderBias_iupac_keys seq strand Hseq Hlen Hs)
        as [ret' [E' K]].
      rewrite E in E'. inversion E'; subst ret'. exact K.
Qed.

(** ** [detect_virus_host_type] and [get_virus_host_features] *)

Lemma iupac_sequence_dec (seq : string) :
  {iupac_sequence seq} + {~ iupac_sequence seq}.
Proof.
  unfold iupac_sequence. apply Forall_dec. intros x.
  apply in_dec. exact string_dec.
Qed.

(** [seq_to_features] returns exactly on the sequences of three or more
    IUPAC letters. *)
Lemma seq_to_features_cases (seq nuc_acid : string) :
  In nuc_acid ["dna"; "rna"] ->
  (iupac_sequence seq /\ 2 < String.length seq
   /\ exists feats, seq_to_features seq nuc_acid = Ok feats
                    /\ List.length feats = 101)
  \/ (~ (iupac_sequence seq /\ 2 < String.length seq)
      /\ exists e, seq_to_features seq nuc_acid = Raise e).
Proof.
  intros Ha.
  destruct (seq_to_features_raises_aux seq nuc_acid) as [_ [R1 [R2 R3]]].
  destruct (iupac_sequence_dec seq) as [Hs|Hs].
  - destruct (le_lt_dec (String.length seq) 2) as [L|L].
    + right. split; [intros [_ F]; lia|].
      assert (C : String.length seq = 1
                  \/ String.length seq = 0 \/ String.length seq = 2) by lia.
      destruct C as [C|C]; eexists; [exact (R1 Ha C) | exact (R3 Ha Hs C)].
    + left. split; [exact Hs|]. split; [exact L|].
      destruct (seq_to_features_layout_aux seq nuc_acid Hs L Ha)
        as [code [d2 [rel [tri [_ [_ [_ [_ [E Len]]]]]]]]].
      eexists. split; [exact E | exact Len].
  - right. split; [tauto|].
    destruct (le_lt_dec 2 (String.length seq)) as [L|L].
    + eexists. exact (R2 Ha L Hs).
    + assert (C : String.length seq = 1).
      { destruct seq as [|a [|b r]]; simpl in *; try lia.
        exfalso. apply Hs. constructor. }
      eexists. exact (R1 Ha C).
Qed.

(** [detect_virus_host_type] reports extracted features exactly when the
    package is available, the lower-cased nucleic acid and classifier names
    are among the accepted ones, and the sequence has three or more
    letters, all of them upper-case IUPAC letters.  It then counts 101
    features and sets no error; in every other case it sets an error and
    leaves host type, probabilities and feature count at their defaults,
    whatever the loader does. *)
Theorem detect_virus_host_type_extraction
        (VIRUSES_CLASSIFIER_AVAILABLE : bool)
        (load_joblib_safe : string -> result Artifact) (scaler_path : string)
        (classifier_paths : dict string) (feature_indices : dict (list nat))
        (exn_str : exn -> string)
        (sequence nucleic_acid classifier_type : string) (use_models : bool) :
  let r := detect_virus_host_type VIRUSES_CLASSIFIER_AVAILABLE
             load_joblib_safe scaler_path classifier_paths feature_indices
             exn_str sequence nucleic_acid classifier_type use_models in
  (features_extracted r = true
   <-> VIRUSES_CLASSIFIER_AVAILABLE = true
       /\ In (str_lower nucleic_acid) ["dna"; "rna"]
       /\ In (str_lower classifier_type) ["svc"; "knn"; "qda"; "lr"]
       /\ iupac_sequence sequence
       /\ 2 < String.length sequence)
  /\ (features_extracted r = true ->
      feature_count r = 101 /\ error r = None)
  /\ (features_extracted r = false ->
      host_type r = None /\ probabilities r = None /\ feature_count r = 0
      /\ exists msg, error r = Some msg).
Proof.
  intros r. subst r. unfold detect_virus_host_type.
  destruct VIRUSES_CLASSIFIER_AVAILABLE; cbn [negb]; cbv zeta.
  2:{ simpl. split; [split; [discriminate | intros [F _]; discriminate F]|].
      split; [discriminate|]. intros _. repeat split. eexists; reflexivity. }
  destruct (str_in (str_lower nucleic_acid) ["dna"; "rna"]) eqn:Ea;
    cbn [negb].
  2:{ apply str_in_false in Ea. simpl.
      split; [split; [discriminate | intros [_ [F _]]; contradiction]|].
      split; [discriminate|]. intros _. repeat split. eexists; reflexivity. }
  destruct (str_in (str_lower classifier_type) ["svc"; "knn"; "qda"; "lr"])
           eqn:Ec; cbn [negb].
  2:{ apply str_in_false in Ec. simpl.
      split; [split; [discriminate | intros [_ [_ [F _]]]; contradiction]|].
      split; [discriminate|]. intros _. repeat split. eexists; reflexivity. }
  apply str_in_In in Ea. apply str_in_In in Ec.
  destruct (seq_to_features_cases sequence (str_lower nucleic_acid) Ea)
    as [[Hs [L [feats [E Len]]]]|[N [e E]]]; rewrite E.
  - assert (G : forall r0 : VirusHostResult,
               features_extracted r0 = true -> feature_count r0 = 101 ->
               error r0 = None ->
               (features_extracted r0 = true
                <-> true = true
                    /\ In (str_lower nucleic_acid) ["dna"; "rna"]
                    /\ In (str_lower classifier_type)
                          ["svc"; "knn"; "qda"; "lr"]
                    /\ iupac_sequence sequence
                    /\ 2 < String.length sequence)
               /\ (features_extracted r0 = true ->
                   feature_count r0 = 101 /\ error r0 = None)
               /\ (features_extracted r0 = false ->
                   host_type r0 = None /\ probabilities r0 = None
                   /\ feature_count r0 = 0
                   /\ exists msg, error r0 = Some msg)).
    { intros r0 H1 H2 H3. split; [tauto|]. split; [tauto|].
      intros F. rewrite H1 in F. discriminate F. }
    destruct use_models;
      [destruct (load_and_classify _ _ _ _ _ _) as [[host probs]|e']|];
      apply G; simpl; auto.
  - simpl. split; [split; [discriminate | intros F; exfalso; tauto]|].
    split; [discriminate|]. intros _. repeat split. eexists; reflexivity.
Qed.

Lemma load_and_classify_class_name
      (load_joblib_safe : string -> result Artifact) (scaler_path : string)
      (classifier_paths : dict string) (feature_indices : dict (list nat))
      (feats : list Q) (classifier_type host : string) (probs : dict Q) :
  load_and_classify load_joblib_safe scaler_path classifier_paths
                    feature_indices feats classifier_type = Ok (host, probs) ->
  host = "Eucaryota-infecting" \/ host = "phage".
Proof.
  unfold load_and_classify. intros H.
  apply bind_Ok in H. destruct H as [scaler [_ H]].
  apply bind_Ok in H. destruct H as [path [_ H]].
  apply bind_Ok in H. destruct H as [classifier [_ H]].
  apply bind_Ok in H. destruct H as [indices [_ H]].
  apply bind_Ok in H. destruct H as [h [Hh H]].
  apply bind_Ok in H. destruct H as [p [_ H]].
  inversion H; subst h p.
  exact (classify_class_name _ _ _ _ _ Hh).
Qed.

(** A host type in the result of [detect_virus_host_type] is one of the
    two class names, and comes only with [use_models], with extracted
    features, probabilities, the upper-cased classifier name, no warning
    and no error. *)
Theorem detect_virus_host_type_classified
        (VIRUSES_CLASSIFIER_AVAILABLE : bool)
        (load_joblib_safe : string -> result Artifact) (scaler_path : string)
        (classifier_paths : dict string) (feature_indices : dict (list nat))
        (exn_str : exn -> string)
        (sequence nucleic_acid classifier_type : string) (use_models : bool)
        (host : string) :
  let r := detect_virus_host_type VIRUSES_CLASSIFIER_AVAILABLE
             load_joblib_safe scaler_path classifier_paths feature_indices
             exn_str sequence nucleic_acid classifier_type use_models in
  host_type r = Some host ->
  (host = "Eucaryota-infecting" \/ host = "phage")
  /\ use_models = true
  /\ features_extracted r = true
  /\ (exists probs, probabilities r = Some probs)
  /\ classifier_used r = Some (str_upper (str_lower classifier_type))
  /\ In (str_upper (str_lower classifier_type)) ["SVC"; "KNN"; "QDA"; "LR"]
  /\ warnings r = []
  /\ error r = None.
Proof.
  intros r. subst r. unfold detect_virus_host_type.
  destruct VIRUSES_CLASSIFIER_AVAILABLE; cbn [negb]; cbv zeta;
    [|discriminate].
  destruct (str_in (str_lower nucleic_acid) ["dna"; "rna"]); cbn [negb];
    [|discriminate].
  destruct (str_in (str_lower classifier_type) ["svc"; "knn"; "qda"; "lr"])
           eqn:Ec; cbn [negb]; [|discriminate].
  destruct (seq_to_features sequence (str_lower nucleic_acid)) as [feats|e];
    [|discriminate].
  destruct use_models; [|discriminate].
  destruct (load_and_classify _ _ _ _ _ _) as [[h probs]|e'] eqn:E;
    [|discriminate].
  simpl. intros H. inversion H; subst h.
  split; [exact (load_and_classify_class_name _ _ _ _ _ _ _ _ E)|].
  split; [reflexivity|]. split; [reflexivity|].
  split; [eexists; reflexivity|]. split; [reflexivity|].
  split; [|split; reflexivity].
  apply str_in_In in Ec. simpl in Ec.
  destruct Ec as [<-|[<-|[<-|[<-|[]]]]]; simpl; auto.
Qed.

Lemma detect_virus_host_type_classified_witness :
  let artifact := {| transform := fun l => Ok l;
                     predict := fun _ => Ok 1%Z;
                     predict_proba := fun _ => Ok [1 # 4; 3 # 4]%Q |} in
  let r := detect_virus_host_type true (fun _ => Ok artifact)
             "scaler.dump" [("svc", "svc.dump")] [("svc", [0; 1])]
             (fun _ => "") "ATGCATGCATGC" "DNA" "SVC" true in
  host_type r = Some "phage"
  /\ ("phage" = "Eucaryota-infecting" \/ "phage" = "phage")
  /\ true = true
  /\ features_extracted r = true
  /\ (exists probs, probabilities r = Some probs)
  /\ classifier_used r = Some (str_upper (str_lower "SVC"))
  /\ In (str_upper (str_lower "SVC")) ["SVC"; "KNN"; "QDA"; "LR"]
  /\ warnings r = []
  /\ error r = None.
Proof.
  intros artifact r.
  assert (H : host_type r = Some "phage") by (vm_compute; reflexivity).
  split; [exact H|].
  exact (detect_virus_host_type_classified
           true (fun _ => Ok artifact) "scaler.dump" [("svc", "svc.dump")]
           [("svc", [0; 1])] (fun _ => "") "ATGCATGCATGC" "DNA" "SVC" true
           "phage" H).
Defined.

(** [get_virus_host_features] reports features exactly when
    [detect_virus_host_type] does (for any accepted classifier name, with
    or without models), and then with the same feature count; it echoes
    the nucleic acid as it was passed. *)
Theorem get_virus_host_features_agrees
        (VIRUSES_CLASSIFIER_AVAILABLE : bool)
        (load_joblib_safe : string -> result Artifact) (scaler_path : string)
        (classifier_paths : dict string) (feature_indices : dict (list nat))
        (exn_str : exn -> string)
        (sequence nucleic_acid classifier_type : string) (use_models : bool) :
  In (str_lower classifier_type) ["svc"; "knn"; "qda"; "lr"] ->
  let r := detect_virus_host_type VIRUSES_CLASSIFIER_AVAILABLE
             load_joblib_safe scaler_path classifier_paths feature_indices
             exn_str sequence nucleic_acid classifier_type use_models in
  features_extracted r = true
  <-> exists features,
      get_virus_host_features VIRUSES_CLASSIFIER_AVAILABLE exn_str
                              sequence nucleic_acid
      = ReportFeatures features (feature_count r) nucleic_acid.
Proof.
  intros Hc r. subst r.
  unfold detect_virus_host_type, get_virus_host_features.
  destruct VIRUSES_CLASSIFIER_AVAILABLE; cbn [negb]; cbv zeta.
  2:{ simpl. split; [discriminate | intros [f F]; discriminate F]. }
  apply str_in_In in Hc. rewrite Hc. cbn [negb].
  destruct (str_in (str_lower nucleic_acid) ["dna"; "rna"]) eqn:Ea;
    cbn [negb].
  - destruct (seq_to_features sequence (str_lower nucleic_acid))
      as [feats|e].
    + destruct use_models;
        [destruct (load_and_classify _ _ _ _ _ _) as [[host probs]|e']|];
        simpl; (split; [intros _; eexists; reflexivity | reflexivity]).
    + simpl. split; [discriminate | intros [f F]; discriminate F].
  - apply str_in_false in Ea.
    destruct (seq_to_features_raises_aux sequence (str_lower nucleic_acid))
      as [R _].
    rewrite (R Ea). simpl.
    split; [discriminate | intros [f F]; discriminate F].
Qed.

Lemma get_virus_host_features_agrees_witness :
  let r := detect_virus_host_type true (fun _ => Raise ImportError)
             "scaler.dump" [("svc", "svc.dump")] [("svc", [0; 1])]
             (fun _ => "") "ATGCATGCATGC" "DNA" "SVC" true in
  In (str_lower "SVC") ["svc"; "knn"; "qda"; "lr"]
  /\ (features_extracted r = true
      <-> exists features,
          get_virus_host_features true (fun _ => "") "ATGCATGCATGC" "DNA"
          = ReportFeatures features (feature_count r) "DNA").
Proof.
  intros r.
  assert (H : In (str_lower "SVC") ["svc"; "knn"; "qda"; "lr"])
    by (left; reflexivity).
  split; [exact H|].
  exact (get_virus_host_features_agrees
           true (fun _ => Raise ImportError) "scaler.dump"
           [("svc", "svc.dump")] [("svc", [0; 1])] (fun _ => "")
           "ATGCATGCATGC" "DNA" "SVC" true H).
Defined.

(** ** [thirdOrderBias], strand mode 2 *)

Lemma bias_quotient_compat (a a' b b' : Q) :
  (a == a')%Q -> (b == b')%Q ->
  (a / Qmax b epsilon == a' / Qmax b' (1 # 10000000000))%Q.
Proof.
  intros Ha Hb. change (1 # 10000000000)%Q with epsilon.
  rewrite Ha. rewrite (Q.max_compat _ _ Hb _ _ (Qeq_refl epsilon)).
  reflexivity.
Qed.

(** The value the loop of [thirdOrderBias] stores for a key of three
    letters in strand mode 2. *)
Lemma bias_value_strand2 (m di tri : dict Q) (x y z : ascii) (v : Q) :
  bias_value 2 default_mono transcription_dict m di tri
             (String x (String y (String z ""))) = Ok v ->
  (v == strand2_bias (fun k => dict_get_default k 0 m)
                     (fun k => dict_get_default k 0 di)
                     (fun k => dict_get_default k 0 tri)
                     (String x (String y (String z ""))))%Q.
Proof.
  unfold bias_value. intros H.
  apply bind_Ok in H. destruct H as [fxyz [Hf H]].
  apply dict_item_Ok in Hf.
  change (2 =? 1)%Z with false in H. change (2 =? 2)%Z with true in H.
  cbn [orb andb] in H.
  unfold strand2_bias. cbv zeta.
  rewrite (dict_get_default_Some _ _ _ 0%Q Hf).
  change (reverseComplement (String x (String y (String z "")))
                            (Some transcription_dict))
    with (reverseComplement (String x (String y (String z ""))) None) in H.
  destruct (_ && _).
  - inversion H. reflexivity.
  - cbn [str_index String.get bind str_take str_drop] in H.
    rewrite py_div_Qmax_epsilon in H. inversion H; subst v. clear H.
    cbn [str_take str_drop append].
    apply bias_quotient_compat; [reflexivity|].
    unfold context_sum, py_sum, default_mono.
    cbn [map fold_left append].
    change (reverseComplement (String x (String y ""))
                              (Some transcription_dict))
      with (reverseComplement (String x (String y "")) None).
    change (reverseComplement (String y (String z ""))
                              (Some transcription_dict))
      with (reverseComplement (String y (String z "")) None).
    ring.
Qed.

Lemma Qdiv_max_compat (a a' b b' e : Q) :
  (a == a')%Q -> (b == b')%Q -> (a / Qmax b e == a' / Qmax b' e)%Q.
Proof.
  intros Ha Hb. rewrite Ha.
  rewrite (Q.max_compat _ _ Hb _ _ (Qeq_refl e)). reflexivity.
Qed.

Lemma reverseComplement_canonical (key : string) :
  In key (combinations 3 default_mono None) ->
  In (reverseComplement key None) (combinations 3 default_mono None).
Proof.
  intros H. vm_compute in H.
  repeat (destruct H as [<-|H]; [apply str_in_In; vm_compute; reflexivity|]).
  contradiction.
Qed.

(** The strand-2 bias of a canonical trinucleotide and of its reverse
    complement are the same number. *)
Lemma strand2_bias_symmetric (mm dd ff : string -> Q) (key : string) :
  In key (combinations 3 default_mono None) ->
  (strand2_bias mm dd ff key
   == strand2_bias mm dd ff (reverseComplement key None))%Q.
Proof.
  intros H. vm_compute in H.
  repeat (destruct H as [<-|H];
          [unfold strand2_bias;
           cbv - [Qeq_bool Qmax Qplus Qmult Qdiv Qeq];
           match goal with
           | |- context [Qeq_bool (ff ?a) _] =>
               destruct (Qeq_bool (ff a) _);
               match goal with
               | |- context [Qeq_bool (ff ?b) _] =>
                   destruct (Qeq_bool (ff b) _)
               end
           end;
           try reflexivity;
           (apply Qdiv_max_compat; ring)|]).
  contradiction.
Qed.

(** In strand mode 2 the table of [thirdOrderBias] gives every canonical
    trinucleotide the value of the strand-2 formula over the three
    frequency tables, and gives its reverse complement the same value. *)
Theorem thirdOrderBias_strand2_symmetry (seq : string) (ret : dict Q)
        (key : string) :
  thirdOrderBias seq 2 default_mono None = Ok ret ->
  In key (combinations 3 default_mono None) ->
  exists m di tri v v',
    bias_tables seq = Ok (m, di, tri)
    /\ dict_get key ret = Some v
    /\ dict_get (reverseComplement key None) ret = Some v'
    /\ (v == strand2_bias (fun k => dict_get_default k 0 m)
                          (fun k => dict_get_default k 0 di)
                          (fun k => dict_get_default k 0 tri) key)%Q
    /\ (v == v')%Q.
Proof.
  intros H Hkey.
  assert (Hlen : 2 < String.length seq).
  { destruct (le_lt_dec (String.length seq) 2) as [L|L]; [|exact L].
    rewrite thirdOrderBias_short in H by exact L. discriminate H. }
  destruct (thirdOrderBias_returns seq 2 Hlen (or_intror eq_refl))
    as [m [di [tri [ret0 [ET [_ [E Ecomp]]]]]]].
  rewrite H in E. inversion E; subst ret0. clear E.
  destruct (bias_tables_returns seq Hlen) as [nf2 [nf3 [_ [E3 ET']]]].
  assert (Etri : tri = dict_filter (fun k => (String.length k =? 3)%nat) nf3).
  { rewrite ET in ET'. inversion ET'. reflexivity. }
  assert (Hin : forall k, In k (combinations 3 default_mono None) ->
                          In k (dict_keys tri)).
  { intros k Hk. rewrite Etri, dict_keys_filter. apply filter_In. split.
    - destruct (canonical_keys_present seq 3 nf3 k E3 (or_intror Hk))
        as [q Hq].
      exact (dict_get_Some_In _ _ _ Hq).
    - apply Nat.eqb_eq.
      exact (proj1 (Forall_forall _ _)
                   (combinations_length 3 default_mono default_mono_one_char)
                   k Hk). }
  pose proof (reverseComplement_canonical key Hkey) as Hrc.
  destruct (dict_comp_In _ _ _ Ecomp key (Hin key Hkey)) as [v [Hv Gv]].
  destruct (dict_comp_In _ _ _ Ecomp _ (Hin _ Hrc)) as [v' [Hv' Gv']].
  exists m, di, tri, v, v'.
  split; [exact ET|]. split; [exact Gv|]. split; [exact Gv'|].
  assert (L : forall k, In k (combinations 3 default_mono None) ->
                        exists x y z, k = String x (String y (String z ""))).
  { intros k Hk. apply three_chars.
    exact (proj1 (Forall_forall _ _)
                 (combinations_length 3 default_mono default_mono_one_char)
                 k Hk). }
  destruct (L key Hkey) as [x [y [z Ek]]].
  destruct (L _ Hrc) as [x' [y' [z' Ek']]].
  assert (F : (v == strand2_bias (fun k => dict_get_default k 0 m)
                                 (fun k => dict_get_default k 0 di)
                                 (fun k => dict_get_default k 0 tri) key)%Q).
  { rewrite Ek in Hv |- *. exact (bias_value_strand2 _ _ _ _ _ _ _ Hv). }
  split; [exact F|].
  rewrite F, (strand2_bias_symmetric _ _ _ key Hkey).
  rewrite Ek' in Hv' |- *. symmetry.
  exact (bias_value_strand2 _ _ _ _ _ _ _ Hv').
Qed.

Lemma thirdOrderBias_strand2_symmetry_witness :
  exists ret,
    thirdOrderBias "AACGTN" 2 default_mono None = Ok ret
    /\ In "AAC" (combinations 3 default_mono None)
    /\ exists m di tri v v',
        bias_tables "AACGTN" = Ok (m, di, tri)
        /\ dict_get "AAC" ret = Some v
        /\ dict_get (reverseComplement "AAC" None) ret = Some v'
        /\ (v == strand2_bias (fun k => dict_get_default k 0 m)
                              (fun k => dict_get_default k 0 di)
                              (fun k => dict_get_default k 0 tri) "AAC")%Q
        /\ (v == v')%Q.
Proof.
  eexists.
  assert (H : forall a b c : Prop, (a /\ b /\ (a -> b -> c)) -> a /\ b /\ c)
    by tauto.
  apply H. split; [vm_compute; reflexivity|].
  split; [apply str_in_In; vm_compute; reflexivity|].
  intros Hret Hkey.
  exact (thirdOrderBias_strand2_symmetry "AACGTN" _ "AAC" Hret Hkey).
Defined.

(** ** The values of a frequency table *)

Lemma Qnat_S (n : nat) : (Qnat (S n) == Qnat n + 1)%Q.
Proof.
  unfold Qnat. rewrite Nat2Z.inj_succ, <- Z.add_1_r, inject_Z_plus.
  reflexivity.
Qed.

Lemma dict_get_default_set (k t : string) (v : Q) (d : dict Q) :
  dict_get_default k 0%Q (dict_set t v d)
  = if String.eqb k t then v else dict_get_default k 0%Q d.
Proof.
  unfold dict_get_default. destruct (String.eqb_spec k t) as [->|N].
  - rewrite dict_get_set_same. reflexivity.
  - rewrite dict_get_set_other by exact N. reflexivity.
Qed.

(** A loop that adds the same share to the entry of each target. *)
Lemma share_loop (X Y : Q) (targets : list string) :
  forall d d',
    for_each targets
      (fun t ret =>
         a <- py_div 1 X ;;
         b <- py_div a Y ;;
         Ok (dict_set t (dict_get_default t 0%Q ret + b)%Q ret)) d = Ok d' ->
    forall k,
      (dict_get_default k 0 d'
       == dict_get_default k 0 d
          + Qnat (count_occ string_dec targets k) * (1 / X / Y))%Q.
Proof.
  induction targets as [|t rest IH]; intros d d' H k; simpl in H.
  - inversion H; subst. simpl. unfold Qnat. simpl. ring.
  - apply bind_Ok in H. destruct H as [d1 [H1 H2]].
    apply bind_Ok in H1. destruct H1 as [a [Ha H1]].
    apply bind_Ok in H1. destruct H1 as [b [Hb H1]].
    apply py_div_Ok in Ha. destruct Ha as [_ ->].
    apply py_div_Ok in Hb. destruct Hb as [_ ->].
    inversion H1; subst d1. clear H1.
    rewrite (IH _ _ H2 k), dict_get_default_set.
    destruct (String.eqb_spec k t) as [->|N].
    + rewrite count_occ_cons_eq by reflexivity. rewrite Qnat_S. ring.
    + rewrite count_occ_cons_neq by congruence. ring.
Qed.

Lemma Qsum_cons (x : Q) (l : list Q) : Qsum (x :: l) = (x + Qsum l)%Q.
Proof. reflexivity. Qed.

(** What the loop over the letters of the sequence adds to an entry. *)
Lemma redistribute_mono_value (seq : string) (d d' : dict Q) (k : string) :
  redistribute_mono seq default_mono d = Ok d' ->
  (dict_get_default k 0 d'
   == dict_get_default k 0 d
      + Qsum (map (fun c => degenerate_share c k) (chars seq))
        / Qnat (String.length seq))%Q.
Proof.
  unfold redistribute_mono. cbv zeta.
  generalize (chars seq). intros l. revert d d'.
  induction l as [|c l IH]; intros d d' H; cbn [for_each] in H.
  - inversion H; subst. simpl. unfold Qdiv. ring.
  - apply bind_Ok in H. destruct H as [d1 [H1 H2]].
    rewrite (IH _ _ H2). cbn [map]. rewrite Qsum_cons.
    assert (E : (dict_get_default k 0 d1
                 == dict_get_default k 0 d
                    + degenerate_share c k / Qnat (String.length seq))%Q).
    { unfold degenerate_share.
      destruct (negb (str_in c default_mono)); cbn [andb] in H1.
      - unfold dict_mem in H1.
        destruct (dict_get c NA_IUPAC) as [subs|] eqn:Es.
        + unfold dict_item in H1. rewrite Es in H1. cbn [bind] in H1.
          rewrite (share_loop _ _ _ _ _ H1 k). unfold Qdiv. ring.
        + inversion H1; subst. unfold Qdiv. ring.
      - inversion H1; subst. unfold Qdiv. ring. }
    rewrite E. unfold Qdiv. ring.
Qed.

(** What the loop over the windows of the sequence adds to an entry. *)
Lemma redistribute_oligo_value (seq : string) (n : nat) (d d' : dict Q)
      (k : string) :
  redistribute_oligo seq n (combinations n default_mono None) d = Ok d' ->
  (dict_get_default k 0 d'
   == dict_get_default k 0 d
      + Qsum (map (fun u => oligo_share n u k) (nucList seq n))
        / inject_Z (Z.of_nat (String.length seq) - Z.of_nat n + 1))%Q.
Proof.
  unfold redistribute_oligo. cbv zeta.
  generalize (nucList seq n). intros l. revert d d'.
  induction l as [|u l IH]; intros d d' H; cbn [for_each] in H.
  - inversion H; subst. simpl. unfold Qdiv. ring.
  - apply bind_Ok in H. destruct H as [d1 [H1 H2]].
    rewrite (IH _ _ H2). cbn [map]. rewrite Qsum_cons.
    assert (E : (dict_get_default k 0 d1
                 == dict_get_default k 0 d
                    + oligo_share n u k
                      / inject_Z (Z.of_nat (String.length seq)
                                  - Z.of_nat n + 1))%Q).
    { unfold oligo_share.
      destruct (negb (str_in u (combinations n default_mono None))).
      - rewrite (share_loop _ _ _ _ _ H1 k). unfold Qdiv. ring.
      - inversion H1; subst. unfold Qdiv. ring. }
    rewrite E. unfold Qdiv. ring.
Qed.

(** The phases of [nucFrequencies] on a non-empty sequence: the counts of
    [betterCount] never add up to its length, so both redistribution loops
    run (the second unless the oligo length is 1). *)
Lemma nucFrequencies_phases_nonempty (seq : string) (n : nat) (d : dict Q) :
  seq <> "" ->
  nucFrequencies seq n default_mono = Ok d ->
  exists qa qc qg qt d2 d3,
    frequence seq "A" (Some (betterCount seq "A")) = Ok qa
    /\ frequence seq "C" (Some (betterCount seq "C")) = Ok qc
    /\ frequence seq "G" (Some (betterCount seq "G")) = Ok qg
    /\ frequence seq "T" (Some (betterCount seq "T")) = Ok qt
    /\ for_each (combinations n default_mono None)
                (fun x ret_dict =>
                   v <- frequence seq x None ;; Ok (dict_set x v ret_dict))
                [("A", qa); ("C", qc); ("G", qg); ("T", qt)] = Ok d2
    /\ redistribute_mono seq default_mono d2 = Ok d3
    /\ ((n = 1 /\ d = d3)
        \/ (n <> 1
            /\ redistribute_oligo seq n
                 (combinations n default_mono None) d3 = Ok d)).
Proof.
  intros Hne H.
  destruct (nucFrequencies_phases seq n d H)
    as [qa [qc [qg [qt [d2 [Ha [Hc [Hg [Ht [Hd2 Hcases]]]]]]]]]].
  exists qa, qc, qg, qt, d2.
  unfold nucFrequencies in H. cbv zeta in H.
  apply bind_Ok in H. destruct H as [st [H1 H]].
  pose proof (mono_loop_counts _ _ H1) as Hcnt.
  pose proof (mono_loop_result _ _ H1) as Hres.
  destruct Hres as [qa' [qc' [qg' [qt' [Ha' [Hc' [Hg' [Ht' Est]]]]]]]].
  rewrite Ha in Ha'. rewrite Hc in Hc'. rewrite Hg in Hg'. rewrite Ht in Ht'.
  inversion Ha'; inversion Hc'; inversion Hg'; inversion Ht'.
  subst qa' qc' qg' qt'.
  apply bind_Ok in H. destruct H as [d2' [H2 H]].
  rewrite Est, Hd2 in H2. inversion H2; subst d2'. clear H2.
  destruct (Nat.eqb_spec (String.length seq)
                         (nat_sum (dict_values (snd st)))) as [E|N].
  - exfalso. rewrite Hcnt in E.
    cbn [dict_values map snd nat_sum fold_left] in E.
    rewrite !betterCount_pred in E.
    pose proof (counts_le_length seq) as L.
    assert (0 < String.length seq)
      by (destruct seq; [contradiction | simpl; lia]).
    lia.
  - cbn [negb] in H. apply bind_Ok in H. destruct H as [d3 [H3 H]].
    exists d3. repeat (split; [assumption|]).
    destruct (Nat.eqb_spec n 1) as [E1|N1]; cbn [negb] in H.
    + left. inversion H. auto.
    + right. auto.
Qed.

Lemma frequence_with_count (seq b : string) (count : nat) (q : Q) :
  seq <> "" -> String.length b = 1 ->
  frequence seq b (Some count) = Ok q ->
  q = (Qnat count / Qnat (String.length seq))%Q.
Proof.
  intros Hne Hb. unfold frequence.
  destruct seq as [|c r]; [contradiction|]. cbn [String.length Nat.eqb].
  rewrite Hb. cbn [Nat.eqb]. intros H.
  apply py_div_Ok in H. exact (proj2 H).
Qed.

Lemma frequence_without_count (seq w : string) (q : Q) :
  seq <> "" -> String.length w <> 1 ->
  frequence seq w None = Ok q ->
  q = (Qnat (betterCount seq w)
       / inject_Z (Z.of_nat (String.length seq)
                   - Z.of_nat (String.length w) + 1))%Q.
Proof.
  intros Hne Hw. unfold frequence.
  destruct seq as [|c r]; [contradiction|]. cbn [String.length Nat.eqb].
  destruct (Nat.eqb_spec (String.length w) 1) as [E|_]; [contradiction|].
  intros H. apply py_div_Ok in H. exact (proj2 H).
Qed.

(** On a non-empty sequence and for an oligo length other than 1, the
    entry of each of the four bases is the count of [betterCount] plus the
    shares of the degenerate letters of the sequence, over its length. *)
Theorem nucFrequencies_mono_values (seq : string) (n : nat) (d : dict Q)
        (b : string) :
  seq <> "" -> n <> 1 ->
  nucFrequencies seq n default_mono = Ok d ->
  In b default_mono ->
  exists v, dict_get b d = Some v /\ (v == mono_formula seq b)%Q.
Proof.
  intros Hne Hn H Hb.
  destruct (canonical_keys_present seq n d b H (or_introl Hb)) as [v Hv].
  exists v. split; [exact Hv|].
  rewrite <- (dict_get_default_Some b d v 0%Q Hv).
  destruct (nucFrequencies_phases_nonempty seq n d Hne H)
    as [qa [qc [qg [qt [d2 [d3 [Ha [Hc [Hg [Ht [Hd2 [Hd3 Hcases]]]]]]]]]]]].
  pose proof (proj1 (Forall_forall _ _) default_mono_one_char b Hb) as Lb.
  cbv beta in Lb.
  assert (E2 : dict_get_default b 0%Q d2
               = (Qnat (betterCount seq b) / Qnat (String.length seq))%Q).
  { destruct (for_each_store (fun x => frequence seq x None) _ _ _ Hd2 b)
      as [_ Hout].
    unfold dict_get_default. rewrite Hout.
    - apply (frequence_with_count _ _ _ _ Hne (eq_refl : String.length "A" = 1))
        in Ha.
      apply (frequence_with_count _ _ _ _ Hne (eq_refl : String.length "C" = 1))
        in Hc.
      apply (frequence_with_count _ _ _ _ Hne (eq_refl : String.length "G" = 1))
        in Hg.
      apply (frequence_with_count _ _ _ _ Hne (eq_refl : String.length "T" = 1))
        in Ht.
      subst qa qc qg qt. simpl in Hb.
      destruct Hb as [<-|[<-|[<-|[<-|[]]]]]; reflexivity.
    - intros Hin.
      pose proof (proj1 (Forall_forall _ _)
                        (combinations_length n default_mono
                                             default_mono_one_char) b Hin)
        as L. cbv beta in L. lia. }
  assert (E3 : (dict_get_default b 0 d == mono_formula seq b)%Q).
  { destruct Hcases as [[E _]|[_ Hd]]; [contradiction|].
    assert (Ed : dict_get_default b 0%Q d = dict_get_default b 0%Q d3).
    { revert Hd.
      apply (redistribute_oligo_invariant
               (fun t => dict_get_default b 0%Q t = dict_get_default b 0%Q d3)).
      - intros t w real q It Hw Hreal _.
        rewrite dict_get_default_set.
        destruct (String.eqb_spec b real) as [->|_]; [|exact It].
        exfalso.
        pose proof (proj1 (makeCombinations_any w real Hreal)) as L1.
        pose proof (nucList_length _ _ _ Hw) as L2. lia.
      - reflexivity. }
    rewrite Ed, (redistribute_mono_value seq d2 d3 b Hd3), E2.
    unfold mono_formula, Qdiv. ring. }
  exact E3.
Qed.

Lemma nucFrequencies_mono_values_witness :
  exists d,
    "ANNRT" <> "" /\ 2 <> 1
    /\ nucFrequencies "ANNRT" 2 default_mono = Ok d
    /\ In "A" default_mono
    /\ exists v, dict_get "A" d = Some v
                 /\ (v == mono_formula "ANNRT" "A")%Q.
Proof.
  eexists.
  assert (H : forall a b c e f : Prop,
             (a /\ b /\ c /\ e /\ (a -> b -> c -> e -> f)) ->
             a /\ b /\ c /\ e /\ f) by tauto.
  apply H. split; [discriminate|]. split; [lia|].
  split; [vm_compute; reflexivity|]. split; [left; reflexivity|].
  intros Ha Hb Hc He.
  exact (nucFrequencies_mono_values "ANNRT" 2 _ "A" Ha Hb Hc He).
Defined.

(** For an oligo length of 2 or more and a sequence at least that long,
    the entry of each canonical oligonucleotide is the count of
    [betterCount] plus the shares of the windows with degenerate or unknown
    letters, over the number of windows. *)
Theorem nucFrequencies_oligo_values (seq : string) (n : nat) (d : dict Q)
        (w : string) :
  2 <= n -> n <= String.length seq ->
  nucFrequencies seq n default_mono = Ok d ->
  In w (combinations n default_mono None) ->
  exists v, dict_get w d = Some v /\ (v == oligo_formula seq n w)%Q.
Proof.
  intros Hn Hlen H Hw.
  assert (Hne : seq <> "") by (intros ->; simpl in Hlen; lia).
  destruct (canonical_keys_present seq n d w H (or_intror Hw)) as [v Hv].
  exists v. split; [exact Hv|].
  rewrite <- (dict_get_default_Some w d v 0%Q Hv).
  destruct (nucFrequencies_phases_nonempty seq n d Hne H)
    as [qa [qc [qg [qt [d2 [d3 [Ha [Hc [Hg [Ht [Hd2 [Hd3 Hcases]]]]]]]]]]]].
  pose proof (proj1 (Forall_forall _ _)
                    (combinations_length n default_mono default_mono_one_char)
                    w Hw) as Lw.
  cbv beta in Lw.
  assert (E2 : dict_get_default w 0%Q d2
               = (Qnat (betterCount seq w)
                  / inject_Z (Z.of_nat (String.length seq)
                              - Z.of_nat n + 1))%Q).
  { destruct (for_each_store (fun x => frequence seq x None) _ _ _ Hd2 w)
      as [Hin _].
    destruct (Hin Hw) as [q [Hq Hget]].
    unfold dict_get_default. rewrite Hget.
    apply frequence_without_count in Hq; [|exact Hne | lia].
    rewrite Lw in Hq. exact Hq. }
  assert (E3 : dict_get_default w 0%Q d3 = dict_get_default w 0%Q d2).
  { revert Hd3.
    apply (redistribute_mono_invariant
             (fun t => dict_get_default w 0%Q t = dict_get_default w 0%Q d2)).
    - intros t c subs sub q It _ Hsubs Hsub _.
      rewrite dict_get_default_set.
      destruct (String.eqb_spec w sub) as [->|_]; [|exact It].
      exfalso.
      pose proof (proj1 (Forall_forall _ _)
                        (NA_IUPAC_values_canonical _ _ Hsubs) sub Hsub) as Hs.
      pose proof (proj1 (Forall_forall _ _) default_mono_one_char sub Hs)
        as L1. cbv beta in L1. lia.
    - reflexivity. }
  destruct Hcases as [[E _]|[_ Hd]]; [lia|].
  rewrite (redistribute_oligo_value seq n d3 d w Hd), E3, E2.
  unfold oligo_formula, Qdiv. ring.
Qed.

Lemma nucFrequencies_oligo_values_witness :
  exists d,
    2 <= 2 /\ 2 <= String.length "ANNRT"
    /\ nucFrequencies "ANNRT" 2 default_mono = Ok d
    /\ In "AG" (combinations 2 default_mono None)
    /\ exists v, dict_get "AG" d = Some v
                 /\ (v == oligo_formula "ANNRT" 2 "AG")%Q.
Proof.
  eexists.
  assert (H : forall a b c e f : Prop,
             (a /\ b /\ c /\ e /\ (a -> b -> c -> e -> f)) ->
             a /\ b /\ c /\ e /\ f) by tauto.
  apply H. split; [lia|]. split; [simpl; lia|].
  split; [vm_compute; reflexivity|].
  split; [apply str_in_In; vm_compute; reflexivity|].
  intros Ha Hb Hc He.
  exact (nucFrequencies_oligo_values "ANNRT" 2 _ "AG" Ha Hb Hc He).
Defined.

(** ** [makeCombinations] *)

Lemma py_set_In_iff (l : list string) (r : string) :
  In r (py_set l) <-> In r l.
Proof.
  split; [apply py_set_In|].
  induction l as [|a l IH]; simpl; [auto|].
  intros [->|H]; [left; reflexivity|].
  destruct (String.eqb_spec a r) as [E|N]; [left; exact E|].
  right. apply filter_In. split; [exact (IH H)|].
  destruct (String.eqb_spec a r); [contradiction | reflexivity].
Qed.

Lemma py_set_NoDup (l : list string) : NoDup (py_set l).
Proof.
  induction l as [|a l IH]; simpl; constructor.
  - intros H. apply filter_In in H. destruct H as [_ H].
    rewrite String.eqb_refl in H. discriminate H.
  - apply NoDup_filter. exact IH.
Qed.

Lemma one_char_word (r y : string) :
  chars r = [y] -> r = y.
Proof.
  intros H. rewrite <- (concat_chars r), H. simpl. reflexivity.
Qed.

Lemma makeCombinations_fold_exact (l : list string) :
  Forall (fun x => String.length x = 1) l ->
  forall (p acc : list string),
    Forall (fun x => String.length x = 1) p ->
    (p = [] /\ acc = []
     \/ p <> [] /\ acc <> []
        /\ forall r, In r acc
                     <-> Forall2 (fun c y => In y (letter_bases c))
                                 p (chars r)) ->
    let out :=
      fold_left
        (fun oligo_nuc_list nuc =>
           let nucs :=
             match iupac_lookup nuc NA_IUPAC with
             | Some nucs => nucs
             | None => [nuc]
             end in
           match oligo_nuc_list with
           | _ :: _ =>
               flat_map (fun element => map (fun x => element ++ x) nucs)
                        oligo_nuc_list
           | [] => nucs
           end) l acc in
    ((p ++ l)%list = [] /\ out = []
     \/ (p ++ l)%list <> [] /\ out <> []
        /\ forall r, In r out
                     <-> Forall2 (fun c y => In y (letter_bases c))
                                 (p ++ l)%list (chars r)).
Proof.
  intros Hl. induction Hl as [|x l Hx Hl IH]; intros p acc Hp Hinv; cbv zeta.
  - simpl. rewrite app_nil_r. exact Hinv.
  - cbn [fold_left].
    destruct (letter_expansion x Hx) as [Hne [Hone _]].
    cbv zeta in Hne, Hone. fold (letter_bases x) in Hne, Hone |- *.
    replace (p ++ x :: l)%list with ((p ++ [x]) ++ l)%list
      by (rewrite <- app_assoc; reflexivity).
    apply IH.
    + apply Forall_app. split; [exact Hp | constructor; [exact Hx | constructor]].
    + right. split; [destruct p; discriminate|].
      destruct Hinv as [[-> ->]|[Hpne [Hacc Hall]]].
      * split; [exact Hne|]. intros r. simpl. split.
        { intros Hr.
          pose proof (proj1 (Forall_forall _ _) Hone r Hr) as L.
          destruct (one_char r L) as [a ->]. simpl.
          constructor; [exact Hr | constructor]. }
        { intros H. inversion H as [|? y ? l2 Hy Hrest E1 E2]; subst.
          inversion Hrest; subst.
          rewrite (one_char_word r y) by (symmetry; assumption). exact Hy. }
      * destruct acc as [|e0 acc']; [contradiction|]. split.
        { destruct (letter_bases x) as [|s0 nucs']; [contradiction|].
          simpl. discriminate. }
        intros r. split.
        { intros Hr. apply in_flat_map in Hr. destruct Hr as [e [He Hr]].
          apply in_map_iff in Hr. destruct Hr as [y [<- Hy]].
          rewrite chars_append. apply Forall2_app.
          - apply Hall. exact He.
          - pose proof (proj1 (Forall_forall _ _) Hone y Hy) as L.
            destruct (one_char y L) as [a ->]. simpl.
            constructor; [exact Hy | constructor]. }
        { intros H. apply Forall2_app_inv_l in H.
          destruct H as [l1 [l2 [H1 [H2 E]]]].
          inversion H2 as [|? y ? l3 Hy Hrest E1 E2]; subst.
          inversion Hrest; subst.
          assert (O : Forall (fun s => String.length s = 1) (l1 ++ [y])%list).
          { rewrite <- E. apply chars_one_char. }
          apply Forall_app in O. destruct O as [O1 _].
          apply in_flat_map. exists (String.concat "" l1). split.
          - apply Hall. rewrite chars_concat by exact O1. exact H1.
          - apply in_map_iff. exists y. split; [|exact Hy].
            rewrite <- (concat_chars r), E, concat_app_empty. simpl.
            reflexivity. }
Qed.

(** [makeCombinations] returns, without repetition, exactly the words
    that have at each position one of the bases of the letter of
    [oligo_nuc] at that position (the letter itself where [NA_IUPAC] does
    not know it); there is at least one for a non-empty argument. *)
Theorem makeCombinations_exact (oligo_nuc : string) :
  oligo_nuc <> "" ->
  NoDup (makeCombinations oligo_nuc None)
  /\ makeCombinations oligo_nuc None <> []
  /\ forall r,
      In r (makeCombinations oligo_nuc None)
      <-> Forall2 (fun c y => In y (letter_bases c))
                  (chars oligo_nuc) (chars r).
Proof.
  intros Hne. split; [apply py_set_NoDup|].
  split; [exact (makeCombinations_nonempty oligo_nuc Hne)|].
  intros r. unfold makeCombinations. rewrite py_set_In_iff.
  pose proof (makeCombinations_fold_exact
                (chars oligo_nuc) (chars_one_char oligo_nuc) [] []
                (Forall_nil _) (or_introl (conj eq_refl eq_refl))) as H.
  cbv zeta in H. simpl app in H.
  destruct H as [[E _]|[_ [_ H]]].
  - destruct oligo_nuc; [contradiction | discriminate E].
  - exact (H r).
Qed.

Lemma makeCombinations_exact_witness :
  "RN" <> ""
  /\ NoDup (makeCombinations "RN" None)
  /\ makeCombinations "RN" None <> []
  /\ forall r,
      In r (makeCombinations "RN" None)
      <-> Forall2 (fun c y => In y (letter_bases c)) (chars "RN") (chars r).
Proof.
  assert (H : "RN" <> "") by discriminate.
  split; [exact H|]. exact (makeCombinations_exact "RN" H).
Defined.

(** ** Strand mode 2 on the tables of sequences *)












(** ** The bias table and the tables of [nucFrequencies] *)

Lemma dict_get_filter {V : Type} (p : string -> bool) (d : dict V)
      (k : string) :
  dict_get k (dict_filter p d) = if p k then dict_get k d else None.
Proof.
  induction d as [|[k' v'] d IH]; simpl; [destruct (p k); reflexivity|].
  destruct (p k') eqn:E; simpl.
  - destruct (String.eqb_spec k k') as [->|N]; [rewrite E; reflexivity|].
    exact IH.
  - rewrite IH. destruct (String.eqb_spec k k') as [->|N];
      [rewrite E; reflexivity | reflexivity].
Qed.

Lemma dict_get_default_filter {V : Type} (p : string -> bool) (d : dict V)
      (k : string) (v0 : V) :
  p k = true ->
  dict_get_default k v0 (dict_filter p d) = dict_get_default k v0 d.
Proof.
  intros H. unfold dict_get_default. rewrite dict_get_filter, H. reflexivity.
Qed.




(** ** [relativeNucFrequencies] on the tables of [nucFrequencies] *)

(** On a table that [nucFrequencies] returned, [relativeNucFrequencies]
    raises nothing but [KeyError], whatever the strand mode and the
    transcription dictionary: the oligo keys have one length, so its
    [assert] holds, and a [ZeroDivisionError] is caught. *)
Theorem relativeNucFrequencies_exceptions (seq : string) (n : nat)
        (d : dict Q) (strands : Z) (transcript_dict : option (dict string))
        (e : exn) :
  nucFrequencies seq n default_mono = Ok d ->
  relativeNucFrequencies d strands transcript_dict = Raise e ->
  e = KeyError.
Proof.
  intros Hd H.
  destruct (relativeNucFrequencies_Raise_cases _ _ _ _ H)
    as [[_ [first [rest [K F]]]]|E]; [|exact E].
  exfalso.
  assert (Hall : forall k, In k (first :: rest) -> String.length k = n).
  { intros k Hk. rewrite <- K, dict_keys_filter in Hk.
    apply filter_In in Hk. destruct Hk as [Hk L]. apply Nat.ltb_lt in L.
    destruct (table_key_shapes seq n d Hd k Hk) as [Hm|Hl]; [|exact Hl].
    pose proof (proj1 (Forall_forall _ _) default_mono_one_char k Hm) as L1.
    cbv beta in L1. lia. }
  assert (T : forallb (fun k => (String.length first =? String.length k)%nat)
                      (first :: rest) = true).
  { apply forallb_forall. intros k Hk. apply Nat.eqb_eq.
    rewrite (Hall k Hk). apply Hall. left. reflexivity. }
  rewrite T in F. discriminate F.
Qed.

Lemma relativeNucFrequencies_exceptions_witness :
  exists d,
    nucFrequencies "ACGU" 2 default_mono = Ok d
    /\ relativeNucFrequencies d 2 None = Raise KeyError
    /\ KeyError = KeyError.
Proof.
  eexists.
  assert (H : forall a b c : Prop, (a /\ b /\ (a -> b -> c)) -> a /\ b /\ c)
    by tauto.
  apply H. split; [vm_compute; reflexivity|].
  split; [vm_compute; reflexivity|].
  intros Hd Hr.
  exact (relativeNucFrequencies_exceptions "ACGU" 2 _ 2 None KeyError Hd Hr).
Defined.

Lemma canonical_table_tables (d : dict Q) (n : nat) :
  2 <= n ->
  dict_keys d = (default_mono ++ combinations n default_mono None)%list ->
  completed_mono d = dict_filter (fun x => (String.length x =? 1)%nat) d
  /\ completed_oligo d = dict_filter (fun x => (1 <? String.length x)%nat) d.
Proof.
  intros Hn Hk. destruct (filter_app_keys n Hn) as [F1 [F2 _]].
  assert (M : completed_mono d
              = dict_filter (fun x => (String.length x =? 1)%nat) d).
  { unfold completed_mono, complete_mono.
    rewrite dict_length_keys, dict_keys_filter, Hk, F1. reflexivity. }
  split; [exact M|].
  destruct (canonical_table_completed d n Hn Hk) as [KM KO].
  unfold completed_oligo, complete_oligo.
  destruct (negb _); [|reflexivity].
  apply fold_complete_noop.
  intros k Hin. rewrite dict_keys_filter, Hk, F2.
  assert (Ho : oligo_length d = n).
  { unfold oligo_length. rewrite dict_keys_filter, Hk, F2.
    destruct n as [|n']; [lia|].
    destruct (combinations_default_nonempty n') as [f [r E]].
    rewrite E.
    pose proof (combinations_length (S n') default_mono
                                    default_mono_one_char) as L.
    rewrite E in L. inversion L. auto. }
  rewrite Ho, KM in Hin. destruct n as [|n']; [lia|].
  rewrite combinations_S. exact Hin.
Qed.

(** On the table [nucFrequencies] makes of a sequence of IUPAC letters
    (oligo length 2 or more), every entry of the strand-1 table is the
    frequency of the oligo over the product of the frequencies of its
    letters, both read in the table of [nucFrequencies], and 0 when that
    product is 0. *)
Theorem relativeNucFrequencies_strand1_value (seq : string) (n : nat)
        (d out : dict Q) (x : string) (v : Q) :
  iupac_sequence seq -> 2 <= n ->
  nucFrequencies seq n default_mono = Ok d ->
  relativeNucFrequencies d 1 None = Ok out ->
  dict_get x out = Some v ->
  In x (combinations n default_mono None)
  /\ (v == strand1_relative_formula d d x)%Q.
Proof.
  intros Hseq Hn Hd Hout Hx.
  pose proof (iupac_table_keys seq n d Hseq Hn Hd) as Hk.
  destruct (relativeNucFrequencies_canonical_table d n Hn Hk)
    as [out' [Hout' Hkeys]].
  rewrite Hout in Hout'. inversion Hout'; subst out'. clear Hout'.
  assert (Hin : In x (combinations n default_mono None)).
  { rewrite <- Hkeys. exact (dict_get_Some_In _ _ _ Hx). }
  split; [exact Hin|].
  pose proof (proj1 (Forall_forall _ _)
                    (combinations_length n default_mono default_mono_one_char)
                    x Hin) as L.
  cbv beta in L.
  rewrite (one_strand_table_value d out x v Hout ltac:(lia) Hx).
  destruct (canonical_table_tables d n Hn Hk) as [-> ->].
  unfold strand1_relative_formula. cbv zeta.
  rewrite (dict_get_default_filter _ d x 0%Q)
    by (apply Nat.ltb_lt; lia).
  replace (map (fun y => dict_get_default y 0%Q
                           (dict_filter
                              (fun x0 => (String.length x0 =? 1)%nat) d))
               (chars x))
    with (map (fun y => dict_get_default y 0%Q d) (chars x)).
  - reflexivity.
  - apply map_ext_in. intros y Hy. symmetry.
    apply dict_get_default_filter. apply Nat.eqb_eq.
    exact (proj1 (Forall_forall _ _) (chars_one_char x) y Hy).
Qed.

(** In the table of "AAACGTTT" the dinucleotide AA has frequency 1/7 and
    A has frequency 1/4: the strand-1 entry of AA is 16/7. *)
Lemma relativeNucFrequencies_strand1_value_witness :
  exists d out v,
    nucFrequencies "AAACGTTT" 2 default_mono = Ok d
    /\ (v == 16 # 7)%Q
    /\ iupac_sequence "AAACGTTT" /\ 2 <= 2
    /\ relativeNucFrequencies d 1 None = Ok out
    /\ dict_get "AA" out = Some v
    /\ In "AA" (combinations 2 default_mono None)
    /\ (v == strand1_relative_formula d d "AA")%Q.
Proof.
  eexists. eexists. eexists.
  assert (Hd : nucFrequencies "AAACGTTT" 2 default_mono = Ok _)
    by (vm_compute; reflexivity).
  split; [exact Hd|].
  assert (Hs : iupac_sequence "AAACGTTT").
  { unfold iupac_sequence. simpl. repeat constructor; tauto. }
  assert (H : forall a b c e f g : Prop,
             (b /\ c /\ e /\ f /\ a /\ (b -> c -> e -> f -> g)) ->
             a /\ b /\ c /\ e /\ f /\ g) by tauto.
  apply H. split; [exact Hs|]. split; [lia|].
  split; [vm_compute; reflexivity|].
  split; [vm_compute; reflexivity|].
  split; [vm_compute; reflexivity|].
  intros Ha Hb Hout Hget.
  exact (relativeNucFrequencies_strand1_value
           "AAACGTTT" 2 _ _ "AA" _ Ha Hb Hd Hout Hget).
Defined.
